(** * Alph: rendering, redaction and the configuration transaction

    A shallow embedding of the parts of the Alph CLI that carry its
    invariants: the MCP server renderer ([src/renderers/mcp.ts]), the two
    redactors ([src/commands/status.ts], [src/utils/proxy.ts]), option
    validation and the apply step of the configure command
    ([src/commands/configure.ts]), the status survey
    ([src/commands/status.ts]) and the transaction behind the apply step
    as the specification describes it; then the code around those: the
    local tools ([src/utils/tools.ts]), the proxy arguments
    ([src/utils/proxy.ts]), the construction of the configure command and
    of its agent configuration, the status listing, the pure steps of the
    wizard ([src/commands/interactive.ts]) and the banner.

    JavaScript strings are modelled as [string] (sequences of 8-bit code
    units), objects used as records or dictionaries as [gmap string _],
    arrays as lists; where a function assigns into objects it was given,
    the objects live in a heap. Part I holds the definitions, Part II the
    properties. *)

From Stdlib Require Import ZArith Ascii String List Bool Lia DecimalString.
From stdpp Require Import gmap strings list fin_maps.

Set Warnings "-register-all".
#[local] Open Scope string_scope.
#[local] Open Scope nat_scope.
#[local] Arguments String.append !_ _ : simpl nomatch.

(** * Part I: definitions *)

(** ** JavaScript values *)

(** The JSON-shaped values that flow through the renderer and the
    redactors, with [undefined] kept apart from [null]. *)
Inductive value : Type :=
| VUndefined
| VNull
| VBool (b : bool)
| VNum (n : Z)
| VStr (s : string)
| VArr (l : list value)
| VObj (m : gmap string value).

(** Object spread [{...a, ...b}]: the keys of [b] win. *)
Definition spread {A} (a b : gmap string A) : gmap string A := b ∪ a.

(** [...(c ? { k: v } : {})] *)
Definition field_if {A} (c : bool) (k : string) (v : A) : gmap string A :=
  if c then {[ k := v ]} else ∅.

(** Truthiness of an optional string: absent and [''] are falsy. *)
Definition truthy_str (o : option string) : bool :=
  match o with
  | Some s => negb (String.eqb s "")
  | None => false
  end.

(** Truthiness of an optional array or object: any present one is truthy. *)
Definition truthy_ref {A} (o : option A) : bool :=
  match o with Some _ => true | None => false end.

(** The value an optional string field evaluates to. *)
Definition of_opt_str (o : option string) : value :=
  match o with Some s => VStr s | None => VUndefined end.

Definition of_opt_strs (o : option (list string)) : value :=
  match o with Some l => VArr (VStr <$> l) | None => VUndefined end.

Definition of_opt_dict (o : option (gmap string string)) : value :=
  match o with Some m => VObj (VStr <$> m) | None => VUndefined end.

Definition of_opt_num (o : option Z) : value :=
  match o with Some n => VNum n | None => VUndefined end.

(** ** The renderer, [src/renderers/mcp.ts] *)

Module Render.

Inductive Transport := http | sse | stdio.

(** [RenderInput]. The TypeScript type restricts [agent] to three
    literals; the function still has a branch for any other string, so the
    field is a plain string here. *)
Record RenderInput := {
  agent : string;
  serverId : string;
  transport : Transport;
  url : option string;
  headers : option (gmap string string);
  command : option string;
  args : option (list string);
  cwd : option string;
  env : option (gmap string string);
  timeout : option Z
}.

(** [nonEmpty]: the object itself when it has at least one key. *)
Definition nonEmpty {A} (obj : option (gmap string A)) : option (gmap string A) :=
  match obj with
  | None => None
  | Some m => if decide (0 < length (map_to_list m).*1) then Some m else None
  end.

(** The [server] object built by the branch for ([agent], [transport]). *)
Definition renderServer (input : RenderInput) : gmap string value :=
  let url_f k := field_if (truthy_str (url input)) k (of_opt_str (url input)) in
  let command_f := field_if (truthy_str (command input)) "command" (of_opt_str (command input)) in
  let args_f := field_if (truthy_ref (args input)) "args" (of_opt_strs (args input)) in
  let cwd_f := field_if (truthy_str (cwd input)) "cwd" (of_opt_str (cwd input)) in
  let env_any_f := field_if (truthy_ref (env input)) "env" (of_opt_dict (env input)) in
  let env_f := field_if (truthy_ref (nonEmpty (env input))) "env" (of_opt_dict (env input)) in
  let headers_f := field_if (truthy_ref (nonEmpty (headers input))) "headers" (of_opt_dict (headers input)) in
  let timeout_f := field_if (truthy_ref (timeout input)) "timeout" (of_opt_num (timeout input)) in
  if String.eqb (agent input) "cursor" then
    match transport input with
    | stdio => spread (spread (spread ∅ command_f) args_f) env_any_f
    | sse => spread (spread {[ "type" := VStr "sse" ]} (url_f "url")) headers_f
    | http => spread (spread {[ "type" := VStr "http" ]} (url_f "url")) headers_f
    end
  else if String.eqb (agent input) "gemini" then
    match transport input with
    | stdio =>
        spread (spread (spread (spread (spread {[ "transport" := VStr "stdio" ]}
          command_f) args_f) cwd_f) env_f) timeout_f
    | sse =>
        spread (spread (spread (spread {[ "transport" := VStr "sse" ]}
          (url_f "url")) headers_f) env_f) timeout_f
    | http =>
        spread (spread (spread (spread ∅ (url_f "httpUrl")) headers_f) env_f) timeout_f
    end
  else if String.eqb (agent input) "claude" then
    match transport input with
    | stdio => spread (spread (spread ∅ command_f) args_f) env_f
    | sse => spread (spread {[ "type" := VStr "sse" ]} (url_f "url")) headers_f
    | http => spread (spread {[ "type" := VStr "http" ]} (url_f "url")) headers_f
    end
  else
    match transport input with
    | stdio => spread (spread {[ "command" := of_opt_str (command input) ]} args_f) env_f
    | _ => spread {[ "url" := of_opt_str (url input) ]} headers_f
    end.

(** [renderMcpServer]: the server wrapped as [{ mcpServers: { [serverId]: server } }]. *)
Definition renderMcpServer (input : RenderInput)
  : gmap string (gmap string (gmap string value)) :=
  {[ "mcpServers" := {[ serverId input := renderServer input ]} ]}.

Definition recognized (a : string) : bool :=
  String.eqb a "cursor" || String.eqb a "gemini" || String.eqb a "claude".

(** The input field each output key is drawn from. *)
Definition field_source (i : RenderInput) (k : string) : value :=
  if String.eqb k "url" then of_opt_str (url i)
  else if String.eqb k "httpUrl" then of_opt_str (url i)
  else if String.eqb k "command" then of_opt_str (command i)
  else if String.eqb k "args" then of_opt_strs (args i)
  else if String.eqb k "cwd" then of_opt_str (cwd i)
  else if String.eqb k "env" then of_opt_dict (env i)
  else if String.eqb k "headers" then of_opt_dict (headers i)
  else if String.eqb k "timeout" then of_opt_num (timeout i)
  else VUndefined.

(** No key of the server object holds [undefined]. *)
Definition no_undefined_fields (i : RenderInput) : Prop :=
  ∀ k v, renderServer i !! k = Some v → v ≠ VUndefined.

Definition fallback_stdio_input : RenderInput :=
  {| agent := "windsurf"; serverId := "demo"; transport := stdio;
     url := None; headers := None; command := None; args := None;
     cwd := None; env := None; timeout := None |}.

Definition fallback_http_input : RenderInput :=
  {| agent := "windsurf"; serverId := "demo"; transport := http;
     url := Some "https://example.com/mcp"; headers := Some ∅; command := None;
     args := None; cwd := None; env := None; timeout := None |}.

Definition cursor_stdio_input : RenderInput :=
  {| agent := "cursor"; serverId := "demo"; transport := stdio;
     url := None; headers := None; command := Some "npx"; args := None;
     cwd := None; env := Some ∅; timeout := None |}.

End Render.

(** ** Characters and strings *)

Module Chars.

Definition code (c : ascii) : nat := nat_of_ascii c.

Definition is_upper (c : ascii) : bool := ((65 <=? code c) && (code c <=? 90))%nat.
Definition is_lower (c : ascii) : bool := ((97 <=? code c) && (code c <=? 122))%nat.

(** The capital letters of the upper half of the 8-bit range: [À] (192) to
    [Þ] (222), without the multiplication sign (215). *)
Definition is_upper_latin1 (c : ascii) : bool :=
  ((192 <=? code c) && (code c <=? 222) && negb (code c =? 215))%nat.

(** [toLowerCase] on one code unit of the 8-bit range: the letters [A] to
    [Z] and the capitals of the upper half move up by 32, every other code
    unit stays. *)
Definition to_lower (c : ascii) : ascii :=
  if is_upper c || is_upper_latin1 c then ascii_of_nat (code c + 32) else c.

(** The canonical form of a character under the [i] flag of a regular
    expression, for the patterns here, which are ASCII: a code unit above
    127 is never canonicalised into the ASCII range, so it matches no
    character of such a pattern whichever form it is given. *)
Definition to_upper (c : ascii) : ascii :=
  if is_lower c then ascii_of_nat (code c - 32) else c.

(** The class [\s] within the 8-bit range: TAB, LF, VT, FF, CR, space and
    the no-break space. *)
Definition is_space (c : ascii) : bool :=
  let n := code c in
  ((9 <=? n) && (n <=? 13) || (n =? 32) || (n =? 160))%nat.

(** Line terminators within the 8-bit range: what [.] does not match. *)
Definition is_newline (c : ascii) : bool :=
  let n := code c in ((n =? 10) || (n =? 13))%nat.

Fixpoint string_map (f : ascii → ascii) (s : string) : string :=
  match s with
  | EmptyString => EmptyString
  | String c s' => String (f c) (string_map f s')
  end.

Definition toLowerCase (s : string) : string := string_map to_lower s.

Fixpoint string_drop (n : nat) (s : string) : string :=
  match n, s with
  | O, _ => s
  | S n', EmptyString => EmptyString
  | S n', String _ s' => string_drop n' s'
  end.

(** [s.slice(-n)]: the last [n] code units, the whole string when it is
    shorter. *)
Definition slice_last (n : nat) (s : string) : string :=
  string_drop (String.length s - n) s.

Fixpoint has_char (c : ascii) (s : string) : bool :=
  match s with
  | EmptyString => false
  | String d s' => Ascii.eqb c d || has_char c s'
  end.

(** [t] occurs in [s] as a contiguous substring. *)
Definition substring_of (t s : string) : Prop := ∃ a b, s = a ++ t ++ b.

(** [prefix_ci w s]: [s] starts with [w], ASCII case ignored. *)
Fixpoint prefix_ci (w s : string) : bool :=
  match w, s with
  | EmptyString, _ => true
  | String _ _, EmptyString => false
  | String p w', String c s' => Ascii.eqb (to_upper p) (to_upper c) && prefix_ci w' s'
  end.

(** [contains_ci w s]: [w] occurs somewhere in [s], ASCII case ignored. *)
Fixpoint contains_ci (w s : string) : bool :=
  prefix_ci w s ||
  match s with
  | EmptyString => false
  | String _ s' => contains_ci w s'
  end.

(** The characters of a string. *)
Abbreviation chars := list_ascii_of_string.

(** The decimal spelling of an array index, the key under which
    [Object.entries] lists an array element. *)
Definition index_key (i : nat) : string := NilZero.string_of_uint (Nat.to_uint i).

End Chars.

(** ** Masking, [maskLast4] in [src/commands/status.ts] and
    [ConfigureCommand.redact] in [src/commands/configure.ts] *)

Module Mask.
Import Chars.

(** [maskLast4]: anything but a non-empty string is returned unchanged. *)
Definition maskLast4 (v : value) : value :=
  match v with
  | VStr s =>
      if (String.length s =? 0)%nat then v
      else let last4 := slice_last 4 s in VStr ("****" ++ last4)
  | _ => v
  end.

(** [ConfigureCommand.redact]: absent and empty values give ['']. *)
Definition redact (value : option string) : string :=
  match value with
  | None => ""
  | Some s =>
      if String.eqb s "" then ""
      else let last4 := slice_last 4 s in "****" ++ last4
  end.

(** The masking law as written: the masked text ends with the last four
    characters of [v] and no other substring of [v] of length at least 4
    occurs in it. *)
Definition masking_law (v masked : string) : Prop :=
  masked = "****" ++ slice_last 4 v ∧
  String.length (slice_last 4 v) = 4 ∧
  ∀ t, 4 ≤ String.length t → substring_of t v → substring_of t masked →
       t = slice_last 4 v.

End Mask.

(** ** The status redactor, [redactSensitive] in [src/commands/status.ts] *)

Module Status.
Import Chars Mask.

(** [/^(authorization|access[-_]?key|api[-_]?key|token|secret|password|pass)$/i]:
    the whole key is one of the words of this finite language. *)
Definition SENSITIVE_KEYS (k : string) : bool :=
  existsb (String.eqb (toLowerCase k))
    ["authorization"; "accesskey"; "access-key"; "access_key";
     "apikey"; "api-key"; "api_key"; "token"; "secret"; "password"; "pass"].

(** [/(token|secret|key|password|pass|auth)/i]: one of the words occurs
    anywhere in the key. *)
Definition ENV_SENSITIVE (k : string) : bool :=
  existsb (λ w, contains_ci w k)
    ["token"; "secret"; "key"; "password"; "pass"; "auth"].

(** [structuredCloneSafe]: values are immutable trees here, so the deep
    copy of a value is the value; the copying itself is modelled on the
    heap in [Heap] below. *)
Definition structuredCloneSafe (v : gmap string value) : gmap string value := v.

(** [for (const [k, v] of Object.entries(o)) if (test(k)) o[k] = maskLast4(v)]
    on an object: the entries are listed first, each assignment then
    updates the object. *)
Definition mask_entries (test : string → bool) (o : gmap string value)
  : gmap string value :=
  map_fold (λ k v acc, if test k then <[k := maskLast4 v]> acc else acc) o o.

(** The same loop on an array, whose entries are keyed by index. *)
Definition mask_items (test : string → bool) (l : list value) : list value :=
  foldl (λ acc '(i, v), if test (index_key i) then <[i := maskLast4 v]> acc else acc)
        l (imap pair l).

(** The guarded loop over [clone.headers] or [clone.env]: it runs when the
    field is truthy and of type ['object'], that is an object or an array. *)
Definition mask_container (test : string → bool) (v : value) : value :=
  match v with
  | VObj m => VObj (mask_entries test m)
  | VArr l => VArr (mask_items test l)
  | _ => v
  end.

Definition mask_field (test : string → bool) (f : string) (clone : gmap string value)
  : gmap string value :=
  match clone !! f with
  | Some v => <[f := mask_container test v]> clone
  | None => clone
  end.

Definition redactSensitive (obj : gmap string value) : gmap string value :=
  let clone := structuredCloneSafe obj in
  let clone := mask_field SENSITIVE_KEYS "headers" clone in
  let clone := mask_field ENV_SENSITIVE "env" clone in
  mask_entries SENSITIVE_KEYS clone.

(** What the loop does to one entry. *)
Definition mask_if (test : string → bool) (k : string) (v : value) : value :=
  if test k then maskLast4 v else v.

(** What [redactSensitive] does to the field under key [k]. *)
Definition redact_at (k : string) (v : value) : value :=
  if decide (k = "headers") then mask_container SENSITIVE_KEYS v
  else if decide (k = "env") then mask_container ENV_SENSITIVE v
  else mask_if SENSITIVE_KEYS k v.

(** A string of one to three characters: the mask of such a value is
    longer than four characters and is masked differently again. *)
Definition short_string (v : value) : bool :=
  match v with
  | VStr s => ((1 <=? String.length s) && (String.length s <=? 3))%nat
  | _ => false
  end.

(** No value that [redactSensitive] masks in [x] is a short string. *)
Definition no_short_secret (x : gmap string value) : Prop :=
  (∀ k v, x !! k = Some v → SENSITIVE_KEYS k = true → short_string v = false) ∧
  (∀ h k v, x !! "headers" = Some (VObj h) → h !! k = Some v →
            SENSITIVE_KEYS k = true → short_string v = false) ∧
  (∀ e k v, x !! "env" = Some (VObj e) → e !! k = Some v →
            ENV_SENSITIVE k = true → short_string v = false).

(** [{ headers: { Authorization: 'Bearer abcd1234efgh' }, url: ... }] *)
Definition demo_entry : gmap string value :=
  <[ "headers" := VObj {[ "Authorization" := VStr "Bearer abcd1234efgh" ]} ]>
    {[ "url" := VStr "https://example.com/mcp" ]}.

End Status.

(** ** Regular expressions of [src/utils/proxy.ts]

    Backtracking matchers in continuation-passing style: a matcher takes
    the continuation for what follows it in the pattern and the input
    still to read, tries its alternatives in the order a JavaScript
    regular expression does, and fails with [None]. *)

Module Regex.
Import Chars.

Definition text := list ascii.

(** Equality of two characters under the [i] flag. *)
Definition eq_ci (p c : ascii) : bool := Ascii.eqb (to_upper p) (to_upper c).

(** A literal word, case ignored. *)
Fixpoint lit_ci {R} (w : text) (k : text → option R) (s : text) : option R :=
  match w with
  | [] => k s
  | p :: w' =>
      match s with
      | c :: s' => if eq_ci p c then lit_ci w' k s' else None
      | [] => None
      end
  end.

(** [cls*], greedy: the longest run first, shorter ones on failure. *)
Fixpoint star_greedy {R} (cls : ascii → bool) (k : text → option R) (s : text)
  : option R :=
  match s with
  | c :: s' =>
      if cls c then
        match star_greedy cls k s' with
        | Some r => Some r
        | None => k s
        end
      else k s
  | [] => k s
  end.

(** [cls+], greedy. *)
Definition plus_greedy {R} (cls : ascii → bool) (k : text → option R) (s : text)
  : option R :=
  match s with
  | c :: s' => if cls c then star_greedy cls k s' else None
  | [] => None
  end.

(** [cls+?], lazy: the shortest run first. *)
Fixpoint plus_lazy {R} (cls : ascii → bool) (k : text → option R) (s : text)
  : option R :=
  match s with
  | c :: s' =>
      if cls c then
        match k s' with
        | Some r => Some r
        | None => plus_lazy cls k s'
        end
      else None
  | [] => None
  end.

(** [.]: anything but a line terminator. *)
Definition dot (c : ascii) : bool := negb (is_newline c).

(** The class of the bearer token: anything but white space, the double
    quote (code 34) and the single quote (code 39). *)
Definition token_char (c : ascii) : bool :=
  negb (is_space c) && negb (code c =? 34) && negb (code c =? 39).

(** [(?=$|\r|\n)] without the [m] flag: at the end of the input, or before
    CR or LF. *)
Definition at_line_end (s : text) : bool :=
  match s with
  | [] => true
  | c :: _ => is_newline c
  end.

(** A match of a pattern [(G1)(G2)] started at the head of the input:
    the input left after group 1 and the input left after group 2. *)
Definition groups := (text * text)%type.

(** The bearer pattern: group 1 is [--oauth2Bearer\s+], group 2 a
    greedy non-empty run of token characters; flag [i]. *)
Definition bearer_re (s : text) : option groups :=
  lit_ci (list_ascii_of_string "--oauth2Bearer")
    (plus_greedy is_space
       (λ s1, plus_greedy token_char (λ s2, Some (s1, s2)) s1)) s.

(** The header pattern for [KEY]: group 1 is the key, white space, a
    colon and white space (both runs greedy, possibly empty); group 2 is
    [.+?]; then the lookahead for the end of input, CR or LF; flag [i]. *)
Definition header_re (key : string) (s : text) : option groups :=
  lit_ci (list_ascii_of_string key)
    (star_greedy is_space
       (lit_ci (list_ascii_of_string ":")
          (star_greedy is_space
             (λ s1, plus_lazy dot
                      (λ s2, if at_line_end s2 then Some (s1, s2) else None) s1)))) s.

(** [s.replace(re, '$1' + placeholder)] for a global pattern [re] of two
    groups: scan from the left; at a match emit group 1 and the
    placeholder and resume after the match, otherwise emit the character.
    [skip] counts the characters of a match still to pass over. Every
    pattern here matches at least one character, so none matches at the
    end of the input. *)
Fixpoint replace_go (re : text → option groups) (placeholder : text)
    (skip : nat) (s : text) : text :=
  match s with
  | [] => []
  | c :: s' =>
      match skip with
      | S n => replace_go re placeholder n s'
      | O =>
          match re s with
          | Some (s1, s2) =>
              (take (length s - length s1) s ++ placeholder ++
               replace_go re placeholder (length s - length s2 - 1) s')%list
          | None => c :: replace_go re placeholder 0 s'
          end
      end
  end.

Definition replace_all (re : text → option groups) (placeholder : string) (s : text)
  : text :=
  replace_go re (list_ascii_of_string placeholder) 0 s.

End Regex.

(** ** The log redactor, [redactForLogs] in [src/utils/proxy.ts] *)

Module Proxy.
Import Chars Regex.

Definition SENSITIVE_HEADER_KEYS : list string :=
  ["authorization"; "x-api-key"; "x-auth-token"; "x-access-token";
   "proxy-authorization"].

(** [redactString], on the characters of the string. *)
Definition redact_text (s : text) : text :=
  let out := s in
  let out := replace_all bearer_re "<redacted:bearer>" out in
  let out := replace_all (header_re "Authorization") "<redacted:authorization>" out in
  fold_left
    (λ out k, replace_all (header_re k) ("<redacted:" ++ k ++ ">") out)
    SENSITIVE_HEADER_KEYS out.

Definition redactString (s : string) : string :=
  string_of_list_ascii (redact_text (list_ascii_of_string s)).

Definition is_bearer_flag (part : string) : bool :=
  String.eqb (toLowerCase part) "--oauth2bearer".

(** The array branch of [redactForLogs]: the loop over the indices of [x],
    which steps over the element after a flag once it has replaced it. A
    flag in last position has nothing after it, so control leaves the
    [if] and reaches the final [out.push] with the flag itself. *)
Fixpoint redactForLogs_argv (x : list string) : list string :=
  match x with
  | [] => []
  | part :: rest =>
      if is_bearer_flag part then
        match rest with
        | _ :: rest' => part :: "<redacted:bearer>" :: redactForLogs_argv rest'
        | [] => [part; redactString part]
        end
      else redactString part :: redactForLogs_argv rest
  end.

(** The string branch of [redactForLogs]. *)
Definition redactForLogs_string (x : string) : string := redactString x.

(** Specification vocabulary: every character of [s] is in the class. *)
Definition all_chars (cls : ascii → bool) (s : string) : bool :=
  forallb cls (list_ascii_of_string s).

(** The first character of [s], if any. *)
Definition first_char (s : string) : option ascii :=
  match s with
  | EmptyString => None
  | String c _ => Some c
  end.

(** [rest] is empty or starts a new line. *)
Definition line_break_or_end (rest : string) : bool :=
  match rest with
  | EmptyString => true
  | String c _ => is_newline c
  end.

End Proxy.

(** ** Objects on a heap

    Both redactors copy their argument and then assign into the copy. To
    see what the caller's object looks like afterwards, objects live in
    a heap here and fields hold references to them. *)

Module Heap.
Import Chars Regex Proxy Status.

Abbreviation loc := nat.

Inductive hval : Type :=
| HUndefined
| HNull
| HBool (b : bool)
| HNum (n : Z)
| HStr (s : string)
| HRef (l : loc).

(** A property key: a name, or the index of an array element. *)
Inductive key : Type :=
| KName (k : string)
| KIndex (i : nat).

Definition key_string (k : key) : string :=
  match k with
  | KName s => s
  | KIndex i => index_key i
  end.

(** An object keeps its fields in insertion order. *)
Inductive hobj : Type :=
| HObject (fields : list (string * hval))
| HArray (items : list hval).

Record heap := { cells : gmap loc hobj; next : loc }.

Definition alloc (o : hobj) (h : heap) : loc * heap :=
  (next h, {| cells := <[next h := o]> (cells h); next := S (next h) |}).

(** [Object.entries(o)] *)
Definition entries (o : hobj) : list (key * hval) :=
  match o with
  | HObject fields => map (λ kv, (KName kv.1, kv.2)) fields
  | HArray items => imap (λ i v, (KIndex i, v)) items
  end.

Fixpoint set_field (k : string) (v : hval) (fields : list (string * hval))
  : list (string * hval) :=
  match fields with
  | [] => [(k, v)]
  | (k', v') :: rest =>
      if String.eqb k' k then (k, v) :: rest else (k', v') :: set_field k v rest
  end.

(** [obj[k] = v] for a key that [Object.entries(obj)] listed. *)
Definition assign (obj : loc) (k : key) (v : hval) (h : heap) : heap :=
  match cells h !! obj, k with
  | Some (HObject fields), KName s =>
      {| cells := <[obj := HObject (set_field s v fields)]> (cells h); next := next h |}
  | Some (HArray items), KIndex i =>
      {| cells := <[obj := HArray (<[i := v]> items)]> (cells h); next := next h |}
  | _, _ => h
  end.

(** [/^Bearer\s+\S+$/i.test(v)] *)
Definition bearer_value (v : string) : bool :=
  match
    lit_ci (list_ascii_of_string "Bearer")
      (plus_greedy is_space
         (plus_greedy (λ c, negb (is_space c))
            (λ s, match s with [] => Some tt | _ => None end)))
      (list_ascii_of_string v)
  with
  | Some _ => true
  | None => false
  end.

(** The string assigned to [obj[k]] by [walk] for the string value [v]. *)
Definition redact_field (k v : string) : string :=
  let keyLower := toLowerCase k in
  if String.eqb keyLower "authorization" then
    if bearer_value v then "Bearer <redacted:authorization>"
    else "<redacted:authorization>"
  else if existsb (String.eqb keyLower) SENSITIVE_HEADER_KEYS then
    "<redacted:" ++ keyLower ++ ">"
  else if bearer_value v then "Bearer <redacted:authorization>"
  else redactString v.

(** [walk(obj)]: over the entries listed at entry, descend into objects
    and arrays, assign the redacted text over strings. The recursion
    follows references, so it takes fuel; it does not return on a cyclic
    structure. *)
Fixpoint walk (fuel : nat) (obj : loc) (h : heap) : option heap :=
  match fuel with
  | O => None
  | S fuel' =>
      match cells h !! obj with
      | None => None
      | Some o =>
          foldl
            (λ acc '(k, v),
               match acc with
               | None => None
               | Some h =>
                   match v with
                   | HRef l => walk fuel' l h
                   | HStr s =>
                       Some (assign obj k (HStr (redact_field (key_string k) s)) h)
                   | _ => Some h
                   end
               end)
            (Some h) (entries o)
      end
  end.

(** The object branch of [redactForLogs]: [clone = { ...x }] copies the
    fields of [x] into a new object, references as they are, and [walk]
    runs on the copy. *)
Definition redactForLogs_object (fuel : nat) (x : loc) (h : heap)
  : option (loc * heap) :=
  match cells h !! x with
  | Some (HObject fields) =>
      let '(clone, h) := alloc (HObject fields) h in
      match walk fuel clone h with
      | Some h => Some (clone, h)
      | None => None
      end
  | _ => None
  end.

(** [structuredClone]: a deep copy that keeps sharing and cycles through
    a memory of the objects already copied. *)
Definition clone_list (clone_val : hval → gmap loc loc → heap → option (hval * gmap loc loc * heap))
  : list hval → gmap loc loc → heap → option (list hval * gmap loc loc * heap) :=
  fix go (vs : list hval) (memo : gmap loc loc) (h : heap) :=
    match vs with
    | [] => Some ([], memo, h)
    | v :: vs' =>
        match clone_val v memo h with
        | None => None
        | Some (v', memo, h) =>
            match go vs' memo h with
            | None => None
            | Some (vs'', memo, h) => Some (v' :: vs'', memo, h)
            end
        end
    end.

Definition fill (l : loc) (o : hobj) (h : heap) : heap :=
  {| cells := <[l := o]> (cells h); next := next h |}.

Fixpoint structuredClone (fuel : nat) (v : hval) (memo : gmap loc loc) (h : heap)
  : option (hval * gmap loc loc * heap) :=
  match v with
  | HRef l =>
      match memo !! l with
      | Some l' => Some (HRef l', memo, h)
      | None =>
          match fuel with
          | O => None
          | S fuel' =>
              match cells h !! l with
              | None => None
              | Some (HObject fields) =>
                  let '(l', h) := alloc (HObject []) h in
                  match clone_list (structuredClone fuel') fields.*2 (<[l := l']> memo) h with
                  | None => None
                  | Some (vs, memo, h) =>
                      Some (HRef l', memo, fill l' (HObject (zip fields.*1 vs)) h)
                  end
              | Some (HArray items) =>
                  let '(l', h) := alloc (HArray []) h in
                  match clone_list (structuredClone fuel') items (<[l := l']> memo) h with
                  | None => None
                  | Some (vs, memo, h) => Some (HRef l', memo, fill l' (HArray vs) h)
                  end
              end
          end
      end
  | _ => Some (v, memo, h)
  end.

(** [maskLast4] on a heap value. *)
Definition maskLast4 (v : hval) : hval :=
  match v with
  | HStr s =>
      if String.length s =? 0 then v
      else let last4 := slice_last 4 s in HStr ("****" ++ last4)
  | _ => v
  end.

(** [for (const [k, v] of Object.entries(o)) if (test(k)) o[k] = maskLast4(v)]
    on the object at [l]. *)
Definition mask_cell (test : string → bool) (l : loc) (h : heap) : heap :=
  match cells h !! l with
  | None => h
  | Some o =>
      foldl (λ h '(k, v), if test (key_string k) then assign l k (maskLast4 v) h else h)
            h (entries o)
  end.

Definition get_field (l : loc) (k : string) (h : heap) : hval :=
  match cells h !! l with
  | Some (HObject fields) =>
      match list_find (λ kv, kv.1 = k) fields with
      | Some (_, (_, v)) => v
      | None => HUndefined
      end
  | _ => HUndefined
  end.

(** The guarded loop over [clone.headers] or [clone.env]. *)
Definition mask_field (test : string → bool) (clone : loc) (f : string) (h : heap) : heap :=
  match get_field clone f h with
  | HRef l => mask_cell test l h
  | _ => h
  end.

(** [redactSensitive] with its copy made on the heap. *)
Definition redactSensitive (fuel : nat) (obj : loc) (h : heap) : option (loc * heap) :=
  match structuredClone fuel (HRef obj) ∅ h with
  | Some (HRef clone, _, h) =>
      let h := mask_field SENSITIVE_KEYS clone "headers" h in
      let h := mask_field ENV_SENSITIVE clone "env" h in
      Some (clone, mask_cell SENSITIVE_KEYS clone h)
  | _ => None
  end.

(** A value that does not refer to an object older than [n0]. *)
Definition fresh_val (n0 : loc) (v : hval) : Prop :=
  match v with
  | HRef l => n0 ≤ l
  | _ => True
  end.

Definition values (o : hobj) : list hval :=
  match o with
  | HObject fields => fields.*2
  | HArray items => items
  end.

(** The objects made since [n0] refer to such objects only. *)
Definition cells_new (n0 : loc) (h : heap) : Prop :=
  ∀ l o, n0 ≤ l → cells h !! l = Some o → Forall (fresh_val n0) (values o).

Definition memo_new (n0 : loc) (memo : gmap loc loc) : Prop :=
  ∀ l l', memo !! l = Some l' → n0 ≤ l'.

(** What a step of copying or masking keeps: the heap grows, the objects
    older than [n0] stay as they are, the newer ones stay closed. *)
Definition keeps (n0 : loc) (h h' : heap) : Prop :=
  next h ≤ next h' ∧
  (∀ l, l < n0 → cells h' !! l = cells h !! l) ∧
  (cells_new n0 h → cells_new n0 h').

(** A copying function that leaves the objects older than [n0] alone and
    returns values that refer to new objects only. *)
Definition clone_ok {A} (n0 : loc) (fresh : A → Prop)
    (f : gmap loc loc → heap → option (A * gmap loc loc * heap)) : Prop :=
  ∀ memo h r memo' h',
    f memo h = Some (r, memo', h') →
    n0 ≤ next h → memo_new n0 memo → cells_new n0 h →
    next h ≤ next h' ∧ (∀ l, l < n0 → cells h' !! l = cells h !! l) ∧
    cells_new n0 h' ∧ memo_new n0 memo' ∧ fresh r.

(** A heap is well formed when nothing lives at or above [next]. *)
Definition wf (h : heap) : Prop := ∀ l, next h ≤ l → cells h !! l = None.

(** The caller's view: every object that existed before the call is as
    it was. *)
Definition unchanged (h h' : heap) : Prop :=
  ∀ l, l < next h → cells h' !! l = cells h !! l.

(** [{ headers: { Authorization: 'Bearer abc123' } }] at location 0. *)
Definition nested_secret : heap :=
  {| cells := <[0 := HObject [("headers", HRef 1)]]>
                (<[1 := HObject [("Authorization", HStr "Bearer abc123")]]> ∅);
     next := 2 |}.

End Heap.

(** ** Option validation, [ConfigureCommand] in [src/commands/configure.ts] *)

Module Configure.
Import Chars Render.

(** The resolved options of the command, as far as validation and the
    apply step read them. *)
Record ConfigureCommandOptions := {
  mcpServerEndpoint : string;
  bearer : string;
  transport : Transport;
  interactive : bool;
  configDir : string;
  yes : bool;
  dryRun : bool;
  command : string;
  backup : bool
}.

(** The probes of the file system that validation makes. *)
Inductive FsProbe :=
| ExistsSync (path : string)
| StatSync (path : string).

(** The environment of validation: the URL parser behind [new URL(s)]
    ([false] when it throws), [existsSync], and [statSync(dir)] followed by
    [isDirectory()] (an error message when [statSync] throws). *)
Record Env := {
  url_parses : string → bool;
  existsSync : string → bool;
  statSync_isDirectory : string → string + bool
}.

Fixpoint drop_while (f : ascii → bool) (s : list ascii) : list ascii :=
  match s with
  | c :: s' => if f c then drop_while f s' else s
  | [] => []
  end.

(** [s.trim()] *)
Definition trim (s : string) : string :=
  string_of_list_ascii
    (rev (drop_while is_space (rev (drop_while is_space (list_ascii_of_string s))))).

Definition requiresUrl (t : Transport) : bool :=
  match t with
  | http | sse => true
  | stdio => false
  end.

Definition nonempty (s : string) : bool := negb (String.eqb s "").

(** [validateOptions]: the probes made, in order, and the error thrown
    if any. *)
Definition validateOptions (env : Env) (o : ConfigureCommandOptions)
  : list FsProbe * (string + unit) :=
  if negb (interactive o) && requiresUrl (transport o)
     && negb (nonempty (mcpServerEndpoint o)) && negb (dryRun o)
  then ([], inl "--mcp-server-endpoint is required for http/sse in non-interactive mode")
  else if nonempty (mcpServerEndpoint o) && requiresUrl (transport o)
          && negb (url_parses env (mcpServerEndpoint o))
  then ([], inl ("Invalid MCP server endpoint URL: " ++ mcpServerEndpoint o))
  else if nonempty (configDir o) && nonempty (trim (configDir o)) then
    let dir := trim (configDir o) in
    if negb (existsSync env dir) then
      ([ExistsSync dir], inl ("Configuration directory does not exist: " ++ dir))
    else
      match statSync_isDirectory env dir with
      | inl e => ([ExistsSync dir; StatSync dir], inl e)
      | inr false =>
          ([ExistsSync dir; StatSync dir],
           inl ("Configuration path is not a directory: " ++ dir))
      | inr true => ([ExistsSync dir; StatSync dir], inr tt)
      end
  else ([], inr tt).

(** [execute]: validation comes first; [rest] stands for everything after
    it (detection, preview, confirmation and the apply step), which is
    the only part that reads or writes configuration files, acting on a
    world [W]. *)
Definition execute {W} (env : Env) (o : ConfigureCommandOptions)
    (rest : W → W * (string + unit)) (w : W)
  : list FsProbe * W * (string + unit) :=
  match validateOptions env o with
  | (probes, inl e) => (probes, w, inl e)
  | (probes, inr tt) => let '(w', r) := rest w in (probes, w', r)
  end.

(** The canonical spec read off the options is invalid, as the error
    taxonomy has it. *)
Definition missing_url (o : ConfigureCommandOptions) : bool :=
  requiresUrl (transport o) && negb (nonempty (mcpServerEndpoint o)).

Definition missing_command (o : ConfigureCommandOptions) : bool :=
  negb (requiresUrl (transport o)) && negb (nonempty (command o)).

Definition malformed_url (env : Env) (o : ConfigureCommandOptions) : bool :=
  requiresUrl (transport o) && nonempty (mcpServerEndpoint o)
  && negb (url_parses env (mcpServerEndpoint o)).

(** An environment for examples: a URL parses when it has a colon. *)
Definition demo_env : Env :=
  {| url_parses := has_char ":";
     existsSync := λ _, true;
     statSync_isDirectory := λ _, inr true |}.

Definition stdio_no_command : ConfigureCommandOptions :=
  {| mcpServerEndpoint := ""; bearer := ""; transport := stdio;
     interactive := false; configDir := ""; yes := true; dryRun := false;
     command := ""; backup := true |}.

Definition http_dry_run_no_url : ConfigureCommandOptions :=
  {| mcpServerEndpoint := ""; bearer := ""; transport := http;
     interactive := false; configDir := ""; yes := true; dryRun := true;
     command := ""; backup := true |}.

Definition http_bad_url : ConfigureCommandOptions :=
  {| mcpServerEndpoint := "not a url"; bearer := ""; transport := http;
     interactive := false; configDir := "/tmp"; yes := true; dryRun := false;
     command := ""; backup := true |}.

End Configure.

(** ** The status survey, [buildProviderStatuses] in [src/commands/status.ts] *)

Module StatusCommand.
Import Chars Status.

(** [ProviderDetectionResult], as far as the survey reads it. *)
Record ProviderDetectionResult := {
  provider_name : string;
  detected : bool;
  configPath : option string;
  detection_error : option string
}.

Record RedactedServerEntry := { id : string; config : value }.

Record ProviderStatus := {
  name : string;
  status_detected : bool;
  status_configPath : option string;
  error : option string;
  servers : option (list RedactedServerEntry)
}.

(** What the survey reads from: [fs.readFile] (an error message when it
    throws), [TOML.parse] ([None] when it throws), and
    [FileOperations.readJsonFile] of [src/utils/fileOps] (an error message
    when it throws). *)
Record Reader := {
  readFile : string → string + string;
  TOML_parse : string → option value;
  readJsonFile : string → string + value
}.

(** [redactSensitive(cfg)] on an entry of a server map. An object is
    redacted; [Object.entries] throws on [null] and [undefined]; an array
    or a primitive has no key that either pattern accepts and comes back
    as it is. *)
Definition redact_config (cfg : value) : option value :=
  match cfg with
  | VObj m => Some (VObj (redactSensitive m))
  | VNull | VUndefined => None
  | _ => Some cfg
  end.

(** [redactSensitive(config)] on an entry that [extractMCPServers] kept,
    an object or an array. *)
Definition redact_object (cfg : value) : value :=
  match cfg with
  | VObj m => VObj (redactSensitive m)
  | _ => cfg
  end.

(** [Object.entries(mcp)] on an object or array; the order of an
    object's entries is that of the map, not of insertion. *)
Definition value_entries (mcp : value) : option (list (string * value)) :=
  match mcp with
  | VObj m => Some (map_to_list m)
  | VArr l => Some (imap (λ i v, (index_key i, v)) l)
  | _ => None
  end.

(** [extractMCPServers]: the entries of [cfg.mcpServers] that are objects
    or arrays. *)
Definition extractMCPServers (cfg : value) : list (string * value) :=
  match cfg with
  | VObj m =>
      match m !! "mcpServers" with
      | Some mcp =>
          match value_entries mcp with
          | Some es =>
              List.filter
                (λ e, match e.2 with VObj _ | VArr _ => true | _ => false end) es
          | None => []
          end
      | None => []
      end
  | _ => []
  end.

Definition truthy (o : option string) : bool :=
  match o with
  | Some s => negb (String.eqb s "")
  | None => false
  end.

Definition is_blank (raw : string) : bool :=
  String.length (Configure.trim raw) =? 0.

(** The servers of a Codex configuration: the inner [try] around
    [TOML.parse] and the mapping; its [catch] is empty, so a failure
    leaves [servers] at its initial [[]]. *)
Definition codex_servers (rd : Reader) (raw : string) : list RedactedServerEntry :=
  if is_blank raw then []
  else
    match TOML_parse rd raw with
    | None => []
    | Some parsed =>
        match parsed with
        | VObj m =>
            match m !! "mcp_servers" with
            | Some mcp =>
                match value_entries mcp with
                | Some es =>
                    match mapM (λ e, (λ c, {| id := e.1; config := c |})
                                       <$> redact_config e.2) es with
                    | Some servers => servers
                    | None => []
                    end
                | None => []
                end
            | None => []
            end
        | _ => []
        end
    end.

(** The body of [detections.map(async (det) => ...)] for one detection. *)
Definition providerStatus (rd : Reader) (det : ProviderDetectionResult)
  : ProviderStatus :=
  if negb (detected det) then
    {| name := provider_name det; status_detected := false;
       status_configPath := None;
       error := if truthy (detection_error det) then detection_error det else None;
       servers := None |}
  else
    match configPath det with
    | None =>
        {| name := provider_name det; status_detected := true;
           status_configPath := None; error := None; servers := None |}
    | Some path =>
        if String.eqb path "" then
          {| name := provider_name det; status_detected := true;
             status_configPath := None; error := None; servers := None |}
        else if String.eqb (provider_name det) "Codex CLI" then
          match readFile rd path with
          | inl e =>
              {| name := provider_name det; status_detected := true;
                 status_configPath := Some path; error := Some e; servers := None |}
          | inr raw =>
              {| name := provider_name det; status_detected := true;
                 status_configPath := Some path; error := None;
                 servers := Some (codex_servers rd raw) |}
          end
        else
          match readJsonFile rd path with
          | inl e =>
              {| name := provider_name det; status_detected := true;
                 status_configPath := Some path; error := Some e; servers := None |}
          | inr config =>
              {| name := provider_name det; status_detected := true;
                 status_configPath := Some path; error := None;
                 servers :=
                   Some (map (λ e, {| id := e.1; config := redact_object e.2 |})
                             (extractMCPServers config)) |}
          end
    end.

(** [buildProviderStatuses]: [Promise.all] over the per-detection reads,
    which share nothing; the results come in the order of the
    detections. *)
Definition buildProviderStatuses (rd : Reader) (detections : list ProviderDetectionResult)
  : list ProviderStatus :=
  map (providerStatus rd) detections.

(** A reader for examples: one Codex file that is not TOML and one JSON
    file that parses. *)
Definition demo_reader : Reader :=
  {| readFile := λ p, if String.eqb p "/home/u/.codex/config.toml"
                      then inr "[[[ not toml" else inl "ENOENT";
     TOML_parse := λ _, None;
     readJsonFile := λ p, if String.eqb p "/home/u/.cursor/mcp.json"
                          then inr (VObj {[ "mcpServers" := VObj ∅ ]})
                          else inl "Unexpected token" |}.

Definition codex_detection : ProviderDetectionResult :=
  {| provider_name := "Codex CLI"; detected := true;
     configPath := Some "/home/u/.codex/config.toml"; detection_error := None |}.

Definition cursor_detection : ProviderDetectionResult :=
  {| provider_name := "Cursor"; detected := true;
     configPath := Some "/home/u/.cursor/mcp.json"; detection_error := None |}.

Definition gemini_detection : ProviderDetectionResult :=
  {| provider_name := "Gemini CLI"; detected := true;
     configPath := Some "/home/u/.gemini/settings.json"; detection_error := None |}.

End StatusCommand.

(** ** A JSON codec for the examples

    The parsing libraries are outside this development; the transaction
    below takes them as a parameter. For the examples, a printer in the
    manner of [JSON.stringify(value, null, 2)] and a parser for the JSON
    texts with integer numbers and without [\u] escapes. An object here
    carries no order of its keys, so the printer writes them in the order
    of the map. *)

Module Json.
Import Chars.

(** The double quote, the backslash and the line feed. *)
Definition dq : ascii := ascii_of_nat 34.
Definition bs : ascii := ascii_of_nat 92.
Definition lf : ascii := ascii_of_nat 10.

Definition DQ : string := String dq "".
Definition NL : string := String lf "".

Fixpoint spaces (n : nat) : string :=
  match n with
  | O => ""
  | S n' => String " " (spaces n')
  end.

(** The escapes of a string literal: the code and the letter after the
    backslash. *)
Definition escapes : list (ascii * ascii) :=
  [ (dq, dq); (bs, bs); (ascii_of_nat 8, "b"%char); (ascii_of_nat 12, "f"%char);
    (lf, "n"%char); (ascii_of_nat 13, "r"%char); (ascii_of_nat 9, "t"%char) ].

Fixpoint quote_chars (s : string) : string :=
  match s with
  | EmptyString => ""
  | String c s' =>
      match List.find (λ e, Ascii.eqb e.1 c) escapes with
      | Some e => String bs (String e.2 (quote_chars s'))
      | None => String c (quote_chars s')
      end
  end.

Definition quote (s : string) : string := DQ ++ quote_chars s ++ DQ.

Definition number (n : Z) : string := NilZero.string_of_int (Z.to_int n).

(** The lines of a non-empty array or object between its brackets. *)
Definition block (indent : nat) (open close : string) (items : list string) : string :=
  match items with
  | [] => open ++ close
  | _ =>
      open ++ NL ++ String.concat ("," ++ NL) (map (String.append (spaces (indent + 2))) items)
      ++ NL ++ spaces indent ++ close
  end.

(** [JSON.stringify(v, null, 2)] at a depth: [None] for [undefined],
    which an object leaves out and an array writes as [null]. *)
Fixpoint stringify (indent : nat) (v : value) : option string :=
  match v with
  | VUndefined => None
  | VNull => Some "null"
  | VBool true => Some "true"
  | VBool false => Some "false"
  | VNum n => Some (number n)
  | VStr s => Some (quote s)
  | VArr l =>
      Some (block indent "[" "]"
              (map (λ x, default "null" (stringify (indent + 2) x)) l))
  | VObj m =>
      Some (block indent "{" "}"
              (omap (λ kv : string * option string,
                       (λ s, quote kv.1 ++ ": " ++ s) <$> kv.2)
                 (map_to_list (stringify (indent + 2) <$> m))))
  end.

Definition is_ws (c : ascii) : bool :=
  let n := code c in ((n =? 32) || (n =? 9) || (n =? 10) || (n =? 13))%nat.

Definition is_digit (c : ascii) : bool := ((48 <=? code c) && (code c <=? 57))%nat.

Fixpoint skip_ws (s : list ascii) : list ascii :=
  match s with
  | c :: s' => if is_ws c then skip_ws s' else s
  | [] => []
  end.

(** The characters of a string literal after its opening quote, and the
    text after its closing quote. *)
Fixpoint string_body (s : list ascii) : option (string * list ascii) :=
  match s with
  | [] => None
  | c :: s' =>
      if Ascii.eqb c dq then Some ("", s')
      else if Ascii.eqb c bs then
        match s' with
        | e :: s'' =>
            match List.find (λ p, Ascii.eqb p.2 e) (("/"%char, "/"%char) :: escapes) with
            | Some p =>
                match string_body s'' with
                | Some (t, r) => Some (String p.1 t, r)
                | None => None
                end
            | None => None
            end
        | [] => None
        end
      else
        match string_body s' with
        | Some (t, r) => Some (String c t, r)
        | None => None
        end
  end.

Fixpoint digits (acc : Z) (s : list ascii) : Z * list ascii :=
  match s with
  | c :: s' =>
      if is_digit c then digits (10 * acc + Z.of_nat (code c - 48))%Z s' else (acc, s)
  | [] => (acc, [])
  end.

(** A literal word at the head of the text. *)
Fixpoint word (w : list ascii) (s : list ascii) : option (list ascii) :=
  match w, s with
  | [], _ => Some s
  | p :: w', c :: s' => if Ascii.eqb p c then word w' s' else None
  | _ :: _, [] => None
  end.

(** A value at the head of the text, white space before it skipped; the
    elements of an array after its first; the members of an object. *)
Fixpoint parse_value (fuel : nat) (s : list ascii) : option (value * list ascii) :=
  match fuel with
  | O => None
  | S fuel' =>
      match skip_ws s with
      | [] => None
      | c :: s' =>
          if Ascii.eqb c dq then
            match string_body s' with
            | Some (t, r) => Some (VStr t, r)
            | None => None
            end
          else if Ascii.eqb c "{" then
            match skip_ws s' with
            | "}"%char :: r => Some (VObj ∅, r)
            | _ =>
                match parse_members fuel' s' with
                | Some (m, r) => Some (VObj m, r)
                | None => None
                end
            end
          else if Ascii.eqb c "[" then
            match skip_ws s' with
            | "]"%char :: r => Some (VArr [], r)
            | _ =>
                match parse_elements fuel' s' with
                | Some (l, r) => Some (VArr l, r)
                | None => None
                end
            end
          else if Ascii.eqb c "-" then
            match s' with
            | d :: _ =>
                if is_digit d then
                  let '(n, r) := digits 0 s' in Some (VNum (- n), r)
                else None
            | [] => None
            end
          else if is_digit c then
            let '(n, r) := digits 0 (c :: s') in Some (VNum n, r)
          else
            match word (list_ascii_of_string "true") (c :: s') with
            | Some r => Some (VBool true, r)
            | None =>
                match word (list_ascii_of_string "false") (c :: s') with
                | Some r => Some (VBool false, r)
                | None =>
                    match word (list_ascii_of_string "null") (c :: s') with
                    | Some r => Some (VNull, r)
                    | None => None
                    end
                end
            end
      end
  end
with parse_elements (fuel : nat) (s : list ascii) : option (list value * list ascii) :=
  match fuel with
  | O => None
  | S fuel' =>
      match parse_value fuel' s with
      | Some (v, r) =>
          match skip_ws r with
          | ","%char :: r' =>
              match parse_elements fuel' r' with
              | Some (l, r'') => Some (v :: l, r'')
              | None => None
              end
          | "]"%char :: r' => Some ([v], r')
          | _ => None
          end
      | None => None
      end
  end
with parse_members (fuel : nat) (s : list ascii)
  : option (gmap string value * list ascii) :=
  match fuel with
  | O => None
  | S fuel' =>
      match skip_ws s with
      | c :: s' =>
          if Ascii.eqb c dq then
            match string_body s' with
            | Some (k, r) =>
                match skip_ws r with
                | ":"%char :: r' =>
                    match parse_value fuel' r' with
                    | Some (v, r'') =>
                        match skip_ws r'' with
                        | ","%char :: r3 =>
                            match parse_members fuel' r3 with
                            | Some (m, r4) => Some (<[k := v]> m, r4)
                            | None => None
                            end
                        | "}"%char :: r3 => Some ({[ k := v ]}, r3)
                        | _ => None
                        end
                    | None => None
                    end
                | _ => None
                end
            | None => None
            end
          else None
      | [] => None
      end
  end.

(** [JSON.parse]: one value and nothing but white space after it. *)
Definition parse_text (s : string) : option value :=
  match parse_value (S (String.length s)) (list_ascii_of_string s) with
  | Some (v, r) =>
      match skip_ws r with
      | [] => Some v
      | _ => None
      end
  | None => None
  end.

End Json.

(** ** The configuration transaction

    [ConfigureCommand.configureAgents] hands the apply step to
    [defaultRegistry.configureAllDetectedAgents] of the agent registry
    ([src/agents]), whose source is not part of this development. The
    store and the coordinator below follow sections 4.3, 4.4 and 7 of
    the specification; [configureAgents] follows the source. *)

Module Transaction.
Import Render.

Inductive Format := json | toml.

(** [AgentDescriptor] *)
Record AgentDescriptor := {
  agent_name : string;
  configPath : string;
  format : Format;
  serverMapKey : string
}.

(** The parsing libraries, which the specification leaves outside: the
    value that the bytes of a file parse to in a format, if they parse,
    and the bytes that a document is serialized to, if it can be. *)
Record Codec := {
  parse : Format → string → option value;
  serialize : Format → gmap string value → option string
}.

(** The operations on files. *)
Inductive Op := Read | Write | Remove | Copy.

(** What the environment does to them: [fails n op path] tells whether
    [op] on [path] fails (permission denied, disk full) when [n] changes
    have been made to the files so far. *)
Definition Faults := nat → Op → string → bool.

(** The bytes of the files under their paths, the number of changes made
    so far, and the backup copies, newest first. The backup copies have
    names of their own, which are the path of no configuration file, and
    are kept apart. *)
Record FileSystem := {
  files : gmap string string;
  ticks : nat;
  backups : list (string * string)
}.

Inductive TxError :=
| IOError (path : string)
| ParseError (path : string)
| ShapeError (path : string)
| SerializeError (path : string)
| RollbackError (path : string).

Definition ConfigDocument := gmap string value.

Section store.
Context (cd : Codec) (fails : Faults).

(** Modelled from the spec: [load] of the ConfigStore, which is not in the
    sources: a missing file gives the empty document; a file that cannot
    be read, does not parse in the format, or whose top level is not a
    mapping is an error. *)
Definition load (path : string) (fmt : Format) (fs : FileSystem)
  : TxError + ConfigDocument :=
  match files fs !! path with
  | None => inr ∅
  | Some bytes =>
      if fails (ticks fs) Read path then inl (IOError path)
      else
        match parse cd fmt bytes with
        | Some (VObj document) => inr document
        | Some _ => inl (ShapeError path)
        | None => inl (ParseError path)
        end
  end.

(** Modelled from the spec: [merge] of the ConfigStore, which is not in the
    sources: ensure [document[serverMapKey]] is a map and set the entry
    for [serverId], leaving every other key alone. *)
Definition merge (path : string) (document : ConfigDocument)
    (serverMapKey serverId : string) (renderedEntry : value)
  : TxError + ConfigDocument :=
  match document !! serverMapKey with
  | None => inr (<[serverMapKey := VObj {[ serverId := renderedEntry ]}]> document)
  | Some (VObj servers) =>
      inr (<[serverMapKey := VObj (<[serverId := renderedEntry]> servers)]> document)
  | Some _ => inl (ShapeError path)
  end.

Definition write (path bytes : string) (fs : FileSystem) : FileSystem :=
  {| files := <[path := bytes]> (files fs); ticks := S (ticks fs);
     backups := backups fs |}.

(** Modelled from the spec: [save] of the ConfigStore, which is not in the
    sources: serialize, then write; the write is atomic, so it fails
    without a trace or replaces the file. *)
Definition save (path : string) (fmt : Format) (document : ConfigDocument)
    (fs : FileSystem) : TxError + FileSystem :=
  match serialize cd fmt document with
  | None => inl (SerializeError path)
  | Some bytes =>
      if fails (ticks fs) Write path then inl (IOError path)
      else inr (write path bytes fs)
  end.

Definition remove (path : string) (fs : FileSystem) : TxError + FileSystem :=
  if fails (ticks fs) Remove path then inl (IOError path)
  else inr {| files := delete path (files fs); ticks := S (ticks fs);
              backups := backups fs |}.

(** Modelled from the spec: [backup] of the ConfigStore, which is not in
    the sources: with the policy on and the file present, copy its bytes
    under a fresh name; otherwise do nothing. *)
Definition backup (enabled : bool) (path : string) (fs : FileSystem)
  : TxError + option string * FileSystem :=
  match enabled, files fs !! path with
  | true, Some bytes =>
      if fails (ticks fs) Copy path then inl (IOError path)
      else
        let backupPath := path ++ ".bak." ++ Chars.index_key (length (backups fs)) in
        inr (Some backupPath,
             {| files := files fs; ticks := S (ticks fs);
                backups := (backupPath, bytes) :: backups fs |})
  | _, _ => inr (None, fs)
  end.

(** [TransactionRecord]. [previousDocument] is the captured copy of the
    document loaded before the merge, absent when the file did not
    exist. *)
Record TransactionRecord := {
  agent : AgentDescriptor;
  backupPath : option string;
  previousDocument : option ConfigDocument;
  applied : bool;
  error : option TxError
}.

(** The document to capture: the one loaded, if a file was there. *)
Definition capture (path : string) (document : ConfigDocument) (fs : FileSystem)
  : option ConfigDocument :=
  match files fs !! path with
  | Some _ => Some document
  | None => None
  end.

(** The entry for one agent, from the renderer. *)
Definition renderedEntry (spec : RenderInput) (a : AgentDescriptor) : value :=
  VObj (renderServer
          {| Render.agent := agent_name a; serverId := serverId spec;
             transport := transport spec; url := url spec;
             headers := headers spec; command := command spec;
             args := args spec; cwd := cwd spec; env := env spec;
             timeout := timeout spec |}).

(** Modelled from the spec: one step of the apply phase, which is not in
    the sources: backup, load, merge, save. *)
Definition applyOne (backupOn : bool) (spec : RenderInput) (a : AgentDescriptor)
    (fs : FileSystem) : FileSystem * TransactionRecord :=
  let failed fs' bp previous e :=
    (fs', {| agent := a; backupPath := bp; previousDocument := previous;
             applied := false; error := Some e |}) in
  match backup backupOn (configPath a) fs with
  | inl e => failed fs None None e
  | inr (bp, fs1) =>
      match load (configPath a) (format a) fs1 with
      | inl e => failed fs1 bp None e
      | inr document =>
          let previous := capture (configPath a) document fs1 in
          match merge (configPath a) document (serverMapKey a) (serverId spec)
                      (renderedEntry spec a) with
          | inl e => failed fs1 bp previous e
          | inr document' =>
              match save (configPath a) (format a) document' fs1 with
              | inl e => failed fs1 bp previous e
              | inr fs2 =>
                  (fs2, {| agent := a; backupPath := bp; previousDocument := previous;
                           applied := true; error := None |})
              end
          end
      end
  end.

(** Modelled from the spec: the apply phase, which is not in the sources:
    agents in the given order, stopping at the first failure. The records
    come newest first; the failed record, if any, apart. *)
Fixpoint applyAll (backupOn : bool) (spec : RenderInput) (agents : list AgentDescriptor)
    (done : list TransactionRecord) (fs : FileSystem)
  : FileSystem * list TransactionRecord * option TransactionRecord :=
  match agents with
  | [] => (fs, done, None)
  | a :: rest =>
      let '(fs', r) := applyOne backupOn spec a fs in
      if applied r then applyAll backupOn spec rest (r :: done) fs'
      else (fs', done, Some r)
  end.

(** Modelled from the spec: restoring one applied record, which is not in
    the sources: write back the captured document, or delete the file if
    it did not exist; a failure here is a [RollbackError]. *)
Definition restore (r : TransactionRecord) (fs : FileSystem) : TxError + FileSystem :=
  let path := configPath (agent r) in
  match previousDocument r with
  | Some document =>
      match save path (format (agent r)) document fs with
      | inl _ => inl (RollbackError path)
      | inr fs' => inr fs'
      end
  | None =>
      match remove path fs with
      | inl _ => inl (RollbackError path)
      | inr fs' => inr fs'
      end
  end.

Definition revert (r : TransactionRecord) : TransactionRecord :=
  {| agent := agent r; backupPath := backupPath r;
     previousDocument := previousDocument r; applied := false; error := error r |}.

(** Modelled from the spec: the rollback, which is not in the sources:
    the applied records in reverse order of commit, each marked reverted;
    a restore that fails stops it. *)
Fixpoint rollback (done : list TransactionRecord) (fs : FileSystem)
  : FileSystem * list TransactionRecord * option TxError :=
  match done with
  | [] => (fs, [], None)
  | r :: older =>
      match restore r fs with
      | inl e => (fs, r :: older, Some e)
      | inr fs' =>
          let '(fs'', reverted, e) := rollback older fs' in
          (fs'', revert r :: reverted, e)
      end
  end.

(** The per-agent result that the configure command reads. *)
Record ConfigurationResult := {
  provider : AgentDescriptor;
  success : bool;
  result_error : option TxError;
  result_backupPath : option string
}.

Definition result_of (r : TransactionRecord) : ConfigurationResult :=
  {| provider := agent r; success := applied r; result_error := error r;
     result_backupPath := backupPath r |}.

(** Modelled from the spec: [configureAllDetectedAgents], which is not in
    the sources: apply; on a failure, when asked to, roll back. The
    results are in the order of the agents reached. A rollback that
    fails is not a result: it is thrown, as a [RollbackError]. *)
Definition configureAllDetectedAgents (spec : RenderInput)
    (providers : list AgentDescriptor) (rollbackOnFailure backupOn : bool)
    (fs : FileSystem) : (TxError + list ConfigurationResult) * FileSystem :=
  match applyAll backupOn spec providers [] fs with
  | (fs', done, None) => (inr (rev (map result_of done)), fs')
  | (fs', done, Some failed) =>
      if rollbackOnFailure then
        match rollback done fs' with
        | (fs'', reverted, None) =>
            (inr (rev (map result_of reverted) ++ [result_of failed])%list, fs'')
        | (fs'', _, Some e) => (inl e, fs'')
        end
      else (inr (rev (map result_of done) ++ [result_of failed])%list, fs')
  end.

(** [ConfigureCommand.configureAgents], from the source: the call with
    [true] for rollback on any failure and the command's backup option,
    then the error thrown when a result failed. What the call itself
    throws goes through, and no results are read then. *)
Definition configureAgents (backupOption : bool) (agentConfig : RenderInput)
    (selectedProviders : list AgentDescriptor) (fs : FileSystem)
  : (option TxError + unit) * list ConfigurationResult * FileSystem :=
  match configureAllDetectedAgents agentConfig selectedProviders true backupOption fs with
  | (inl e, fs') => (inl (Some e), [], fs')
  | (inr configResults, fs') =>
      match List.find (λ r, negb (success r)) configResults with
      | Some r => (inl (result_error r), configResults, fs')
      | None => (inr tt, configResults, fs')
      end
  end.

(** The error of a failed apply step is not a [RollbackError]. *)
Definition apply_error (e : option TxError) : Prop :=
  ∀ path, e ≠ Some (RollbackError path).

(** Some agent's apply step fails in a run from [fs]. *)
Definition apply_fails (backupOn : bool) (spec : RenderInput)
    (providers : list AgentDescriptor) (fs : FileSystem) : Prop :=
  (applyAll backupOn spec providers [] fs).2 ≠ None.

(** What restoring the record writes: the serialization of the captured
    document, or nothing for a file that was not there. *)
Definition restore_value (r : TransactionRecord) : option string :=
  match previousDocument r with
  | Some document => serialize cd (format (agent r)) document
  | None => None
  end.

(** The oldest record for [path] among [done], which come newest first:
    the one that a complete rollback restores last. *)
Fixpoint oldest (path : string) (done : list TransactionRecord)
  : option TransactionRecord :=
  match done with
  | [] => None
  | r :: older =>
      match oldest path older with
      | Some r' => Some r'
      | None => if String.eqb (configPath (agent r)) path then Some r else None
      end
  end.

(** What the record captured of a file that was [before]: nothing for no
    file, and for a file the document that its bytes parse to in the
    format of the agent. *)
Definition captured (r : TransactionRecord) (before : option string) : Prop :=
  match before with
  | None => previousDocument r = None
  | Some bytes =>
      ∃ document, previousDocument r = Some document ∧
                  parse cd (format (agent r)) bytes = Some (VObj document)
  end.

(** [now] is what restoring leaves of a file that was [before]: no file
    for no file, and for a file its document, parsed in the format of
    agent [a] and serialized again. *)
Definition restored (a : AgentDescriptor) (before now : option string) : Prop :=
  match before with
  | None => now = None
  | Some bytes =>
      ∃ document bytes',
        parse cd (format a) bytes = Some (VObj document) ∧
        serialize cd (format a) document = Some bytes' ∧ now = Some bytes'
  end.

(** The apply phase so far, from the files [m0] to the files [m]: a path
    without a record holds what it held, and the oldest record for a
    path has captured what the path held. *)
Definition revertible (done : list TransactionRecord) (m0 m : gmap string string)
  : Prop :=
  ∀ path,
    match oldest path done with
    | None => m !! path = m0 !! path
    | Some r => r ∈ done ∧ configPath (agent r) = path ∧ captured r (m0 !! path)
    end.

End store.

(** The codec of the examples: both formats are written as JSON. *)
Definition demo_codec : Codec :=
  {| parse := λ _, Json.parse_text;
     serialize := λ _ document, Json.stringify 0 (VObj document) |}.

(** The scenario of the specification: three JSON agents with unrelated
    content in their files, the third file read-only. *)
Definition demo_spec : RenderInput :=
  {| Render.agent := ""; serverId := "demo"; transport := http;
     url := Some "https://example.com/mcp";
     headers := Some {[ "Authorization" := "Bearer abcd1234efgh" ]};
     command := None; args := None; cwd := None; env := None; timeout := None |}.

Definition demo_agents : list AgentDescriptor :=
  [ {| agent_name := "cursor"; configPath := "/x.json"; format := json;
       serverMapKey := "mcpServers" |};
    {| agent_name := "gemini"; configPath := "/y.json"; format := json;
       serverMapKey := "mcpServers" |};
    {| agent_name := "claude"; configPath := "/z.json"; format := json;
       serverMapKey := "mcpServers" |} ].

Definition x_json : string :=
  "{" ++ Json.NL ++ "  " ++ Json.DQ ++ "theme" ++ Json.DQ ++ ": "
  ++ Json.DQ ++ "dark" ++ Json.DQ ++ Json.NL ++ "}".

(** The same document on one line. *)
Definition x_json_compact : string :=
  "{" ++ Json.DQ ++ "theme" ++ Json.DQ ++ ":" ++ Json.DQ ++ "dark" ++ Json.DQ ++ "}".

Definition z_json : string :=
  "{" ++ Json.NL ++ "  " ++ Json.DQ ++ "telemetry" ++ Json.DQ ++ ": false"
  ++ Json.NL ++ "}".

Definition demo_fs : FileSystem :=
  {| files := <[ "/x.json" := x_json ]> (<[ "/z.json" := z_json ]> ∅);
     ticks := 0;
     backups := [] |}.

Definition compact_fs : FileSystem :=
  {| files := <[ "/x.json" := x_json_compact ]> (<[ "/z.json" := z_json ]> ∅);
     ticks := 0;
     backups := [] |}.

(** The third file cannot be written. *)
Definition read_only_z : Faults :=
  λ _ op path,
    match op with
    | Write | Remove => String.eqb path "/z.json"
    | _ => false
    end.

(** The disk is full once two changes have been made. *)
Definition disk_full : Faults :=
  λ n op _,
    match op with
    | Read => false
    | _ => 2 <=? n
    end.

End Transaction.

(** ** Vocabulary for the properties of [redactString] *)

Module LineSpec.
Import Chars Regex Proxy.
#[local] Open Scope list_scope.

Definition all_ascii : list ascii := ascii_of_nat <$> seq 0 256.

(** Separators: white space and the colon. *)
Definition sep (c : ascii) : bool := is_space c || Ascii.eqb c ":".

Definition nonsep (c : ascii) : bool := negb (sep c).

(** Two words are equal, case ignored. *)
Fixpoint ci_eqb (w t : text) : bool :=
  match w, t with
  | [], [] => true
  | p :: w', c :: t' => eq_ci p c && ci_eqb w' t'
  | _, _ => false
  end.

(** The input is empty or starts with a character of the class. *)
Definition starts (cls : ascii → bool) (s : text) : bool :=
  match s with
  | [] => true
  | c :: _ => cls c
  end.

(** A continuation that fails on an input starting with a non-separator. *)
Definition needs_sep {R} (K : text → option R) : Prop :=
  ∀ c r, sep c = false → K (c :: r) = None.

(** A sound pattern: on success the input is group 1, group 2 and the
    rest; neither group is empty and group 2 stays on one line. *)
Definition sound (re : text → option groups) : Prop :=
  ∀ s s1 s2, re s = Some (s1, s2) →
    ∃ g1 g2, s = g1 ++ s1 ∧ s1 = g2 ++ s2 ∧ g1 ≠ [] ∧ g2 ≠ [] ∧
             forallb dot g2 = true.

(** [w] is the end of [t], case ignored. *)
Definition is_suffix_ci (w t : text) : bool :=
  (length w <=? length t) && ci_eqb w (drop (length t - length w) t).

(** The literal [w] cannot match at the head of [a ++ q], whatever [q]
    is, when what follows the literal must start with a separator: a
    character of [a] differs, or the literal ends before a non-separator
    of [a]. *)
Fixpoint lit_blocked (w a : text) : bool :=
  match w, a with
  | [], c :: _ => nonsep c
  | [], [] => false
  | p :: w', c :: a' => if eq_ci p c then lit_blocked w' a' else true
  | _ :: _, [] => false
  end.

(** No suffix of [v] lets the literal [w] match. *)
Definition stable_under (w v : text) : bool :=
  forallb (λ i, lit_blocked w (drop i v)) (seq 0 (length v)).

(** The value of a header line: not empty, not starting with white space,
    on one line. *)
Definition good (v : text) : Prop :=
  v ≠ [] ∧ starts (λ c, negb (is_space c)) v = true ∧ forallb dot v = true.

(** The passes of [redactString] after the bearer pass: pattern key and
    placeholder. *)
Definition header_passes : list (string * string) :=
  ("Authorization", "<redacted:authorization>")
  :: map (λ k, (k, "<redacted:" ++ k ++ ">")%string) SENSITIVE_HEADER_KEYS.

Definition placeholders : list string := snd <$> header_passes.

(** The placeholder the passes leave as the value of a header named
    [name]: that of the last pass whose key ends the name. *)
Definition last_hit (name : text) (passes : list (string * string))
    (st : option string) : option string :=
  fold_left
    (λ st '(key, ph),
       if is_suffix_ci (list_ascii_of_string key) name then Some ph else st)
    passes st.

(** What the proofs need of a pass: a key of non-separators, a
    placeholder that is a good value, known, and left alone by the
    patterns ([checks] collects these as a boolean). *)
Definition pass_check (pass : string * string) : bool :=
  let w := list_ascii_of_string pass.1 in
  let ph := list_ascii_of_string pass.2 in
  negb (length w =? 0) && forallb nonsep w &&
  negb (length ph =? 0) && starts (λ c, negb (is_space c)) ph && forallb dot ph &&
  bool_decide (pass.2 ∈ placeholders) &&
  forallb (λ ph', stable_under w (list_ascii_of_string ph')) placeholders.

(** What follows the key in the header pattern, and the flag in the
    bearer pattern. *)
Definition header_tail : text → option groups :=
  star_greedy is_space
    (lit_ci (list_ascii_of_string ":")
       (star_greedy is_space
          (λ s1, plus_lazy dot
                   (λ s2, if at_line_end s2 then Some (s1, s2) else None) s1))).

Definition bearer_tail : text → option groups :=
  plus_greedy is_space (λ s1, plus_greedy token_char (λ s2, Some (s1, s2)) s1).

(** The literal words the patterns of [redactString] start with. *)
Definition literals : list text :=
  list_ascii_of_string "--oauth2Bearer"
  :: map (λ pass, list_ascii_of_string pass.1) header_passes.

(** A text that no pattern of [redactString] can match in, whatever
    follows it: wherever one of the literal words occurs in it, a
    non-separator follows, and no word is left unfinished at its end. *)
Definition inert (pre : text) : bool :=
  forallb (λ w, stable_under w pre) literals.

Section line.
Context (name ws1 ws2 : text).

(** A header line: name, white space, colon, white space, value [v], and
    the text [p] after the line. *)
Definition shape (v p : text) : text :=
  name ++ ws1 ++ list_ascii_of_string ":" ++ ws2 ++ v ++ p.

(** The state of the value between two passes: any good value, or exactly
    the placeholder [st]; [p] is what followed the line at the start. *)
Definition inv (p : text) (st : option string) (s : text) : Prop :=
  ∃ v p', s = shape v p' ∧ good v ∧ hd_error p' = hd_error p ∧
          match st with
          | Some ph => ph ∈ placeholders ∧ v = list_ascii_of_string ph
          | None => True
          end.

End line.

(** The line feed. *)
Definition LF : string := String (ascii_of_nat 10) "".

End LineSpec.

(** ** Strings of several lines *)

Module Document.
Import Chars Regex Proxy LineSpec.
#[local] Open Scope list_scope.

(** The literal [w] cannot match at the head of [a] when [a] is followed
    by nothing or by a separator: a character of [a] differs, the literal
    ends before a non-separator of [a], or it is unfinished at the end of
    [a]. *)
Fixpoint lit_closed (w a : text) : bool :=
  match w, a with
  | [], c :: _ => nonsep c
  | [], [] => false
  | p :: w', c :: a' => if eq_ci p c then lit_closed w' a' else true
  | _ :: _, [] => true
  end.

Definition closed_under (w v : text) : bool :=
  forallb (λ i, lit_closed w (drop i v)) (seq 0 (length v)).

(** A text that no pattern of [redactString] can match in when nothing or
    a separator follows it: wherever one of the literal words occurs in
    it, a non-separator follows. *)
Definition quiet (v : text) : bool :=
  forallb (λ w, closed_under w v) literals.

(** A string cut into pieces: stretches of plain text, header lines made
    of a name, white space, a colon, white space and a value, and bearer
    flags followed by white space and a token. *)
Inductive piece :=
| Plain (t : string)
| HeaderLine (name ws1 ws2 value : string)
| BearerFlag (flag ws token : string).

Definition piece_string (p : piece) : string :=
  match p with
  | Plain t => t
  | HeaderLine name ws1 ws2 value => (name ++ ws1 ++ ":" ++ ws2 ++ value)%string
  | BearerFlag flag ws token => (flag ++ ws ++ token)%string
  end.

(** The string that the pieces make up. *)
Fixpoint doc_string (d : list piece) : string :=
  match d with
  | [] => ""
  | p :: d' => (piece_string p ++ doc_string d')%string
  end.

(** The pieces with the value of every header line replaced by the
    placeholder of its name, and the token of every bearer flag by the
    bearer placeholder. *)
Definition redacted_piece (p : piece) : piece :=
  match p with
  | Plain t => Plain t
  | HeaderLine name ws1 ws2 _ =>
      HeaderLine name ws1 ws2 ("<redacted:" ++ toLowerCase name ++ ">")%string
  | BearerFlag flag ws _ => BearerFlag flag ws "<redacted:bearer>"
  end.

(** A header line: the name is a sensitive header name in any case, the
    value is not empty, does not start with white space, stays on one
    line and is quiet. *)
Definition header_ok (name ws1 ws2 value : string) : bool :=
  existsb (String.eqb (toLowerCase name)) SENSITIVE_HEADER_KEYS
  && all_chars is_space ws1 && all_chars is_space ws2
  && negb (String.eqb value "")
  && starts (λ c, negb (is_space c)) (chars value)
  && all_chars dot value && quiet (chars value).

(** A bearer flag: the flag in any case, white space, and a token made
    of token characters; neither is empty. *)
Definition flag_ok (flag ws token : string) : bool :=
  is_bearer_flag flag
  && negb (String.eqb ws "") && all_chars is_space ws
  && negb (String.eqb token "") && all_chars token_char token.

(** The pieces this development speaks about: a header line is followed
    by the end of the string or a line break; a bearer flag with its
    token by the end of the string or a character that is not a token
    character; a stretch of plain text is inert, or quiet and followed
    by the end of the string or a separator. *)
Fixpoint well_formed (d : list piece) : bool :=
  match d with
  | [] => true
  | Plain t :: d' =>
      (inert (chars t) || quiet (chars t) && starts sep (chars (doc_string d')))
      && well_formed d'
  | HeaderLine name ws1 ws2 value :: d' =>
      header_ok name ws1 ws2 value && line_break_or_end (doc_string d')
      && well_formed d'
  | BearerFlag flag ws token :: d' =>
      flag_ok flag ws token
      && starts (λ c, negb (token_char c)) (chars (doc_string d'))
      && well_formed d'
  end.

(** The characters of the string that the pieces make up. *)
Fixpoint doc_text (d : list piece) : text :=
  match d with
  | [] => []
  | Plain t :: d' => chars t ++ doc_text d'
  | HeaderLine name ws1 ws2 value :: d' =>
      shape (chars name) (chars ws1) (chars ws2) (chars value) (doc_text d')
  | BearerFlag flag ws token :: d' =>
      chars flag ++ chars ws ++ chars token ++ doc_text d'
  end.

(** The bearer pass over a piece: the token of a bearer flag becomes the
    placeholder. *)
Definition bearer_piece (p : piece) : piece :=
  match p with
  | BearerFlag flag ws _ => BearerFlag flag ws "<redacted:bearer>"
  | _ => p
  end.

(** One header pass over a piece: the value of a header line whose name
    ends with the key of the pass becomes the placeholder. *)
Definition pass_piece (w : text) (ph : string) (p : piece) : piece :=
  match p with
  | HeaderLine name ws1 ws2 value =>
      HeaderLine name ws1 ws2 (if is_suffix_ci w (chars name) then ph else value)
  | _ => p
  end.

(** The state of a header line between two passes. *)
Definition line_inv (name ws1 ws2 value : string) : Prop :=
  forallb nonsep (chars name) = true ∧
  is_suffix_ci (chars "--oauth2Bearer") (chars name) = false ∧
  forallb is_space (chars ws1) = true ∧ forallb is_space (chars ws2) = true ∧
  good (chars value) ∧ (quiet (chars value) = true ∨ value ∈ placeholders).

(** The flag and the white space of a bearer flag. *)
Definition flag_inv (flag ws : string) : Prop :=
  to_upper <$> chars flag = to_upper <$> chars "--oauth2Bearer" ∧
  chars ws ≠ [] ∧ forallb is_space (chars ws) = true.

(** The state of the pieces between two passes, before the bearer pass
    and after it ([bearer_done]). *)
Fixpoint doc_inv (bearer_done : bool) (d : list piece) : Prop :=
  match d with
  | [] => True
  | Plain t :: d' =>
      (inert (chars t) = true
       ∨ quiet (chars t) = true ∧ starts sep (doc_text d') = true)
      ∧ doc_inv bearer_done d'
  | HeaderLine name ws1 ws2 value :: d' =>
      line_inv name ws1 ws2 value ∧ at_line_end (doc_text d') = true
      ∧ doc_inv bearer_done d'
  | BearerFlag flag ws token :: d' =>
      flag_inv flag ws
      ∧ (if bearer_done then token = "<redacted:bearer>"%string
         else chars token ≠ [] ∧ forallb token_char (chars token) = true
              ∧ starts (λ c, negb (token_char c)) (doc_text d') = true)
      ∧ doc_inv bearer_done d'
  end.

(** The value that a header line holds when the passes so far have left
    [st]. *)
Definition value_of (st : option string) (value : string) : string :=
  match st with
  | Some ph => ph
  | None => value
  end.

(** A log of four lines, three of them sensitive headers, two of these
    with the same name. *)
Definition demo_log : list piece :=
  [ HeaderLine "Authorization" "" " " "Bearer tok";
    Plain (LF ++ "Accept: text/plain" ++ LF)%string;
    HeaderLine "X-Api-Key" " " " " "abc123";
    Plain LF;
    HeaderLine "authorization" "" "" "Basic xyz" ].

(** A command line with two bearer flags and a header at its end. *)
Definition demo_command_line : list piece :=
  [ Plain "npx -y supergateway --sse https://example.com/mcp ";
    BearerFlag "--oauth2Bearer" " " "tok123";
    Plain " --retry 3 ";
    BearerFlag "--OAUTH2BEARER" "  " "Authorization:other";
    Plain " --header ";
    HeaderLine "Authorization" "" " " "Bearer tok123" ].

End Document.

(** ** String and array primitives of JavaScript *)

Module Js.
Import Chars.

(** [s.split(c)] for a separator of one character: the pieces between
    its occurrences, at least one piece. *)
Fixpoint split (c : ascii) (s : string) : list string :=
  match s with
  | EmptyString => [""]
  | String d s' =>
      if Ascii.eqb d c then "" :: split c s'
      else
        match split c s' with
        | p :: ps => String d p :: ps
        | [] => [String d ""]
        end
  end.

(** [a.join(sep)] *)
Abbreviation join := String.concat.

(** [a.filter(Boolean)] on an array of strings keeps the non-empty ones. *)
Definition filter_Boolean (a : list string) : list string :=
  List.filter Configure.nonempty a.

(** [s.startsWith(p)] *)
Definition startsWith (p s : string) : bool := String.prefix p s.

(** [s.includes(t)] *)
Fixpoint includes (t s : string) : bool :=
  String.prefix t s ||
  match s with
  | EmptyString => false
  | String _ s' => includes t s'
  end.

(** [s.indexOf(c)] for a single character; [None] stands for [-1]. *)
Fixpoint indexOf (c : ascii) (s : string) : option nat :=
  match s with
  | EmptyString => None
  | String d s' => if Ascii.eqb d c then Some 0 else S <$> indexOf c s'
  end.

(** [a.indexOf(x)] on an array of strings. *)
Fixpoint array_indexOf (x : string) (a : list string) : option nat :=
  match a with
  | [] => None
  | y :: a' => if String.eqb y x then Some 0 else S <$> array_indexOf x a'
  end.

(** [s.slice(0, n)] *)
Definition slice_to (n : nat) (s : string) : string := String.substring 0 n s.

(** What is read of the object [new URL(s)]. *)
Record URL := { protocol : string; pathname : string }.

(** A parser for examples: [scheme://host/path], the path taken from the
    first slash after the host. *)
Definition demo_URL (s : string) : option URL :=
  match String.index 0 "://" s with
  | Some (S n) =>
      let rest := string_drop (S n + 3) s in
      Some {| protocol := String.substring 0 (S n + 1) s;
              pathname := match indexOf "/" rest with
                          | Some i => string_drop i rest
                          | None => "/"
                          end |}
  | _ => None
  end.

End Js.

(** ** Local tools, [src/utils/tools.ts]

    [ToolEntry] comes from the tools catalog; the record holds the fields
    that this file reads. The two effects are oracles: [which] tells
    whether a command is on the path, [exec] runs a command line with
    [execSync] and gives the message of the error it throws, if any. *)

Module Tools.
Import Chars Js.

Record Installer := { type : string; installer_command : string }.

Record ToolEntry := {
  id : string;
  bin : string;
  (** [discovery?.commands] *)
  discovery_commands : option (list string);
  installers_windows : option (list Installer);
  installers_macos : option (list Installer);
  installers_linux : option (list Installer);
  (** [health?.version?.command] and [health?.probe?.command] *)
  health_version_command : option string;
  health_probe_command : option string
}.

Record DetectResult := { installed : bool; command : option string }.

(** [splitCommand]: the first token and the others, tokens separated by
    single spaces, empty tokens dropped. *)
Definition splitCommand (cmd : string) : string * list string :=
  let parts := filter_Boolean (split " " cmd) in
  let head := match parts with p :: _ => p | [] => "" end in
  let rest := if 1 <? length parts then List.tl parts else [] in
  (head, rest).

(** The loop of [detectTool] over the discovery commands. *)
Fixpoint detectTool_commands (which : string → bool) (cmds : list string)
  : DetectResult :=
  match cmds with
  | [] => {| installed := false; command := None |}
  | c :: cmds' =>
      let command := (splitCommand c).1 in
      if which command then {| installed := true; command := Some command |}
      else detectTool_commands which cmds'
  end.

(** [detectTool]: the [bin] first, then the discovery commands in
    order, each by its first token. *)
Definition detectTool (which : string → bool) (tool : ToolEntry) : DetectResult :=
  if Configure.nonempty (bin tool) && which (bin tool) then
    {| installed := true; command := Some (bin tool) |}
  else
    let cmds := default [] (discovery_commands tool) in
    detectTool_commands which cmds.

(** [chooseDefaultInvocation]: the [bin] when that is what was
    detected, the first discovery command otherwise, or the [bin] when
    there is none. *)
Definition chooseDefaultInvocation (tool : ToolEntry) (detected : option DetectResult)
  : string * list string :=
  if match detected with
     | Some d => installed d && bool_decide (command d = Some (bin tool))
     | None => false
     end
  then (bin tool, [])
  else
    let cmd := match discovery_commands tool with
               | Some (c :: _) => c
               | _ => bin tool
               end in
    splitCommand (if Configure.nonempty cmd then cmd else bin tool).

(** The manager that [installTool] goes by: [preferred] unless it is
    missing or ['auto'], then [process.env.ALPH_INSTALL_MANAGER], then
    ['auto']. *)
Definition install_manager (preferred env_manager : option string) : string :=
  let wanted := match preferred with
                | Some p => Configure.nonempty p && negb (String.eqb p "auto")
                | None => false
                end in
  if wanted then default "" preferred
  else if truthy_str env_manager then default "" env_manager else "auto".

(** The installers of the platform. *)
Definition platform_installers (platform : string) (tool : ToolEntry) : list Installer :=
  if String.eqb platform "win32" then default [] (installers_windows tool)
  else if String.eqb platform "darwin" then default [] (installers_macos tool)
  else default [] (installers_linux tool).

(** The installer that [installTool] settles on: the first one of the
    platform, or the first one of the wanted type if there is one. *)
Definition chosen_installer (platform : string) (mgr : string) (tool : ToolEntry)
  : option Installer :=
  let installers := platform_installers platform tool in
  let chosen := head installers in
  if negb (String.eqb mgr "auto") then
    match List.find (λ i, String.eqb (toLowerCase (type i)) mgr) installers with
    | Some cand => Some cand
    | None => chosen
    end
  else chosen.

(** [installTool]: the command lines executed and the error thrown, if
    any. [env_manager] is [process.env.ALPH_INSTALL_MANAGER]. *)
Definition installTool (platform : string) (env_manager : option string)
    (exec : string → option string) (tool : ToolEntry) (preferred : option string)
  : list string * (string + unit) :=
  let mgr := install_manager preferred env_manager in
  match chosen_installer platform mgr tool with
  | None => ([], inl "No installer defined for this platform")
  | Some chosen =>
      match exec (installer_command chosen) with
      | Some e => ([installer_command chosen], inl e)
      | None => ([installer_command chosen], inr tt)
      end
  end.

Record HealthResult := { ok : bool; message : option string }.

(** [if (command) execSync(command)]: the command line executed, if any,
    and the message of the error thrown, if any. *)
Definition run_if_set (exec : string → option string) (command : option string)
  : list string * option string :=
  if truthy_str command then ([default "" command], exec (default "" command))
  else ([], None).

(** The command lines a health check has to run. *)
Definition health_commands (tool : ToolEntry) : list string :=
  ((run_if_set (λ _, None) (health_version_command tool)).1
   ++ (run_if_set (λ _, None) (health_probe_command tool)).1)%list.

(** [runHealthCheck]: the command lines executed and the result. An
    error of the version command ends the check. *)
Definition runHealthCheck (exec : string → option string) (tool : ToolEntry)
  : list string * HealthResult :=
  let '(ran, e) := run_if_set exec (health_version_command tool) in
  match e with
  | Some msg => (ran, {| ok := false; message := Some msg |})
  | None =>
      let '(ran', e') := run_if_set exec (health_probe_command tool) in
      match e' with
      | Some msg => ((ran ++ ran')%list, {| ok := false; message := Some msg |})
      | None => ((ran ++ ran')%list, {| ok := true; message := None |})
      end
  end.

(** A tool for examples: its own binary is not installed, [npx] is. *)
Definition demo_tool : ToolEntry :=
  {| id := "github";
     bin := "github-mcp";
     discovery_commands :=
       Some ["github-mcp --stdio"; "npx -y @modelcontextprotocol/server-github"];
     installers_windows := None;
     installers_macos :=
       Some [ {| type := "brew"; installer_command := "brew install github-mcp" |} ];
     installers_linux :=
       Some [ {| type := "npm"; installer_command := "npm i -g github-mcp" |};
              {| type := "Cargo"; installer_command := "cargo install github-mcp" |} ];
     health_version_command := Some "github-mcp --version";
     health_probe_command := Some "github-mcp --probe" |}.

Definition demo_which (cmd : string) : bool := String.eqb cmd "npx".

End Tools.

(** ** The proxy arguments, [buildSupergatewayArgs] in [src/utils/proxy.ts] *)

Module Supergateway.
Import Chars Js.

Record ProxyHeader := { key : string; value : option string }.

(** [ProxyOpts]. The type restricts [transport] to two literals; the
    function checks it again, so the field is a plain string here. *)
Record ProxyOpts := {
  remoteUrl : string;
  transport : string;
  bearer : option string;
  headers : option (list ProxyHeader)
}.

(** The loop over [headers]: a header whose key is blank is passed
    over, the others give [--header] and [KEY: VALUE] with the key
    trimmed. *)
Definition header_args (headers : list ProxyHeader) : list string :=
  flat_map
    (λ h, if String.eqb (Configure.trim (key h)) "" then []
          else let key := Configure.trim (key h) in
               let value := default "" (value h) in
               ["--header"; key ++ ": " ++ value])
    headers.

(** [buildSupergatewayArgs]: the argv, or the message of the error
    thrown. [new_URL] is the URL parser, [None] when it throws. *)
Definition buildSupergatewayArgs (new_URL : string → option URL)
    (opts : option ProxyOpts) : string + list string :=
  match opts with
  | None => inl "opts is required"
  | Some opts =>
      if negb (String.eqb (transport opts) "http")
         && negb (String.eqb (transport opts) "sse")
      then inl ("Unsupported transport: " ++ transport opts)
      else if match new_URL (remoteUrl opts) with
              | Some u => negb (startsWith "http" (protocol u))
              | None => true
              end
      then inl ("Invalid remoteUrl: " ++ remoteUrl opts)
      else
        inr ((if String.eqb (transport opts) "http"
              then ["--streamableHttp"; remoteUrl opts]
              else ["--sse"; remoteUrl opts])
             ++ (if truthy_str (bearer opts)
                 then ["--oauth2Bearer"; default "" (bearer opts)] else [])
             ++ header_args (default [] (headers opts)))%list
  end.

(** What [redactForLogs] makes of the header arguments. *)
Definition redacted_header_args (headers : list ProxyHeader) : list string :=
  flat_map
    (λ h, if String.eqb (Configure.trim (key h)) "" then []
          else ["--header";
                Proxy.redactString (Configure.trim (key h) ++ ": " ++ default "" (value h))])
    headers.

(** Options for examples: a bearer token, a sensitive header with blanks
    around its name, a header with a blank name and one with no value. *)
Definition demo_opts : ProxyOpts :=
  {| remoteUrl := "https://example.com/mcp";
     transport := "sse";
     bearer := Some "tok123";
     headers := Some [ {| key := " X-Api-Key "; value := Some "abc123" |};
                       {| key := "  "; value := Some "dropped" |};
                       {| key := "Accept"; value := None |} ] |}.

Definition demo_argv : list string :=
  ["--sse"; "https://example.com/mcp"; "--oauth2Bearer"; "tok123";
   "--header"; "X-Api-Key: abc123"; "--header"; "Accept: "].

End Supergateway.

(** ** The configure command, [ConfigureCommand] in [src/commands/configure.ts] *)

Module Command.
Import Chars Render Js.

(** The [agents] option: an array of names or a comma-separated text. *)
Inductive Agents :=
| AgentNames (names : list string)
| AgentText (text : string).

(** [ConfigureCommandOptions] as the constructor receives it: every
    field may be missing. *)
Module Raw.
Record t := {
  mcpServerEndpoint : option string;
  bearer : option string;
  transport : option Transport;
  name : option string;
  interactive : option bool;
  agents : option Agents;
  configDir : option string;
  yes : option bool;
  dryRun : option bool;
  command : option string;
  cwd : option string;
  args : option (list string);
  env : option (gmap string string);
  headers : option (gmap string string);
  timeout : option Z;
  backup : option bool;
  noInstall : option bool;
  installManager : option string;
  quiet : option bool;
  proxyRemoteUrl : option string;
  proxyTransport : option Transport;
  proxyBearer : option string;
  proxyHeader : option (list string)
}.

(** [{}] *)
Definition empty : t :=
  {| mcpServerEndpoint := None; bearer := None; transport := None; name := None;
     interactive := None; agents := None; configDir := None; yes := None;
     dryRun := None; command := None; cwd := None; args := None; env := None;
     headers := None; timeout := None; backup := None; noInstall := None;
     installManager := None; quiet := None; proxyRemoteUrl := None;
     proxyTransport := None; proxyBearer := None; proxyHeader := None |}.
End Raw.

(** [Required<ConfigureCommandOptions>], the options of the command once
    constructed; the four proxy fields stay as they were given. *)
Record Options := {
  mcpServerEndpoint : string;
  bearer : string;
  transport : Transport;
  name : string;
  interactive : bool;
  agents : Agents;
  configDir : string;
  yes : bool;
  dryRun : bool;
  command : string;
  cwd : string;
  args : list string;
  env : gmap string string;
  headers : gmap string string;
  timeout : Z;
  backup : bool;
  noInstall : bool;
  installManager : string;
  quiet : bool;
  proxyRemoteUrl : option string;
  proxyTransport : option Transport;
  proxyBearer : option string;
  proxyHeader : option (list string)
}.

(** What the constructor reads of [process]. *)
Record Process := { process_env : gmap string string; process_argv : list string }.

(** [getArgValue]: the element after [name], or what follows [name=] in
    the first element that starts with it. *)
Definition getArgValue (enableArgvFallback : bool) (argv : list string) (name : string)
  : option string :=
  if negb enableArgvFallback then None
  else
    let by_prefix :=
      match List.find (startsWith (name ++ "=")) argv with
      | Some pref =>
          if Configure.nonempty pref then Some (join "=" (List.tl (split "=" pref)))
          else None
      | None => None
      end in
    match array_indexOf name argv with
    | Some idx => if idx + 1 <? length argv then argv !! (idx + 1) else by_prefix
    | None => by_prefix
    end.

(** [given ?? (given ? undefined : getArgValue(flag)) ?? ''] *)
Definition with_fallback (enableArgvFallback : bool) (argv : list string)
    (given : option string) (flag : string) : string :=
  let fallback := if truthy_str given then None
                  else getArgValue enableArgvFallback argv flag in
  match given with
  | Some v => v
  | None => default "" fallback
  end.

(** The constructor: every missing option gets its default; five
    options can come from the argv instead when [ALPH_ARGV_FALLBACK] is
    [1]. *)
Definition constructor (process : Process) (options : Raw.t) : Options :=
  let enableArgvFallback :=
    bool_decide (process_env process !! "ALPH_ARGV_FALLBACK" = Some "1") in
  let argv := if enableArgvFallback then drop 2 (process_argv process) else [] in
  let fallbackAgents :=
    if match Raw.agents options with
       | Some (AgentNames _) => true
       | Some (AgentText s) => Configure.nonempty s
       | None => false
       end
    then None else getArgValue enableArgvFallback argv "--agents" in
  {| mcpServerEndpoint :=
       with_fallback enableArgvFallback argv (Raw.mcpServerEndpoint options)
         "--mcp-server-endpoint";
     bearer := with_fallback enableArgvFallback argv (Raw.bearer options) "--bearer";
     transport := default http (Raw.transport options);
     name := default "" (Raw.name options);
     interactive := default false (Raw.interactive options);
     agents := match Raw.agents options with
               | Some a => a
               | None => AgentText (default "" fallbackAgents)
               end;
     configDir := default "" (Raw.configDir options);
     yes := default false (Raw.yes options);
     dryRun := default false (Raw.dryRun options);
     command := with_fallback enableArgvFallback argv (Raw.command options) "--command";
     cwd := with_fallback enableArgvFallback argv (Raw.cwd options) "--cwd";
     args := default [] (Raw.args options);
     env := default ∅ (Raw.env options);
     headers := default ∅ (Raw.headers options);
     timeout := default 0%Z (Raw.timeout options);
     backup := default true (Raw.backup options);
     noInstall := default (bool_decide (process_env process !! "ALPH_NO_INSTALL" = Some "1"))
                    (Raw.noInstall options);
     installManager :=
       default (if truthy_str (process_env process !! "ALPH_INSTALL_MANAGER")
                then default "" (process_env process !! "ALPH_INSTALL_MANAGER")
                else "auto")
         (Raw.installManager options);
     quiet := default false (Raw.quiet options);
     proxyRemoteUrl := Raw.proxyRemoteUrl options;
     proxyTransport := Raw.proxyTransport options;
     proxyBearer := Raw.proxyBearer options;
     proxyHeader := Raw.proxyHeader options |}.

(** The part of the options that [validateOptions] reads. *)
Definition validated (o : Options) : Configure.ConfigureCommandOptions :=
  {| Configure.mcpServerEndpoint := mcpServerEndpoint o;
     Configure.bearer := bearer o;
     Configure.transport := transport o;
     Configure.interactive := interactive o;
     Configure.configDir := configDir o;
     Configure.yes := yes o;
     Configure.dryRun := dryRun o;
     Configure.command := command o;
     Configure.backup := backup o |}.

(** Truthiness of the [agents] option: an array is truthy, a text when
    it is not empty. *)
Definition truthy_agents (a : Agents) : bool :=
  match a with
  | AgentNames _ => true
  | AgentText s => Configure.nonempty s
  end.

(** [noFlags] in [execute]: no endpoint, no token, no agents, no
    dry run, no [--yes]. *)
Definition noFlags (o : Options) : bool :=
  negb (Configure.nonempty (mcpServerEndpoint o)) && negb (Configure.nonempty (bearer o))
  && negb (truthy_agents (agents o)) && negb (dryRun o) && negb (yes o).

(** Where [execute] goes once validation has passed: to the wizard, with
    the options it hands over, or on in manual mode. *)
Inductive Path :=
| Wizard (mcpServerEndpoint : string) (transport : Transport) (bearer : option string)
    (agents : Agents)
| ManualMode.

(** [execute] up to the choice between the wizard and manual mode: the
    probes of validation, and the error thrown or the path taken. *)
Definition execute (env : Configure.Env) (o : Options)
  : list Configure.FsProbe * (string + Path) :=
  match Configure.validateOptions env (validated o) with
  | (probes, inl e) => (probes, inl e)
  | (probes, inr tt) =>
      if interactive o || noFlags o then
        (probes,
         inr (Wizard (mcpServerEndpoint o) (transport o)
                (if Configure.nonempty (bearer o) then Some (bearer o) else None)
                (agents o)))
      else (probes, inr ManualMode)
  end.

(** [extractServerId]: the last non-empty segment of the path of the
    URL. *)
Definition extractServerId (new_URL : string → option URL) (endpoint : string)
  : string :=
  match new_URL endpoint with
  | Some url =>
      let segments := filter_Boolean (split "/" (pathname url)) in
      match last segments with
      | Some s => if Configure.nonempty s then s else "default-server"
      | None => "default-server"
      end
  | None => "default-server"
  end.

(** [(this.options.name && this.options.name.trim()) || otherwise] *)
Definition name_or (name otherwise : string) : string :=
  let n := if Configure.nonempty name then Configure.trim name else name in
  if Configure.nonempty n then n else otherwise.

(** [a || b || ''] on an optional string and a string. *)
Definition first_truthy (a : string) (b : option string) : string :=
  if Configure.nonempty a then a
  else if truthy_str b then default "" b else "".

(** [MCPServerConfig], as built by [getMCPConfig]. *)
Module Mcp.
Record t := {
  name : string;
  httpUrl : option string;
  transport : Transport;
  disabled : bool;
  autoApprove : list string
}.
End Mcp.

(** [getMCPConfig]; [prompted] is the URL typed at the prompt of the last
    branch, which accepts what [new URL] accepts. *)
Definition getMCPConfig (new_URL : string → option URL) (o : Options)
    (prompted : string) : Mcp.t :=
  if Configure.nonempty (mcpServerEndpoint o) then
    {| Mcp.name := name_or (name o) (extractServerId new_URL (mcpServerEndpoint o));
       Mcp.httpUrl := Some (mcpServerEndpoint o);
       Mcp.transport := transport o; Mcp.disabled := false; Mcp.autoApprove := [] |}
  else if match transport o with stdio => true | _ => false end then
    {| Mcp.name := name_or (name o) "default-server";
       Mcp.httpUrl := None;
       Mcp.transport := transport o; Mcp.disabled := false; Mcp.autoApprove := [] |}
  else if dryRun o && negb (Configure.nonempty (mcpServerEndpoint o)) then
    {| Mcp.name := name_or (name o) "default-server";
       Mcp.httpUrl := Some "";
       Mcp.transport := transport o; Mcp.disabled := false; Mcp.autoApprove := [] |}
  else
    {| Mcp.name := name_or (name o) (extractServerId new_URL prompted);
       Mcp.httpUrl := Some prompted;
       Mcp.transport := transport o; Mcp.disabled := false; Mcp.autoApprove := [] |}.

(** [obj[k] = v] on an object literal: the key [__proto__] names the
    prototype, and assigning a string to it leaves the object as it
    is. *)
Definition set_property (k v : string) (obj : gmap string string) : gmap string string :=
  if String.eqb k "__proto__" then obj else <[k := v]> obj.

(** The loop over [proxyHeader]: each [K: V] with a colon after at least
    one character gives the header [K], trimmed, unless that is empty. *)
Definition extraHeaders (proxyHeader : list string) : gmap string string :=
  fold_left
    (λ extraHeaders h,
       match indexOf ":" h with
       | Some idx =>
           if 0 <? idx then
             let k := Configure.trim (slice_to idx h) in
             let v := Configure.trim (string_drop (idx + 1) h) in
             if Configure.nonempty k then set_property k v extraHeaders
             else extraHeaders
           else extraHeaders
       | None => extraHeaders
       end)
    proxyHeader ∅.

(** [AgentConfig], as [execute] builds it. *)
Module Agent.
Record t := {
  mcpServerId : string;
  mcpServerUrl : string;
  mcpAccessKey : string;
  transport : Transport;
  headers : gmap string string;
  env : gmap string string;
  command : string;
  args : list string;
  cwd : string;
  timeout : option Z;
  configDir : string
}.
End Agent.

(** Step 3 of [execute]: the proxy flags, the headers and the default
    [Authorization] header, and the [agentConfig] object. *)
Definition agentConfig (new_URL : string → option URL) (o : Options) (mcpConfig : Mcp.t)
  : Agent.t :=
  let proxy := truthy_str (proxyRemoteUrl o) in
  let endpoint := if proxy then default "" (proxyRemoteUrl o) else mcpServerEndpoint o in
  let transport :=
    if proxy then default (transport o) (proxyTransport o) else transport o in
  let bearer :=
    if proxy && truthy_str (proxyBearer o) then default "" (proxyBearer o)
    else bearer o in
  let extraHeaders :=
    if proxy then extraHeaders (default [] (proxyHeader o)) else ∅ in
  let computedHeaders := spread (spread ∅ (headers o)) extraHeaders in
  let computedHeaders :=
    if Configure.nonempty bearer
       && match transport with http | sse => true | stdio => false end
       && negb (truthy_str (computedHeaders !! "Authorization"))
    then <["Authorization" := "Bearer " ++ bearer]> computedHeaders
    else computedHeaders in
  {| Agent.mcpServerId :=
       name_or (name o)
         (extractServerId new_URL (first_truthy endpoint (Mcp.httpUrl mcpConfig)));
     Agent.mcpServerUrl := first_truthy endpoint (Mcp.httpUrl mcpConfig);
     Agent.mcpAccessKey := bearer;
     Agent.transport := transport;
     Agent.headers := computedHeaders;
     Agent.env := env o;
     Agent.command := command o;
     Agent.args := args o;
     Agent.cwd := cwd o;
     Agent.timeout := if (0 <? timeout o)%Z then Some (timeout o) else None;
     Agent.configDir := configDir o |}.

(** The first match of a pattern in a text, as [match] and [search]
    find it: the leftmost position at which the pattern matches. *)
Fixpoint first_match {R} (re : Regex.text → option R) (s : Regex.text) : option R :=
  match re s with
  | Some r => Some r
  | None =>
      match s with
      | [] => None
      | _ :: s' => first_match re s'
      end
  end.

(** [authHeader.match(/Bearer\s+(.+)/i)]: group 1 of the first match. *)
Definition bearer_of_header (authHeader : string) : option string :=
  match
    first_match
      (Regex.lit_ci (list_ascii_of_string "Bearer")
         (Regex.plus_greedy is_space
            (λ s1, Regex.plus_greedy Regex.dot (λ s2, Some (s1, s2)) s1)))
      (list_ascii_of_string authHeader)
  with
  | Some (s1, s2) => Some (string_of_list_ascii (take (length s1 - length s2) s1))
  | None => None
  end.

(** [headersRecord['Authorization'] || headersRecord['authorization']] *)
Definition authHeader (headersRecord : gmap string string) : option string :=
  if truthy_str (headersRecord !! "Authorization") then headersRecord !! "Authorization"
  else headersRecord !! "authorization".

(** [__mapConfigForPreview]: for Codex CLI a remote server is shown as
    the local proxy that reaches it. The entries of the headers come in
    the order of the map. *)
Definition __mapConfigForPreview (new_URL : string → option URL) (providerName : string)
    (config : Agent.t) : string + Agent.t :=
  if String.eqb providerName "Codex CLI"
     && match Agent.transport config with http | sse => true | stdio => false end
  then
    let headersRecord := Agent.headers config in
    let bearer :=
      if Configure.nonempty (Agent.mcpAccessKey config) then Agent.mcpAccessKey config
      else
        match authHeader headersRecord with
        | Some a => default (Agent.mcpAccessKey config) (bearer_of_header a)
        | None => Agent.mcpAccessKey config
        end in
    let headers :=
      map (λ kv, {| Supergateway.key := kv.1; Supergateway.value := Some kv.2 |})
        (List.filter (λ kv, negb (String.eqb (toLowerCase kv.1) "authorization"))
           (map_to_list headersRecord)) in
    match
      Supergateway.buildSupergatewayArgs new_URL
        (Some {| Supergateway.remoteUrl := Agent.mcpServerUrl config;
                 Supergateway.transport :=
                   match Agent.transport config with
                   | http => "http" | sse => "sse" | stdio => "stdio"
                   end;
                 Supergateway.bearer := Some bearer;
                 Supergateway.headers := Some headers |})
    with
    | inl e => inl e
    | inr argv =>
        inr {| Agent.mcpServerId := Agent.mcpServerId config;
               Agent.mcpServerUrl := Agent.mcpServerUrl config;
               Agent.mcpAccessKey := Agent.mcpAccessKey config;
               Agent.transport := stdio;
               Agent.headers := Agent.headers config;
               Agent.env := Agent.env config;
               Agent.command := "npx";
               Agent.args := "-y" :: "supergateway" :: argv;
               Agent.cwd := Agent.cwd config;
               Agent.timeout := Agent.timeout config;
               Agent.configDir := Agent.configDir config |}
    end
  else inr config.

(** Options and a process for examples: no option given, the argv
    fallback left off. *)
Definition demo_process : Process :=
  {| process_env := ∅; process_argv := ["node"; "alph"; "configure"] |}.

(** An [agentConfig] for examples: a remote server and its bearer
    token, held by the [Authorization] header only. *)
Definition demo_agentConfig : Agent.t :=
  {| Agent.mcpServerId := "mcp";
     Agent.mcpServerUrl := "https://example.com/mcp";
     Agent.mcpAccessKey := "";
     Agent.transport := http;
     Agent.headers := {[ "Authorization" := "Bearer tok123" ]};
     Agent.env := ∅;
     Agent.command := "";
     Agent.args := [];
     Agent.cwd := "";
     Agent.timeout := None;
     Agent.configDir := "" |}.

(** An environment in which every URL parses and every directory exists. *)
Definition lenient_env : Configure.Env :=
  {| Configure.url_parses := λ _, true;
     Configure.existsSync := λ _, true;
     Configure.statSync_isDirectory := λ _, inr true |}.

End Command.

(** ** The status listing, [executeStatusCommand] and [printList] in
    [src/commands/status.ts] *)

Module StatusList.
Import Chars Status StatusCommand Js.

(** Truthiness of a value. *)
Definition truthy (v : value) : bool :=
  match v with
  | VUndefined | VNull => false
  | VBool b => b
  | VNum n => negb (n =? 0)%Z
  | VStr s => Configure.nonempty s
  | VArr _ | VObj _ => true
  end.

(** [c.k] for one of the names read here ([transport], [config],
    [command], [httpUrl], [url], [disabled]): the field of an object,
    [undefined] on an array or a primitive, none of which has such a
    property. An entry of a status is never [null] or [undefined], on
    which the access would throw. *)
Definition get (c : value) (k : string) : value :=
  match c with
  | VObj m => default VUndefined (m !! k)
  | _ => VUndefined
  end.

(** [c?.k] *)
Definition get_opt (c : value) (k : string) : value :=
  match c with
  | VUndefined | VNull => VUndefined
  | _ => get c k
  end.

(** [a || b] *)
Definition or_else (a b : value) : value := if truthy a then a else b.

(** [typeof v === 'string' && v.length > 0] *)
Definition nonempty_string (v : value) : bool :=
  match v with
  | VStr s => Configure.nonempty s
  | _ => false
  end.

(** [v === s] for a string literal [s]. *)
Definition is_string (s : string) (v : value) : bool :=
  match v with
  | VStr t => String.eqb t s
  | _ => false
  end.

(** [c.transport || c.config?.transport] *)
Definition explicit (c : value) : value :=
  or_else (get c "transport") (get_opt (get c "config") "transport").

(** The transport inferred from the fields when none is given. *)
Definition inferred (c : value) : string :=
  if negb (truthy (explicit c)) then
    if nonempty_string (get c "command") then "stdio"
    else if nonempty_string (get c "httpUrl") then "http"
    else if nonempty_string (get c "url") then "sse"
    else "N/A"
  else "N/A".

(** [explicit || inferred] *)
Definition rawTransport (c : value) : value := or_else (explicit c) (VStr (inferred c)).

(** [hasServerProblem]: the field that goes with the transport is not
    a non-empty string. *)
Definition hasServerProblem (entry : RedactedServerEntry) : bool :=
  let c := config entry in
  let transport := rawTransport c in
  if is_string "stdio" transport then negb (nonempty_string (get c "command"))
  else if is_string "http" transport then negb (nonempty_string (get c "httpUrl"))
  else if is_string "sse" transport then negb (nonempty_string (get c "url"))
  else false.

(** A line of the listing, with the values that are written into it. *)
Inductive Line :=
| Title
| NoAgentsFound
| ConfiguredHeading
| ProviderLine (name : string) (count : nat)
| ConfigFile (path : string)
| ServerLine (id : string) (endpoint transport : value) (status : string)
| NoServers
| Blank
| UnavailableHeading
| NotDetected (name : string) (errorText : string)
| Footer.

(** The line of one server entry. *)
Definition serverLine (entry : RedactedServerEntry) : Line :=
  let c := config entry in
  let rawTransport := rawTransport c in
  let endpoint :=
    if is_string "stdio" rawTransport then VStr "Local (STDIO)"
    else or_else (or_else (get c "httpUrl") (get c "url")) (VStr "N/A") in
  let status :=
    match get c "disabled" with VBool true => "disabled" | _ => "enabled" end in
  ServerLine (id entry) endpoint (or_else rawTransport (VStr "N/A")) status.

(** The detected providers that the listing shows. *)
Definition detectedProviders (problems : bool) (statuses : list ProviderStatus)
  : list ProviderStatus :=
  let detectedProviders := List.filter status_detected statuses in
  if problems then
    List.filter
      (λ s, truthy_str (error s) || existsb hasServerProblem (default [] (servers s)))
      detectedProviders
  else detectedProviders.

Definition notDetectedProviders (statuses : list ProviderStatus) : list ProviderStatus :=
  List.filter (λ s, negb (status_detected s)) statuses.

(** The lines of one detected provider: its name and number of
    servers, its file, its servers. *)
Definition providerLines (s : ProviderStatus) : list Line :=
  let count := length (default [] (servers s)) in
  ProviderLine (name s) count ::
  ConfigFile (if truthy_str (status_configPath s)
              then default "" (status_configPath s) else "N/A") ::
  (if 0 <? count then map serverLine (default [] (servers s)) else [NoServers]).

(** The line of one provider that was not detected. *)
Definition notDetectedLine (s : ProviderStatus) : Line :=
  NotDetected (name s)
    (if truthy_str (error s) then " (" ++ default "" (error s) ++ ")" else "").

(** [printList]: the lines written to the console, in order. *)
Definition printList (statuses : list ProviderStatus) (problems : bool) : list Line :=
  let detectedProviders := detectedProviders problems statuses in
  let notDetectedProviders := notDetectedProviders statuses in
  (Title ::
   if (length detectedProviders =? 0) && (length notDetectedProviders =? 0)
   then [NoAgentsFound]
   else
     (if 0 <? length detectedProviders
      then ConfiguredHeading :: flat_map providerLines detectedProviders
      else [])
     ++ (if 0 <? length notDetectedProviders then
           (if 0 <? length detectedProviders then [Blank] else [])
           ++ UnavailableHeading :: map notDetectedLine notDetectedProviders
         else [])
     ++ [Footer])%list.

Record StatusCommandOptions := {
  format : option string;
  agent : option string;
  problems : option bool
}.

Inductive Output :=
| Json (providerStatuses : list ProviderStatus)
| Listing (lines : list Line).

(** The detections that pass the [agent] filter. *)
Definition filtered (options : StatusCommandOptions)
    (detectionResults : list ProviderDetectionResult) : list ProviderDetectionResult :=
  let agentFilter := toLowerCase (if truthy_str (agent options)
                                  then default "" (agent options) else "") in
  if Configure.nonempty agentFilter then
    List.filter (λ d, includes agentFilter (toLowerCase (provider_name d)))
      detectionResults
  else detectionResults.

(** [executeStatusCommand], on the detections that the registry
    returns: what is written, as JSON or as a listing. *)
Definition executeStatusCommand (rd : Reader)
    (detectionResults : list ProviderDetectionResult) (options : StatusCommandOptions)
  : Output :=
  let providerStatuses := buildProviderStatuses rd (filtered options detectionResults) in
  let format := if truthy_str (format options) then default "" (format options)
                else "list" in
  if String.eqb format "json" then Json providerStatuses
  else Listing (printList providerStatuses (default false (problems options))).

(** The configuration a file holds after [renderMcpServer]: the rendered
    object as a value. *)
Definition rendered_config (i : Render.RenderInput) : value :=
  VObj ((λ servers, VObj ((λ server, VObj server) <$> servers))
        <$> Render.renderMcpServer i).

(** A reader for examples: every JSON file holds what [renderMcpServer]
    makes of [i]. *)
Definition rendered_reader (i : Render.RenderInput) : Reader :=
  {| readFile := λ _, inl "ENOENT";
     TOML_parse := λ _, None;
     readJsonFile := λ _, inr (rendered_config i) |}.

(** The input of the end-to-end scenario: gemini, http, a bearer header. *)
Definition gemini_http_input : Render.RenderInput :=
  {| Render.agent := "gemini"; Render.serverId := "demo"; Render.transport := Render.http;
     Render.url := Some "https://example.com/mcp";
     Render.headers := Some {[ "Authorization" := "Bearer abcd1234efgh" ]};
     Render.command := None; Render.args := None; Render.cwd := None;
     Render.env := Some ∅; Render.timeout := None |}.

(** The status entries of a provider with the error text of a detected
    provider rewritten by [f]. *)
Definition relabel_error (f : string → string) (s : ProviderStatus) : ProviderStatus :=
  if status_detected s then
    {| name := name s; status_detected := status_detected s;
       status_configPath := status_configPath s;
       error := f <$> error s; servers := servers s |}
  else s.

(** A provider named [École], its first letter the code unit 201, and the
    filter [é], the code unit 233. *)
Definition ecole_detection : StatusCommand.ProviderDetectionResult :=
  {| StatusCommand.provider_name := String (ascii_of_nat 201) "cole";
     StatusCommand.detected := false; StatusCommand.configPath := None;
     StatusCommand.detection_error := None |}.

Definition e_acute : string := String (ascii_of_nat 233) "".

End StatusList.

(** ** The wizard, [InteractiveConfigurator] in [src/commands/interactive.ts] *)

Module Wizard.
Import Chars Render Js Tools.

(** The [transformer] of the prompt for the URL. *)
Definition transformer (input : string) : string :=
  if Configure.nonempty input && negb (startsWith "http://" input)
     && negb (startsWith "https://" input)
  then "https://" ++ input
  else input.

(** The [validate] of the prompt for the URL: the message shown, or
    nothing when the input is accepted. *)
Definition validate (new_URL : string → option URL) (input : string) : string + unit :=
  if negb (Configure.nonempty input) then inl "URL is required."
  else
    let urlToTest :=
      if negb (startsWith "http://" input) && negb (startsWith "https://" input)
      then "https://" ++ input
      else input in
    match new_URL urlToTest with
    | Some _ => inr tt
    | None => inl "Please enter a valid URL."
    end.

(** The [httpUrl] of a remote server in [getMCPConfig]: the endpoint
    option if there is one, the answer otherwise, with [https://] put in
    front when no scheme is there. *)
Definition httpUrl (mcpServerEndpoint answer : option string) : option string :=
  let httpUrl := if truthy_str mcpServerEndpoint then mcpServerEndpoint else answer in
  if truthy_str httpUrl
     && negb (startsWith "http://" (default "" httpUrl))
     && negb (startsWith "https://" (default "" httpUrl))
  then Some ("https://" ++ default "" httpUrl)
  else httpUrl.

(** [s.split(/[\s,]+/)] on the characters of [s]: the pieces between the
    runs of white space and commas. [in_run] tells that the character
    before was part of a run. *)
Fixpoint split_runs (sep : ascii → bool) (in_run : bool) (s : list ascii)
  : list (list ascii) :=
  match s with
  | [] => [[]]
  | c :: s' =>
      if sep c then
        if in_run then split_runs sep true s' else [] :: split_runs sep true s'
      else
        match split_runs sep false s' with
        | p :: ps => (c :: p) :: ps
        | [] => [[c]]
        end
  end.

Definition args_separator (c : ascii) : bool := is_space c || Ascii.eqb c ",".

(** The arguments typed at the prompt:
    [text.split(/[\s,]+/).map(s => s.trim()).filter(Boolean)]. *)
Definition prompt_args (text : string) : list string :=
  filter_Boolean
    (map Configure.trim
       (map string_of_list_ascii (split_runs args_separator false (list_ascii_of_string text)))).

(** The tools of the catalog without repeated ids: the filter with the
    set [uniqueIds] of the ids seen so far. *)
Fixpoint uniqueTools_from (uniqueIds : gset string) (tools : list ToolEntry)
  : list ToolEntry :=
  match tools with
  | [] => []
  | t :: tools' =>
      if bool_decide (id t ∈ uniqueIds) then uniqueTools_from uniqueIds tools'
      else t :: uniqueTools_from ({[id t]} ∪ uniqueIds) tools'
  end.

Definition uniqueTools (tools : list ToolEntry) : list ToolEntry :=
  uniqueTools_from ∅ tools.

(** [catalog.tools.find(t => t.id === toolId)] *)
Definition find_tool (toolId : string) (tools : list ToolEntry) : option ToolEntry :=
  List.find (λ t, String.eqb (id t) toolId) tools.

(** The discovery command offered when the health check fails: the
    first one that starts with [npx ], [node ] or [php ]. *)
Definition fallback (tool : ToolEntry) : option string :=
  List.find
    (λ c, startsWith "npx " c || startsWith "node " c || startsWith "php " c)
    (default [] (discovery_commands tool)).

(** The invocation made of an accepted fallback, or the error thrown. *)
Definition fallback_invocation (fallback : string) : string + (string * list string) :=
  let parts := filter_Boolean (split " " fallback) in
  let head := match parts with p :: _ => p | [] => "" end in
  let rest := if 1 <? length parts then List.tl parts else [] in
  if negb (Configure.nonempty head) then inl "Invalid fallback invocation"
  else inr (head, rest).

(** [applyConfiguration]: the options handed to a new [ConfigureCommand].
    [command] and [args] are those of the server configuration of a
    STDIO flow. *)
Definition applyConfiguration (bearer : option string) (agents : list string)
    (mcpConfig : Command.Mcp.t) (mcp_command : option string)
    (mcp_args : option (list string)) (configDir : option string)
    (backup : option bool) : Command.Raw.t :=
  let transport := Command.Mcp.transport mcpConfig in
  let stdio_flow := match transport with stdio => true | _ => false end in
  {| Command.Raw.mcpServerEndpoint :=
       if truthy_str (Command.Mcp.httpUrl mcpConfig)
       then Command.Mcp.httpUrl mcpConfig else None;
     Command.Raw.bearer := bearer;
     Command.Raw.transport := Some transport;
     Command.Raw.name := Some (Command.Mcp.name mcpConfig);
     Command.Raw.interactive := Some false;
     Command.Raw.agents := Some (Command.AgentText (join "," agents));
     Command.Raw.configDir := configDir;
     Command.Raw.yes := Some true;
     Command.Raw.dryRun := None;
     Command.Raw.command := if stdio_flow then mcp_command else None;
     Command.Raw.cwd := None;
     Command.Raw.args := if stdio_flow then mcp_args else None;
     Command.Raw.env := None;
     Command.Raw.headers := None;
     Command.Raw.timeout := None;
     Command.Raw.backup := backup;
     Command.Raw.noInstall := None;
     Command.Raw.installManager := None;
     Command.Raw.quiet := None;
     Command.Raw.proxyRemoteUrl := None;
     Command.Raw.proxyTransport := None;
     Command.Raw.proxyBearer := None;
     Command.Raw.proxyHeader := None |}.

End Wizard.

(** ** The banner, [centerText] in [src/utils/banner] *)

Module Banner.

(** [' '.repeat(n)] *)
Fixpoint spaces (n : nat) : string :=
  match n with
  | O => ""
  | S n' => String " " (spaces n')
  end.

(** [width || process.stdout.columns || 80]: a width of 0 counts as
    missing. *)
Definition terminalWidth (columns width : option Z) : Z :=
  let truthy_num (n : option Z) :=
    match n with Some z => negb (z =? 0)%Z | None => false end in
  if truthy_num width then default 0%Z width
  else if truthy_num columns then default 0%Z columns
  else 80%Z.

(** [centerText]; [columns] is [process.stdout.columns]. *)
Definition centerText (columns : option Z) (text : string) (width : option Z) : string :=
  let terminalWidth := terminalWidth columns width in
  let padding := Z.max 0 ((terminalWidth - Z.of_nat (String.length text)) / 2) in
  spaces (Z.to_nat padding) ++ text.

End Banner.

(** ** Flat objects on the heap *)

Module Flat.
Import Chars Heap.

(** What [walk] leaves in a field of an object that holds no object or
    array: a string gives way to its redacted text. *)
Definition redacted_field (kv : string * hval) : string * hval :=
  (kv.1, match kv.2 with
         | HStr s => HStr (redact_field kv.1 s)
         | v => v
         end).

(** No field refers to an object or an array. *)
Definition flat (fields : list (string * hval)) : Prop :=
  Forall (λ kv, match kv.2 with HRef _ => False | _ => True end) fields.

(** [{ Authorization: 'Bearer abc123', url: 'https://example.com', n: 3 }]
    at location 0. *)
Definition flat_secret : heap :=
  {| cells := {[ 0 := HObject [("Authorization", HStr "Bearer abc123");
                                ("url", HStr "https://example.com");
                                ("retries", HNum 3)] ]};
     next := 1 |}.

End Flat.

(** * Part II: properties *)

(** ** Renderer *)

Module RenderSpec.
Import Render.

Lemma nonEmpty_Some {A} (o : option (gmap string A)) :
  truthy_ref (nonEmpty o) = true ↔ ∃ m, o = Some m ∧ m ≠ ∅.
Proof.
  destruct o as [m|]; simpl.
  - case_decide as Hlen; simpl.
    + split; [intros _|done]. exists m; split; [done|].
      intros ->. rewrite map_to_list_empty in Hlen. simpl in Hlen. lia.
    + split; [done|]. intros (m' & [= <-] & Hne). exfalso. apply Hlen.
      destruct (map_to_list m) as [|kv l] eqn:Hl; simpl; [|lia].
      by apply map_to_list_empty_iff in Hl.
  - split; [done|]. by intros (? & ? & _).
Qed.

Lemma lookup_field_if {A} (c : bool) (k k' : string) (v v' : A) :
  field_if c k v !! k' = Some v' ↔ c = true ∧ k = k' ∧ v = v'.
Proof.
  destruct c; simpl.
  - rewrite lookup_singleton_Some. tauto.
  - rewrite lookup_empty. split; [discriminate|]. intros (? & _); discriminate.
Qed.

Lemma lookup_spread {A} (a b : gmap string A) k v :
  spread a b !! k = Some v → b !! k = Some v ∨ a !! k = Some v.
Proof. unfold spread. rewrite lookup_union_Some_raw. tauto. Qed.

Ltac lookup_cases H :=
  repeat match type of H with
  | spread _ _ !! _ = Some _ => apply lookup_spread in H; destruct H as [H|H]
  end;
  match type of H with
  | field_if _ _ _ !! _ = Some _ =>
      apply lookup_field_if in H; destruct H as (H & <- & <-)
  | {[ _ := _ ]} !! _ = Some _ =>
      apply lookup_singleton_Some in H; destruct H as [<- <-]
  | ∅ !! _ = Some _ => rewrite lookup_empty in H; discriminate H
  end.

Ltac present H :=
  match type of H with
  | truthy_str ?o = true => destruct o; [|discriminate H]
  | truthy_ref (nonEmpty ?o) = true =>
      apply nonEmpty_Some in H; destruct H as (? & -> & ?)
  | truthy_ref ?o = true => destruct o; [|discriminate H]
  end.

(** Every key of a rendered server is a discriminator literal, or carries
    the input field it is named after; in the branches for the three known
    agents that field is present. *)
Lemma renderServer_fields (i : RenderInput) k v :
  renderServer i !! k = Some v →
  (k = "type" ∨ k = "transport") ∧ (∃ s, v = VStr s)
  ∨ v = field_source i k ∧
    (v ≠ VUndefined ∧ v ≠ VNull
     ∨ recognized (agent i) = false ∧
       (transport i = stdio ∧ k = "command" ∨ transport i ≠ stdio ∧ k = "url")).
Proof.
  unfold renderServer, recognized.
  destruct (String.eqb (agent i) "cursor"), (String.eqb (agent i) "gemini"),
    (String.eqb (agent i) "claude"), (transport i); cbv beta iota zeta; intros H;
    lookup_cases H;
    try (left; split; [auto|eexists; reflexivity]);
    right; (split; [reflexivity|]);
    try (left; present H; split; discriminate);
    right; (split; [reflexivity|]);
    first [left; split; reflexivity | right; split; [discriminate|reflexivity]].
Qed.

Lemma lookup_spread_other {A} (a : gmap string A) (c : bool) (k k' : string) (v : A) :
  k ≠ k' → spread a (field_if c k v) !! k' = a !! k'.
Proof.
  intros Hne. unfold spread, field_if. destruct c.
  - rewrite lookup_union_r; [done|]. by rewrite lookup_singleton_ne.
  - by rewrite (left_id_L ∅ (∪)).
Qed.

(** The fallback branch writes its leading key whatever the input holds. *)
Lemma renderServer_fallback_leading (i : RenderInput) :
  recognized (agent i) = false →
  (transport i = stdio → renderServer i !! "command" = Some (of_opt_str (command i))) ∧
  (transport i ≠ stdio → renderServer i !! "url" = Some (of_opt_str (url i))).
Proof.
  unfold renderServer, recognized. intros Hrec.
  apply orb_false_iff in Hrec as [Hrec Hclaude].
  apply orb_false_iff in Hrec as [Hcursor Hgemini].
  rewrite Hcursor, Hgemini, Hclaude. cbv zeta.
  destruct (transport i); (split; [intros Ht|intros Ht]); try done;
    rewrite ?lookup_spread_other by discriminate;
    by rewrite lookup_singleton_eq.
Qed.

(** Where the [headers] and [env] keys come from. *)
Lemma renderServer_dicts (i : RenderInput) k v :
  renderServer i !! k = Some v →
  (k = "headers" → truthy_ref (nonEmpty (headers i)) = true) ∧
  (k = "env" →
     truthy_ref (nonEmpty (env i)) = true
     ∨ String.eqb (agent i) "cursor" = true ∧ transport i = stdio
       ∧ truthy_ref (env i) = true).
Proof.
  unfold renderServer.
  destruct (String.eqb (agent i) "cursor"), (String.eqb (agent i) "gemini"),
    (String.eqb (agent i) "claude"), (transport i); cbv beta iota zeta; intros H;
    lookup_cases H; (split; intros Hk; try discriminate Hk); auto.
Qed.

End RenderSpec.

Module RenderClaims.
Import Render RenderSpec.

(** The shapes of the end-to-end scenario: gemini labels the endpoint
    [httpUrl] for http, cursor uses [url] with a [type] discriminator. *)
Example render_gemini_http :
  renderServer
    {| agent := "gemini"; serverId := "demo"; transport := http;
       url := Some "https://example.com/mcp";
       headers := Some {[ "Authorization" := "Bearer abcd1234efgh" ]};
       command := None; args := None; cwd := None; env := Some ∅;
       timeout := None |}
  = <[ "httpUrl" := VStr "https://example.com/mcp" ]>
      {[ "headers" := VObj {[ "Authorization" := VStr "Bearer abcd1234efgh" ]} ]}.
Proof. vm_compute. reflexivity. Qed.

Example render_cursor_sse :
  renderServer
    {| agent := "cursor"; serverId := "demo"; transport := sse;
       url := Some "https://example.com/mcp"; headers := Some ∅;
       command := None; args := None; cwd := None; env := None;
       timeout := None |}
  = <[ "type" := VStr "sse" ]> {[ "url" := VStr "https://example.com/mcp" ]}.
Proof. vm_compute. reflexivity. Qed.

(** The slip in the cursor/stdio branch: an empty [env] mapping is
    emitted, where the other branches test [nonEmpty]. *)
Example render_cursor_stdio_empty_env :
  renderServer cursor_stdio_input !! "env" = Some (VObj ∅).
Proof. vm_compute. reflexivity. Qed.

(** C10. For every render input, unrecognized agents included, the result
    of [renderMcpServer] has exactly one top-level key, the literal
    [mcpServers], and the object under it has exactly one entry, keyed by
    the input's [serverId] and holding the rendered server. *)
Theorem renderMcpServer_single_container (i : RenderInput) :
  dom (renderMcpServer i) = {[ "mcpServers" ]} ∧
  size (renderMcpServer i) = 1 ∧
  ∃ servers,
    renderMcpServer i !! "mcpServers" = Some servers ∧
    dom servers = {[ serverId i ]} ∧
    size servers = 1 ∧
    servers !! serverId i = Some (renderServer i).
Proof.
  unfold renderMcpServer. split; [apply dom_singleton_L|].
  split; [apply map_size_singleton|].
  exists {[ serverId i := renderServer i ]}.
  rewrite lookup_singleton_eq, dom_singleton_L, map_size_singleton.
  by rewrite lookup_singleton_eq.
Qed.

(** C2, as written, fails in the fallback branch: for an unrecognized agent
    on stdio with no command the server object has the key [command]
    holding [undefined]. *)
Lemma renderServer_fallback_undefined :
  renderServer fallback_stdio_input !! "command" = Some VUndefined ∧
  ¬ no_undefined_fields fallback_stdio_input.
Proof.
  assert (H : renderServer fallback_stdio_input !! "command" = Some VUndefined)
    by (vm_compute; reflexivity).
  split; [exact H|]. intros Hno. exact (Hno _ _ H eq_refl).
Qed.

(** C2, amended. For the three known agents no key of the server object
    holds [undefined]; every key is a [type]/[transport] discriminator or
    carries the present input field it is named after (so absent inputs
    give absent keys); a [headers] key appears only for a present,
    non-empty input mapping, and an [env] key only for a present input
    mapping, which is also non-empty for every pair other than
    cursor/stdio. In the fallback branch the leading key, [command] for
    stdio and [url] otherwise, is always present and holds the input
    field, so [undefined] when that is absent; no other key can hold
    [undefined]. *)
Theorem renderServer_omits_absent (i : RenderInput) :
  (recognized (agent i) = true → no_undefined_fields i) ∧
  (∀ k v, renderServer i !! k = Some v →
     (k = "type" ∨ k = "transport") ∧ (∃ s, v = VStr s) ∨ v = field_source i k) ∧
  (∀ k, renderServer i !! k = Some VUndefined →
     recognized (agent i) = false ∧
     (transport i = stdio ∧ k = "command" ∧ command i = None
      ∨ transport i ≠ stdio ∧ k = "url" ∧ url i = None)) ∧
  (recognized (agent i) = false →
     (transport i = stdio →
        renderServer i !! "command" = Some (of_opt_str (command i))) ∧
     (transport i ≠ stdio →
        renderServer i !! "url" = Some (of_opt_str (url i)))) ∧
  (∀ k v, renderServer i !! k = Some v → v ≠ VNull) ∧
  (is_Some (renderServer i !! "headers") →
     ∃ h, headers i = Some h ∧ h ≠ ∅) ∧
  (is_Some (renderServer i !! "env") →
     ∃ e, env i = Some e ∧
          (¬ (agent i = "cursor" ∧ transport i = stdio) → e ≠ ∅)).
Proof.
  repeat split.
  - intros Hrec k v H Hv. subst v.
    destruct (renderServer_fields _ _ _ H) as [(_ & s & Hs)|(_ & [[Hu _]|[Hf _]])];
      [discriminate Hs|by apply Hu|congruence].
  - intros k v H.
    destruct (renderServer_fields _ _ _ H) as [?|(? & _)]; auto.
  - destruct (renderServer_fields _ _ _ H) as [(_ & s & Hs)|(_ & [[Hu _]|[Hf _]])];
      [discriminate Hs|by destruct Hu|exact Hf].
  - destruct (renderServer_fields _ _ _ H) as [(_ & s & Hs)|(Hsrc & [[Hu _]|[_ Hf]])];
      [discriminate Hs|by destruct Hu|].
    destruct Hf as [[Ht ->]|[Ht ->]]; [left|right]; (split; [exact Ht|]);
      (split; [reflexivity|]); unfold field_source in Hsrc; simpl in Hsrc.
    + by destruct (command i).
    + by destruct (url i).
  - intros. by apply (renderServer_fallback_leading i).
  - intros. by apply (renderServer_fallback_leading i).
  - intros k v H ->.
    destruct (renderServer_fields _ _ _ H) as [(_ & s & Hs)|(Hsrc & [[_ Hn]|[_ Hf]])];
      [discriminate Hs|by apply Hn|].
    destruct Hf as [[_ ->]|[_ ->]]; unfold field_source in Hsrc; simpl in Hsrc.
    + by destruct (command i).
    + by destruct (url i).
  - intros [v H]. destruct (renderServer_dicts _ _ _ H) as [Hh _].
    apply nonEmpty_Some. by apply Hh.
  - intros [v H]. destruct (renderServer_dicts _ _ _ H) as [_ He].
    destruct (He eq_refl) as [Hne|(Ha & Ht & Hp)].
    + apply nonEmpty_Some in Hne as (e & -> & Hne). eauto.
    + destruct (env i) as [e|]; [|discriminate Hp]. exists e. split; [done|].
      intros Hnot. exfalso. apply Hnot. split; [by apply String.eqb_eq|done].
Qed.

(** The amended C2 at a cursor/stdio input with a command and an empty
    [env], and at a fallback input on http. *)
Lemma renderServer_omits_absent_witness :
  recognized (agent cursor_stdio_input) = true ∧
  no_undefined_fields cursor_stdio_input ∧
  renderServer cursor_stdio_input !! "headers" = None ∧
  (∃ e, env cursor_stdio_input = Some e) ∧
  recognized (agent fallback_http_input) = false ∧
  renderServer fallback_http_input !! "url" = Some (VStr "https://example.com/mcp").
Proof.
  destruct (renderServer_omits_absent cursor_stdio_input)
    as (Hundef & _ & _ & _ & _ & _ & Henv).
  destruct (renderServer_omits_absent fallback_http_input)
    as (_ & _ & _ & Hlead & _).
  split; [reflexivity|]. split; [exact (Hundef eq_refl)|].
  split; [vm_compute; reflexivity|]. split.
  - destruct Henv as (e & He & _); [|by exists e].
    exists (VObj ∅). vm_compute. reflexivity.
  - split; [reflexivity|].
    exact (proj2 (Hlead eq_refl) ltac:(discriminate)).
Defined.

End RenderClaims.

(** ** Strings as character lists *)

Module StringFacts.
Import Chars.

Lemma chars_app (a b : string) : chars (a ++ b) = (chars a ++ chars b)%list.
Proof. induction a as [|c a IH]; simpl; [reflexivity|by rewrite IH]. Qed.

Lemma chars_inj (a b : string) : chars a = chars b → a = b.
Proof.
  intros H. rewrite <- (string_of_list_ascii_of_string a),
    <- (string_of_list_ascii_of_string b). by rewrite H.
Qed.

Lemma chars_length (s : string) : length (chars s) = String.length s.
Proof. induction s as [|x s IH]; simpl; [reflexivity|by f_equal]. Qed.

Lemma string_app_length (a b : string) :
  String.length (a ++ b) = String.length a + String.length b.
Proof. rewrite <- !chars_length, chars_app. apply length_app. Qed.

Lemma string_app_assoc (a b c : string) : (a ++ b) ++ c = a ++ (b ++ c).
Proof. induction a as [|x a IH]; simpl; [reflexivity|by f_equal]. Qed.

Lemma string_app_nil_r (a : string) : a ++ "" = a.
Proof. induction a as [|x a IH]; simpl; [reflexivity|by f_equal]. Qed.

Lemma chars_string_drop (n : nat) (s : string) :
  chars (string_drop n s) = drop n (chars s).
Proof.
  revert s; induction n as [|n IH]; intros [|c s]; simpl; try reflexivity.
  apply IH.
Qed.

Lemma string_drop_length (n : nat) (s : string) :
  String.length (string_drop n s) = String.length s - n.
Proof. by rewrite <- !chars_length, chars_string_drop, length_drop. Qed.

Lemma string_drop_app (a b : string) : string_drop (String.length a) (a ++ b) = b.
Proof. induction a as [|x a IH]; simpl; [by destruct b|exact IH]. Qed.

Lemma has_char_In (c : ascii) (s : string) :
  has_char c s = true ↔ In c (chars s).
Proof.
  induction s as [|d s IH]; simpl; [split; [discriminate|tauto]|].
  rewrite orb_true_iff, IH, Ascii.eqb_eq. split; intros [?|?]; auto.
Qed.

Lemma has_char_app (c : ascii) (a b : string) :
  has_char c (a ++ b) = has_char c a || has_char c b.
Proof.
  induction a as [|x a IH]; simpl; [reflexivity|]. by rewrite IH, orb_assoc.
Qed.

Lemma string_drop_suffix (k : nat) (s : string) :
  ∃ p, s = p ++ string_drop k s ∧ String.length p = Nat.min k (String.length s).
Proof.
  revert s; induction k as [|k IH]; intros s.
  - by exists "".
  - destruct s as [|c s]; [by exists ""|].
    destruct (IH s) as (p & Hp & Hl). exists (String c p). simpl.
    split; [by rewrite <- Hp|]. by rewrite Hl.
Qed.

(** [s.slice(-n)] is a suffix of [s]. *)
Lemma slice_last_suffix (n : nat) (s : string) :
  ∃ p, s = p ++ slice_last n s ∧ String.length p = String.length s - n.
Proof.
  destruct (string_drop_suffix (String.length s - n) s) as (p & Hp & Hl).
  exists p. split; [exact Hp|lia].
Qed.

Lemma slice_last_length (n : nat) (s : string) :
  String.length (slice_last n s) = Nat.min n (String.length s).
Proof. unfold slice_last. rewrite string_drop_length. lia. Qed.

End StringFacts.

(** ** The masking law *)

Module MaskSpec.
Import Chars Mask StringFacts.

Lemma maskLast4_str (s : string) :
  s ≠ "" → maskLast4 (VStr s) = VStr ("****" ++ slice_last 4 s).
Proof. intros Hs. destruct s; [done|reflexivity]. Qed.

Lemma redact_str (s : string) : s ≠ "" → redact (Some s) = "****" ++ slice_last 4 s.
Proof. intros Hs. destruct s; [done|reflexivity]. Qed.

(** A text without asterisks that occurs in [****wxyz] at least four
    characters long is [wxyz]. *)
Lemma substring_of_masked (t l4 : string) :
  String.length l4 = 4 → 4 ≤ String.length t → has_char "*" t = false →
  substring_of t ("****" ++ l4) → t = l4.
Proof.
  intros Hl4 Ht Hstar (a & b & Heq).
  destruct a as [|a0 [|a1 [|a2 [|a3 a]]]]; simpl in Heq;
    try (destruct t as [|c t]; [simpl in Ht; lia|];
         simpl in Heq; simplify_eq; simpl in Hstar; discriminate Hstar).
  injection Heq as _ _ _ _ Heq.
  assert (Hlen := f_equal String.length Heq).
  rewrite !string_app_length in Hlen.
  destruct a; [|simpl in Hlen; lia]. destruct b; [|simpl in Hlen; lia].
  simpl in Heq. by rewrite string_app_nil_r in Heq.
Qed.

End MaskSpec.

Module MaskClaims.
Import Chars Mask StringFacts MaskSpec.

(** C3, as written, fails for a value that contains an asterisk: the mask
    of [*abcd] is [****abcd], in which [*abc], a substring of the value
    other than its last four characters, occurs (as does the whole
    value). *)
Lemma masking_law_asterisk_counterexample :
  4 ≤ String.length "*abcd" ∧
  maskLast4 (VStr "*abcd") = VStr "****abcd" ∧
  redact (Some "*abcd") = "****abcd" ∧
  substring_of "*abcd" "****abcd" ∧
  ¬ masking_law "*abcd" "****abcd".
Proof.
  split; [simpl; lia|]. split; [reflexivity|]. split; [reflexivity|].
  split; [by exists "***", ""|].
  intros (_ & _ & Hlaw).
  assert (H : "*abc" = slice_last 4 "*abcd").
  { apply Hlaw; [simpl; lia|by exists "", "d"|by exists "***", "d"]. }
  discriminate H.
Qed.

(** C3, amended. For every string [v] of length at least 4, [maskLast4]
    and [redact] both produce exactly [****] followed by the last four
    characters of [v], so the output ends as [v] does; and when [v]
    contains no asterisk, no other substring of [v] of length at least 4
    occurs in the output. *)
Theorem masking_law_holds (v : string) :
  4 ≤ String.length v →
  maskLast4 (VStr v) = VStr ("****" ++ slice_last 4 v) ∧
  redact (Some v) = "****" ++ slice_last 4 v ∧
  (∃ p, v = p ++ slice_last 4 v) ∧
  String.length (slice_last 4 v) = 4 ∧
  (has_char "*" v = false → masking_law v ("****" ++ slice_last 4 v)).
Proof.
  intros Hlen.
  assert (Hne : v ≠ "") by (intros ->; simpl in Hlen; lia).
  assert (Hl4 : String.length (slice_last 4 v) = 4)
    by (rewrite slice_last_length; lia).
  split; [by apply maskLast4_str|]. split; [by apply redact_str|].
  split; [destruct (slice_last_suffix 4 v) as (p & Hp & _); by exists p|].
  split; [exact Hl4|]. intros Hstar.
  split; [reflexivity|]. split; [exact Hl4|].
  intros t Ht (a & b & Hv) Hin.
  apply substring_of_masked; try assumption.
  rewrite Hv, !has_char_app in Hstar.
  by destruct (has_char "*" a), (has_char "*" t).
Qed.

(** The amended C3 at the bearer header of the end-to-end scenario. *)
Lemma masking_law_holds_witness :
  4 ≤ String.length "Bearer abcd1234efgh" ∧
  maskLast4 (VStr "Bearer abcd1234efgh") = VStr "****efgh" ∧
  redact (Some "Bearer abcd1234efgh") = "****efgh".
Proof.
  assert (H : 4 ≤ String.length "Bearer abcd1234efgh") by (simpl; lia).
  split; [exact H|].
  destruct (masking_law_holds "Bearer abcd1234efgh" H) as (Hm & Hr & _).
  split; [exact Hm|exact Hr].
Defined.

End MaskClaims.

(** ** The status redactor *)

Module StatusSpec.
Import Chars Mask Status StringFacts.

Lemma mask_entries_fold (test : string → bool) (b o : gmap string value) :
  map_fold (λ k v acc, if test k then <[k := maskLast4 v]> acc else acc) b o
  = map_imap (λ k v, if test k then Some (maskLast4 v) else None) o ∪ b.
Proof.
  apply (map_fold_weak_ind (λ r m,
    r = map_imap (λ k v, if test k then Some (maskLast4 v) else None) m ∪ b)).
  - by rewrite map_imap_empty, (left_id_L ∅ (∪)).
  - intros i v m r Hi ->. destruct (test i) eqn:Ht.
    + rewrite (map_imap_insert_Some _ _ _ _ (maskLast4 v)) by (by rewrite Ht).
      by rewrite insert_union_l.
    + rewrite map_imap_insert_None by (by rewrite Ht).
      rewrite delete_id; [done|]. by rewrite map_lookup_imap, Hi.
Qed.

Lemma mask_entries_lookup (test : string → bool) (o : gmap string value) k :
  mask_entries test o !! k = mask_if test k <$> o !! k.
Proof.
  unfold mask_entries, mask_if. rewrite mask_entries_fold, lookup_union, map_lookup_imap.
  destruct (o !! k) as [v|]; simpl; [|done]. by destruct (test k).
Qed.

Lemma mask_entries_dom (test : string → bool) (o : gmap string value) :
  dom (mask_entries test o) = dom o.
Proof.
  apply set_eq. intros k. rewrite !elem_of_dom, mask_entries_lookup.
  apply fmap_is_Some.
Qed.

(** Array indices are spelled with digits, which neither pattern accepts. *)
Lemma SENSITIVE_KEYS_index (i : nat) : SENSITIVE_KEYS (index_key i) = false.
Proof.
  unfold index_key. destruct (Nat.to_uint i); reflexivity.
Qed.

Lemma ENV_SENSITIVE_digits (d : Decimal.uint) :
  ENV_SENSITIVE (NilEmpty.string_of_uint d) = false.
Proof.
  induction d as [|d IH|d IH|d IH|d IH|d IH|d IH|d IH|d IH|d IH|d IH];
    [reflexivity|..]; unfold ENV_SENSITIVE in *; simpl in *; exact IH.
Qed.

Lemma ENV_SENSITIVE_index (i : nat) : ENV_SENSITIVE (index_key i) = false.
Proof.
  unfold index_key. destruct (Nat.to_uint i) eqn:E; [reflexivity|..];
    apply ENV_SENSITIVE_digits.
Qed.

Lemma mask_items_id (test : string → bool) (l : list value) :
  (∀ i, test (index_key i) = false) → mask_items test l = l.
Proof.
  intros Htest. unfold mask_items. generalize (imap pair l) as xs.
  intros xs; revert l; induction xs as [|[i v] xs IH]; intros acc; simpl;
    [reflexivity|]. rewrite Htest. apply IH.
Qed.

Lemma mask_field_lookup (test : string → bool) (f : string) (m : gmap string value) k :
  mask_field test f m !! k
  = (if decide (k = f) then mask_container test else id) <$> m !! k.
Proof.
  unfold mask_field. destruct (m !! f) as [v|] eqn:Hf.
  - case_decide as Hk.
    + subst k. by rewrite lookup_insert_eq, Hf.
    + rewrite lookup_insert_ne by done. by destruct (m !! k).
  - case_decide as Hk; [subst k; by rewrite Hf|by destruct (m !! k)].
Qed.

Lemma redactSensitive_lookup (x : gmap string value) k :
  redactSensitive x !! k = redact_at k <$> x !! k.
Proof.
  unfold redactSensitive, structuredCloneSafe, redact_at.
  rewrite mask_entries_lookup, !mask_field_lookup.
  destruct (x !! k) as [v|]; simpl; [|done]. f_equal.
  destruct (decide (k = "headers")) as [->|Hh].
  - by destruct (decide ("headers" = "env")).
  - destruct (decide (k = "env")) as [->|He]; [|done]. reflexivity.
Qed.

(** The redacted object has the keys of the input, at the top level and
    inside [headers] and [env]; every other nested value is the input's. *)
Lemma redactSensitive_keys (x : gmap string value) :
  dom (redactSensitive x) = dom x ∧
  (∀ k v, x !! k = Some v → k ≠ "headers" → k ≠ "env" →
     ∃ v', redactSensitive x !! k = Some v' ∧
           (v' = v ∨ ∃ s, v = VStr s ∧ v' = maskLast4 v)) ∧
  (∀ f h, (f = "headers" ∨ f = "env") → x !! f = Some (VObj h) →
     ∃ h', redactSensitive x !! f = Some (VObj h') ∧ dom h' = dom h).
Proof.
  split; [|split].
  - apply set_eq. intros k. rewrite !elem_of_dom, redactSensitive_lookup.
    apply fmap_is_Some.
  - intros k v Hk Hh He. rewrite redactSensitive_lookup, Hk. simpl.
    eexists; split; [reflexivity|]. unfold redact_at, mask_if.
    rewrite !decide_False by done.
    destruct (SENSITIVE_KEYS k); [|by left].
    destruct v; auto. right. eauto.
  - intros f h Hf Hx. rewrite redactSensitive_lookup, Hx. simpl.
    unfold redact_at. destruct Hf as [-> | ->].
    + rewrite decide_True by done. eexists; split; [reflexivity|].
      apply mask_entries_dom.
    + rewrite decide_False by done. rewrite decide_True by done.
      eexists; split; [reflexivity|]. apply mask_entries_dom.
Qed.

Lemma slice_last_app (a b : string) :
  slice_last (String.length b) (a ++ b) = b.
Proof.
  unfold slice_last. rewrite string_app_length.
  replace (String.length a + String.length b - String.length b)
    with (String.length a) by lia.
  apply string_drop_app.
Qed.

(** Masking a mask again changes nothing, unless the value was a string
    of one to three characters. *)
Lemma maskLast4_idem (v : value) :
  short_string v = false → maskLast4 (maskLast4 v) = maskLast4 v.
Proof.
  intros Hshort. destruct v as [| | | |s| |]; try reflexivity.
  assert (Hlen : String.length s = 0 ∨ 4 ≤ String.length s).
  { unfold short_string in Hshort.
    apply andb_false_iff in Hshort as [H|H]; apply Nat.leb_gt in H; lia. }
  destruct Hlen as [H0|H4].
  - destruct s; [reflexivity|simpl in H0; lia].
  - assert (Hl4 : String.length (slice_last 4 s) = 4)
      by (rewrite slice_last_length; lia).
    rewrite (MaskSpec.maskLast4_str s) by (intros ->; simpl in H4; lia).
    rewrite MaskSpec.maskLast4_str by discriminate.
    f_equal. f_equal. rewrite <- Hl4 at 1.
    apply (slice_last_app "****" (slice_last 4 s)).
Qed.

Lemma mask_container_idem (test : string → bool) (v : value) :
  (∀ i, test (index_key i) = false) →
  (∀ m k w, v = VObj m → m !! k = Some w → test k = true → short_string w = false) →
  mask_container test (mask_container test v) = mask_container test v.
Proof.
  intros Hidx Hm. destruct v as [| | | | |l|m]; try reflexivity; simpl.
  - by rewrite !mask_items_id.
  - f_equal. apply map_eq. intros k. rewrite !mask_entries_lookup.
    destruct (m !! k) as [w|] eqn:Hk; simpl; [|done]. f_equal.
    unfold mask_if. destruct (test k) eqn:Ht; [|done].
    apply maskLast4_idem. by eapply Hm.
Qed.

End StatusSpec.

Module StatusClaims.
Import Chars Mask Status StringFacts StatusSpec.

(** The read-back of the end-to-end scenario: the bearer header is
    reported as [****efgh], the endpoint as it is. *)
Example redactSensitive_demo_entry :
  redactSensitive demo_entry
  = <[ "headers" := VObj {[ "Authorization" := VStr "****efgh" ]} ]>
      {[ "url" := VStr "https://example.com/mcp" ]}.
Proof. vm_compute. reflexivity. Qed.

Example ENV_SENSITIVE_examples :
  ENV_SENSITIVE "MY_API_TOKEN" = true ∧ ENV_SENSITIVE "PATH" = false ∧
  SENSITIVE_KEYS "Api-Key" = true ∧ SENSITIVE_KEYS "MY_API_TOKEN" = false.
Proof. repeat split; reflexivity. Qed.

(** C4, as written, fails for a sensitive value shorter than four
    characters: the first pass turns [ab] into [****ab], the second turns
    that into [******ab]. *)
Lemma redactSensitive_short_not_idempotent :
  redactSensitive {[ "token" := VStr "ab" ]} !! "token" = Some (VStr "****ab") ∧
  redactSensitive (redactSensitive {[ "token" := VStr "ab" ]}) !! "token"
    = Some (VStr "******ab") ∧
  redactSensitive (redactSensitive {[ "token" := VStr "ab" ]})
    ≠ redactSensitive {[ "token" := VStr "ab" ]}.
Proof.
  assert (H1 : redactSensitive {[ "token" := VStr "ab" ]} !! "token"
               = Some (VStr "****ab")).
  { by rewrite redactSensitive_lookup, lookup_singleton_eq. }
  assert (H2 : redactSensitive (redactSensitive {[ "token" := VStr "ab" ]}) !! "token"
               = Some (VStr "******ab")).
  { by rewrite redactSensitive_lookup, H1. }
  split; [exact H1|]. split; [exact H2|].
  intros Heq. rewrite Heq, H1 in H2. discriminate H2.
Qed.

(** C4, amended. [redactSensitive] is idempotent on every object in which
    no value that it masks (under a sensitive key at the top level or in
    [headers], or under a sensitive variable name in [env]) is a string
    of one to three characters. *)
Theorem redactSensitive_idempotent (x : gmap string value) :
  no_short_secret x →
  redactSensitive (redactSensitive x) = redactSensitive x.
Proof.
  intros (Htop & Hhdr & Henv). apply map_eq. intros k.
  rewrite !redactSensitive_lookup.
  destruct (x !! k) as [v|] eqn:Hk; simpl; [|done]. f_equal.
  unfold redact_at. destruct (decide (k = "headers")) as [->|Hh].
  { apply mask_container_idem; [apply SENSITIVE_KEYS_index|].
    intros m k w -> Hw Ht. by eapply Hhdr. }
  destruct (decide (k = "env")) as [->|He].
  { apply mask_container_idem; [apply ENV_SENSITIVE_index|].
    intros m k w -> Hw Ht. by eapply Henv. }
  unfold mask_if. destruct (SENSITIVE_KEYS k) eqn:Ht; [|done].
  apply maskLast4_idem. by eapply Htop.
Qed.

(** The amended C4 at an entry with a bearer header. *)
Lemma redactSensitive_idempotent_witness :
  no_short_secret demo_entry ∧
  redactSensitive (redactSensitive demo_entry) = redactSensitive demo_entry.
Proof.
  assert (H : no_short_secret demo_entry).
  { unfold demo_entry. split; [|split].
    - intros k v Hk Hs. apply lookup_insert_Some in Hk as [[<- <-]|[_ Hk]];
        [reflexivity|]. apply lookup_singleton_Some in Hk as [<- <-]. reflexivity.
    - intros h k v Hh Hk Hs. rewrite lookup_insert_eq in Hh.
      injection Hh as <-. apply lookup_singleton_Some in Hk as [<- <-]. reflexivity.
    - intros e k v He. rewrite lookup_insert_ne in He by done.
      apply lookup_singleton_Some in He as [He _]. discriminate He. }
  split; [exact H|]. exact (redactSensitive_idempotent demo_entry H).
Defined.

End StatusClaims.

(** ** The log redactor *)

(** ** Facts about characters *)

Module CharFacts.
Import Chars Regex LineSpec.

Lemma all_ascii_complete (c : ascii) : In c all_ascii.
Proof.
  unfold all_ascii. rewrite <- (ascii_nat_embedding c).
  apply in_map, in_seq. pose proof (nat_ascii_bounded c). lia.
Qed.

(** A boolean property of characters holds of all of them when it holds
    of each of the 256. *)
Lemma ascii_forall (P : ascii → bool) :
  forallb P all_ascii = true → ∀ c, P c = true.
Proof. intros H c. eapply forallb_forall in H; [exact H|apply all_ascii_complete]. Qed.

Lemma sep_to_upper (c : ascii) : sep (to_upper c) = sep c.
Proof.
  apply Bool.eqb_prop.
  apply (ascii_forall (λ c, Bool.eqb (sep (to_upper c)) (sep c))).
  vm_compute. reflexivity.
Qed.

Lemma eq_ci_sep (p c : ascii) : eq_ci p c = true → sep c = sep p.
Proof.
  unfold eq_ci. intros H%Ascii.eqb_eq.
  by rewrite <- (sep_to_upper c), <- H, sep_to_upper.
Qed.

Lemma newline_is_space (c : ascii) : is_newline c = true → is_space c = true.
Proof.
  apply implb_true_iff.
  apply (ascii_forall (λ c, implb (is_newline c) (is_space c))).
  vm_compute. reflexivity.
Qed.

Lemma token_char_dot (c : ascii) : token_char c = true → dot c = true.
Proof.
  apply implb_true_iff.
  apply (ascii_forall (λ c, implb (token_char c) (dot c))).
  vm_compute. reflexivity.
Qed.

Lemma space_is_sep (c : ascii) : is_space c = true → sep c = true.
Proof. unfold sep. by intros ->. Qed.

(** Lower-casing keeps the canonical form of a character that it takes
    into the ASCII range. *)
Lemma to_lower_upper (c : ascii) :
  (code (to_lower c) <? 128) = true → to_upper (to_lower c) = to_upper c.
Proof.
  intros H. apply Ascii.eqb_eq. revert H. apply implb_true_iff.
  apply (ascii_forall
           (λ c, implb (code (to_lower c) <? 128)
                       (Ascii.eqb (to_upper (to_lower c)) (to_upper c)))).
  vm_compute. reflexivity.
Qed.

Lemma to_lower_idem (c : ascii) : to_lower (to_lower c) = to_lower c.
Proof.
  apply Ascii.eqb_eq.
  apply (ascii_forall (λ c, Ascii.eqb (to_lower (to_lower c)) (to_lower c))).
  vm_compute. reflexivity.
Qed.

End CharFacts.

(** ** Facts about the matchers *)

Module RegexFacts.
Import Chars Regex LineSpec CharFacts.
#[local] Open Scope list_scope.

(** A literal word set against a word of non-separators followed by a
    separator (or the end): the literal matches when the two words are
    equal, and what follows it must then start at the separator. *)
Lemma lit_ci_word {R} (w : text) (K : text → option R) (t rest : text) :
  forallb nonsep w = true → forallb nonsep t = true →
  needs_sep K → starts sep rest = true →
  lit_ci w K (t ++ rest) = if ci_eqb w t then K rest else None.
Proof.
  intros Hw Ht HK Hrest. revert t Ht.
  induction w as [|p w IH]; intros t Ht.
  - destruct t as [|c t]; simpl; [reflexivity|].
    apply HK. simpl in Ht. apply andb_true_iff in Ht as [Hc _].
    by apply negb_true_iff in Hc.
  - simpl in Hw. apply andb_true_iff in Hw as [Hp Hw].
    apply negb_true_iff in Hp.
    destruct t as [|c t]; simpl.
    + destruct rest as [|c rest]; [reflexivity|]. simpl in Hrest.
      destruct (eq_ci p c) eqn:E; [|reflexivity].
      apply eq_ci_sep in E. congruence.
    + simpl in Ht. apply andb_true_iff in Ht as [_ Ht].
      destruct (eq_ci p c); simpl; [by apply IH|reflexivity].
Qed.

(** A literal word fails on an input that starts with a separator. *)
Lemma lit_ci_sep {R} (p : ascii) (w : text) (K : text → option R) (c : ascii) (r : text) :
  nonsep p = true → sep c = true → lit_ci (p :: w) K (c :: r) = None.
Proof.
  intros Hp Hc. simpl. destruct (eq_ci p c) eqn:E; [|reflexivity].
  apply eq_ci_sep in E. apply negb_true_iff in Hp. congruence.
Qed.

(** A greedy star reads a whole run when what follows succeeds there. *)
Lemma star_greedy_run {R} (cls : ascii → bool) (K : text → option R) (ws s : text) r :
  forallb cls ws = true → starts (λ c, negb (cls c)) s = true →
  K s = Some r → star_greedy cls K (ws ++ s) = Some r.
Proof.
  intros Hws Hs HK. induction ws as [|c ws IH]; simpl.
  - destruct s as [|c s]; simpl; [exact HK|].
    simpl in Hs. apply negb_true_iff in Hs. by rewrite Hs.
  - simpl in Hws. apply andb_true_iff in Hws as [-> Hws]. by rewrite IH.
Qed.

(** The lazy [.+?] before the lookahead reads up to the end of the line. *)
Lemma plus_lazy_line (s1 v p : text) :
  v ≠ [] → forallb dot v = true → at_line_end p = true →
  plus_lazy dot (λ s2, if at_line_end s2 then Some (s1, s2) else None) (v ++ p)
  = Some (s1, p).
Proof.
  intros Hv Hdot Hp. induction v as [|c v IH]; [done|]. simpl.
  simpl in Hdot. apply andb_true_iff in Hdot as [Hc Hdot]. rewrite Hc.
  destruct v as [|c' v].
  - simpl. by rewrite Hp.
  - simpl in Hdot. apply andb_true_iff in Hdot as [Hc' Hdot'].
    assert (Hnl : at_line_end ((c' :: v) ++ p) = false).
    { simpl. unfold dot in Hc'. by apply negb_true_iff in Hc'. }
    rewrite Hnl. apply IH; [done|]. simpl. by rewrite Hc', Hdot'.
Qed.

(** Inversion: what a successful matcher has read. *)
Lemma lit_ci_inv {R} (w : text) (K : text → option R) (s : text) r :
  lit_ci w K s = Some r →
  ∃ a s', s = a ++ s' ∧ length a = length w ∧ K s' = Some r.
Proof.
  revert s; induction w as [|p w IH]; intros s H; simpl in H.
  - by exists [], s.
  - destruct s as [|c s]; [discriminate|].
    destruct (eq_ci p c); [|discriminate].
    destruct (IH _ H) as (a & s' & -> & Hl & HK).
    exists (c :: a), s'. simpl. by rewrite Hl.
Qed.

Lemma star_greedy_inv {R} (cls : ascii → bool) (K : text → option R) (s : text) r :
  star_greedy cls K s = Some r →
  ∃ a s', s = a ++ s' ∧ forallb cls a = true ∧ K s' = Some r.
Proof.
  induction s as [|c s IH]; simpl; intros H.
  - by exists [], [].
  - destruct (cls c) eqn:Hc; [|by exists [], (c :: s)].
    destruct (star_greedy cls K s) as [r'|] eqn:Hs.
    + injection H as ->. destruct (IH eq_refl) as (a & s' & -> & Ha & HK).
      exists (c :: a), s'. simpl. by rewrite Hc, Ha.
    + by exists [], (c :: s).
Qed.

Lemma plus_greedy_inv {R} (cls : ascii → bool) (K : text → option R) (s : text) r :
  plus_greedy cls K s = Some r →
  ∃ a s', s = a ++ s' ∧ a ≠ [] ∧ forallb cls a = true ∧ K s' = Some r.
Proof.
  destruct s as [|c s]; simpl; [discriminate|].
  destruct (cls c) eqn:Hc; [|discriminate]. intros H.
  destruct (star_greedy_inv _ _ _ _ H) as (a & s' & -> & Ha & HK).
  exists (c :: a), s'. simpl. by rewrite Hc, Ha.
Qed.

Lemma plus_lazy_inv {R} (cls : ascii → bool) (K : text → option R) (s : text) r :
  plus_lazy cls K s = Some r →
  ∃ a s', s = a ++ s' ∧ a ≠ [] ∧ forallb cls a = true ∧ K s' = Some r.
Proof.
  induction s as [|c s IH]; simpl; [discriminate|].
  destruct (cls c) eqn:Hc; [|discriminate]. intros H.
  destruct (K s) as [r'|] eqn:HK.
  - injection H as ->. exists [c], s. simpl. by rewrite Hc.
  - destruct (IH H) as (a & s' & -> & Ha & Hcls & HK').
    exists (c :: a), s'. simpl. by rewrite Hc, Hcls.
Qed.

Lemma bearer_re_sound : sound bearer_re.
Proof.
  intros s s1 s2 H. unfold bearer_re in H.
  apply lit_ci_inv in H as (a & sa & -> & Hla & H).
  apply plus_greedy_inv in H as (b & sb & -> & Hb & _ & H).
  apply plus_greedy_inv in H as (g2 & s2' & -> & Hg2 & Htok & H).
  injection H as <- <-.
  exists (a ++ b), g2. rewrite <- app_assoc. repeat split; try done.
  - destruct a; [|done]. by destruct b.
  - apply forallb_forall. intros c Hc.
    eapply forallb_forall in Htok; [|exact Hc]. by apply token_char_dot.
Qed.

Lemma header_re_sound (key : string) : sound (header_re key).
Proof.
  intros s s1 s2 H. unfold header_re in H.
  apply lit_ci_inv in H as (a & sa & -> & Hla & H).
  apply star_greedy_inv in H as (b & sb & -> & _ & H).
  apply lit_ci_inv in H as (c & sc & -> & Hlc & H).
  apply star_greedy_inv in H as (d & sd & -> & _ & H).
  apply plus_lazy_inv in H as (g2 & s2' & -> & Hg2 & Hdot & H).
  destruct (at_line_end s2'); [|discriminate]. injection H as <- <-.
  exists (a ++ b ++ c ++ d), g2. rewrite <- !app_assoc. repeat split; try done.
  destruct c; [simpl in Hlc; lia|]. by destruct a, b.
Qed.

End RegexFacts.

(** ** Facts about global replacement *)

Module ReplaceFacts.
Import Chars Regex LineSpec CharFacts RegexFacts.
#[local] Open Scope list_scope.

Section replace.
Context (re : text → option groups) (ph : string).

Lemma replace_go_skip (n : nat) (s : text) :
  replace_go re (list_ascii_of_string ph) n s = replace_all re ph (drop n s).
Proof.
  revert n; induction s as [|c s IH]; intros [|n]; try reflexivity.
  simpl. apply IH.
Qed.

Lemma replace_all_nil : replace_all re ph [] = [].
Proof. reflexivity. Qed.

Lemma replace_all_miss (c : ascii) (s : text) :
  re (c :: s) = None → replace_all re ph (c :: s) = c :: replace_all re ph s.
Proof. intros H. unfold replace_all. simpl. by rewrite H. Qed.

Lemma replace_all_hit (s s1 s2 g1 g2 : text) :
  re s = Some (s1, s2) → s = g1 ++ s1 → s1 = g2 ++ s2 → g1 ≠ [] →
  replace_all re ph s = g1 ++ list_ascii_of_string ph ++ replace_all re ph s2.
Proof.
  intros Hre -> -> Hg1. destruct g1 as [|c g1]; [done|].
  unfold replace_all at 1. simpl. simpl in Hre. rewrite Hre, replace_go_skip.
  rewrite !length_app.
  replace (S (length g1 + (length g2 + length s2)) - (length g2 + length s2))
    with (S (length g1)) by lia.
  replace (S (length g1 + (length g2 + length s2)) - length s2 - 1)
    with (length (g1 ++ g2)) by (rewrite length_app; lia).
  simpl. rewrite take_app_length.
  by rewrite (app_assoc g1 g2 s2), drop_app_length.
Qed.

(** The output starts as the input does. *)
Lemma replace_all_head (s : text) :
  sound re → hd_error (replace_all re ph s) = hd_error s.
Proof.
  intros Hsound. destruct s as [|c s]; [reflexivity|].
  destruct (re (c :: s)) as [[s1 s2]|] eqn:Hre.
  - destruct (Hsound _ _ _ Hre) as (g1 & g2 & Hs & Hs1 & Hg1 & _).
    rewrite (replace_all_hit _ _ _ _ _ Hre Hs Hs1 Hg1).
    destruct g1 as [|c' g1]; [done|]. by injection Hs as -> _.
  - by rewrite replace_all_miss.
Qed.

(** One pass over a line [v] followed by [p], which is empty or starts
    with a line break: the output is again a line, starting as [v] does,
    followed by a text starting as [p] does. *)
Lemma replace_all_line (v p : text) :
  sound re → forallb dot (list_ascii_of_string ph) = true →
  forallb dot v = true → at_line_end p = true →
  ∃ v' p', replace_all re ph (v ++ p) = v' ++ p' ∧
           forallb dot v' = true ∧ hd_error v' = hd_error v ∧
           hd_error p' = hd_error p.
Proof.
  intros Hsound Hph. remember (length v) as n eqn:Hn.
  revert v Hn. induction n as [n IH] using lt_wf_ind. intros v Hn Hv Hp.
  destruct v as [|c v].
  { exists [], (replace_all re ph p). simpl.
    repeat split; try done. by apply replace_all_head. }
  destruct (re ((c :: v) ++ p)) as [[s1 s2]|] eqn:Hre.
  - destruct (Hsound _ _ _ Hre) as (g1 & g2 & Hs & Hs1 & Hg1 & Hg2 & Hdot).
    rewrite (replace_all_hit _ _ _ _ _ Hre Hs Hs1 Hg1).
    destruct (decide (length (g1 ++ g2) ≤ length (c :: v))) as [Hin|Hout].
    + (* the match lies within the line *)
      assert (Hsplit : c :: v = (g1 ++ g2) ++ drop (length (g1 ++ g2)) (c :: v)
                       ∧ s2 = drop (length (g1 ++ g2)) (c :: v) ++ p).
      { rewrite Hs1, app_assoc in Hs.
        pose proof (f_equal (take (length (g1 ++ g2))) Hs) as Ht.
        rewrite take_app_le, take_app_length in Ht by done.
        pose proof (f_equal (drop (length (g1 ++ g2))) Hs) as Hd.
        rewrite drop_app_le, drop_app_length in Hd by done.
        split; [|done].
        rewrite <- (take_drop (length (g1 ++ g2)) (c :: v)) at 1. by rewrite Ht. }
      destruct Hsplit as [Hcv ->].
      set (v2 := drop (length (g1 ++ g2)) (c :: v)) in *.
      assert (Hv2 : forallb dot v2 = true ∧ forallb dot g1 = true).
      { rewrite Hcv, !forallb_app in Hv.
        by repeat (apply andb_true_iff in Hv as [Hv ?]). }
      destruct Hv2 as [Hv2 Hdg1].
      destruct (IH (length v2)) with (v := v2) as (v' & p' & -> & Hv' & _ & Hp');
        [|done|done|done|].
      { rewrite Hn, Hcv at 1. rewrite length_app.
        destruct g1; [done|]. simpl. lia. }
      exists (g1 ++ list_ascii_of_string ph ++ v'), p'.
      rewrite <- !app_assoc. repeat split; try done.
      * by rewrite !forallb_app, Hdg1, Hph, Hv'.
      * rewrite Hcv. by destruct g1.
    + (* the match runs past the end of the line: the line break is in group 1 *)
      assert (Hg1v : length (c :: v) < length g1).
      { destruct (decide (length (c :: v) < length g1)) as [|Hge]; [done|exfalso].
        rewrite Hs1, app_assoc in Hs.
        assert (Hlook : (g1 ++ g2) !! length (c :: v) = p !! 0).
        { rewrite <- (lookup_app_l _ s2) by lia. rewrite <- Hs.
          rewrite lookup_app_r by lia. f_equal. lia. }
        rewrite lookup_app_r in Hlook by lia.
        destruct (g2 !! (length (c :: v) - length g1)) as [x|] eqn:Hx.
        * destruct p as [|c0 p]; [done|]. injection Hlook as <-.
          apply list_elem_of_lookup_2, list_elem_of_In in Hx.
          eapply forallb_forall in Hdot; [|exact Hx].
          simpl in Hp. unfold dot in Hdot. by rewrite Hp in Hdot.
        * apply lookup_ge_None in Hx. rewrite length_app in Hout. lia. }
      assert (Hg1s : g1 = (c :: v) ++ take (length g1 - length (c :: v)) p
                     ∧ 0 < length g1 - length (c :: v)
                     ∧ length g1 - length (c :: v) ≤ length p).
      { pose proof (f_equal length Hs) as Hl. rewrite !length_app in Hl.
        pose proof (f_equal (take (length g1)) Hs) as Ht.
        rewrite take_app_length, take_app_ge in Ht by lia.
        split; [done|]. lia. }
      destruct Hg1s as (Hg1eq & Hpos & Hle).
      exists (c :: v),
        (take (length g1 - length (c :: v)) p ++ list_ascii_of_string ph
           ++ replace_all re ph s2).
      repeat split; try done.
      * rewrite Hg1eq at 1. by rewrite <- !app_assoc.
      * destruct p as [|c0 p]; [simpl in *; lia|].
        destruct (length g1 - length (c :: v)); [lia|done].
  - rewrite <- app_comm_cons, replace_all_miss by done.
    simpl in Hv. apply andb_true_iff in Hv as [Hc Hv].
    destruct (IH (length v)) with (v := v) as (v' & p' & -> & Hv' & _ & Hp');
      [simpl in Hn; lia|done|done|done|].
    exists (c :: v'), p'. repeat split; try done. simpl. by rewrite Hc, Hv'.
Qed.

End replace.

End ReplaceFacts.

(** ** Scanning a header line *)

Module ScanFacts.
Import Chars Regex LineSpec CharFacts RegexFacts ReplaceFacts.
#[local] Open Scope list_scope.

Lemma ci_eqb_length (w t : text) : ci_eqb w t = true → length w = length t.
Proof.
  revert t; induction w as [|p w IH]; intros [|c t]; simpl; try done.
  intros [_ H]%andb_true_iff. by rewrite (IH _ H).
Qed.

Lemma ci_eqb_upper (w t t' : text) :
  to_upper <$> t = to_upper <$> t' → ci_eqb w t = ci_eqb w t'.
Proof.
  revert t t'; induction w as [|p w IH]; intros [|c t] [|c' t'] H; try done.
  simpl in *. injection H as Hc Ht. unfold eq_ci. rewrite Hc.
  f_equal. by apply IH.
Qed.

Lemma is_suffix_ci_upper (w t t' : text) :
  to_upper <$> t = to_upper <$> t' → is_suffix_ci w t = is_suffix_ci w t'.
Proof.
  intros H. unfold is_suffix_ci.
  assert (Hl : length t = length t').
  { by rewrite <- (length_fmap to_upper t), H, length_fmap. }
  rewrite Hl. f_equal. apply ci_eqb_upper. by rewrite !fmap_drop, H.
Qed.

Lemma is_suffix_ci_miss (w t : text) i :
  is_suffix_ci w t = false → i < length t → ci_eqb w (drop i t) = false.
Proof.
  intros Hs Hi. destruct (ci_eqb w (drop i t)) eqn:E; [|done].
  pose proof (ci_eqb_length _ _ E) as Hl. rewrite length_drop in Hl.
  unfold is_suffix_ci in Hs.
  replace (length t - length w) with i in Hs by lia. rewrite E in Hs.
  apply andb_false_iff in Hs as [Hs|Hs]; [|done]. apply Nat.leb_gt in Hs. lia.
Qed.

Lemma is_suffix_ci_hit (w t : text) :
  is_suffix_ci w t = true →
  length w ≤ length t ∧ ci_eqb w (drop (length t - length w) t) = true ∧
  ∀ i, i < length t - length w → ci_eqb w (drop i t) = false.
Proof.
  intros [Hl%Nat.leb_le He]%andb_true_iff. repeat split; try done.
  intros i Hi. destruct (ci_eqb w (drop i t)) eqn:E; [|done].
  apply ci_eqb_length in E. rewrite length_drop in E. lia.
Qed.

Lemma lit_blocked_None {R} (w a q : text) (K : text → option R) :
  needs_sep K → lit_blocked w a = true → lit_ci w K (a ++ q) = None.
Proof.
  intros HK. revert a; induction w as [|p w IH]; intros [|c a] H; simpl in *;
    try done.
  - apply HK. by apply negb_true_iff.
  - destruct (eq_ci p c); [by apply IH|done].
Qed.

Section scan.
Context (p0 : ascii) (w0 : text) (K : text → option groups) (ph : string).
Let w := p0 :: w0.
Let re := lit_ci w K.
Context (Hw : forallb nonsep w = true) (HK : needs_sep K).

(** Inside a word of non-separators the literal is tried at each offset
    and fails as long as the rest of the word is another word. *)
Lemma scan_word (t rest : text) (n : nat) :
  forallb nonsep t = true → starts sep rest = true → n ≤ length t →
  (∀ i, i < n → ci_eqb w (drop i t) = false) →
  replace_all re ph (t ++ rest) = take n t ++ replace_all re ph (drop n t ++ rest).
Proof.
  revert n; induction t as [|c t IH]; intros n Ht Hrest Hn Hmiss.
  - simpl in Hn. by replace n with 0 by lia.
  - destruct n as [|n]; [reflexivity|].
    simpl in Ht. apply andb_true_iff in Ht as [Hc Ht].
    rewrite <- app_comm_cons, replace_all_miss.
    + simpl. f_equal. apply IH; try done; [simpl in Hn; lia|].
      intros i Hi. apply (Hmiss (S i)). lia.
    + unfold re. rewrite app_comm_cons, lit_ci_word; try done.
      * pose proof (Hmiss 0 ltac:(lia)) as H0.
        change (ci_eqb w (c :: t) = false) in H0. by rewrite H0.
      * simpl. by rewrite Hc, Ht.
Qed.

Lemma scan_seps (ws s : text) :
  forallb sep ws = true →
  replace_all re ph (ws ++ s) = ws ++ replace_all re ph s.
Proof.
  induction ws as [|c ws IH]; [reflexivity|]. simpl.
  intros [Hc Hws]%andb_true_iff.
  rewrite replace_all_miss, IH; try done.
  apply lit_ci_sep; [|done]. simpl in Hw. by apply andb_true_iff in Hw as [? _].
Qed.

Lemma scan_blocked (v q : text) :
  stable_under w v = true →
  replace_all re ph (v ++ q) = v ++ replace_all re ph q.
Proof.
  unfold stable_under. induction v as [|c v IH]; [reflexivity|].
  intros H.
  assert (H' : lit_blocked w (c :: v) = true ∧
               forallb (λ i, lit_blocked w (drop i v)) (seq 0 (length v)) = true).
  { cbn [length seq forallb] in H. apply andb_true_iff in H as [H0 H].
    split; [exact H0|]. rewrite <- seq_shift in H.
    apply forallb_forall. intros i Hi.
    eapply forallb_forall in H; [|apply in_map; exact Hi]. exact H. }
  destruct H' as [H0 H'].
  rewrite <- app_comm_cons, replace_all_miss.
  - rewrite <- app_comm_cons. f_equal. by apply IH.
  - unfold re. rewrite app_comm_cons. by apply lit_blocked_None.
Qed.

End scan.

End ScanFacts.

(** ** The passes of [redactString] over a header line *)

Module HeaderLine.
Import Chars Regex Proxy LineSpec CharFacts RegexFacts ReplaceFacts ScanFacts.
#[local] Open Scope list_scope.

Lemma header_re_lit (key : string) :
  header_re key = lit_ci (list_ascii_of_string key) header_tail.
Proof. reflexivity. Qed.

Lemma bearer_re_lit :
  bearer_re = lit_ci (list_ascii_of_string "--oauth2Bearer") bearer_tail.
Proof. reflexivity. Qed.

Lemma redact_text_passes (s : text) :
  redact_text s =
  fold_left (λ out '(key, ph), replace_all (header_re key) ph out)
    header_passes (replace_all bearer_re "<redacted:bearer>" s).
Proof. reflexivity. Qed.

Lemma header_needs_sep : needs_sep header_tail.
Proof.
  intros c r Hc. unfold header_tail. unfold sep in Hc. apply orb_false_iff in Hc as [Hs Hcolon].
  simpl. rewrite Hs. simpl.
  destruct (eq_ci ":" c) eqn:E; [|reflexivity].
  apply eq_ci_sep in E. unfold sep in E. rewrite Hs, Hcolon in E. discriminate E.
Qed.

Lemma bearer_needs_sep : needs_sep bearer_tail.
Proof.
  intros c r Hc. unfold bearer_tail. unfold sep in Hc. apply orb_false_iff in Hc as [Hs _].
  simpl. by rewrite Hs.
Qed.

Section line.
Context (name ws1 ws2 : text).
Context (Hname : forallb nonsep name = true).
Context (Hws1 : forallb is_space ws1 = true) (Hws2 : forallb is_space ws2 = true).

#[local] Abbreviation shape := (LineSpec.shape name ws1 ws2).
#[local] Abbreviation inv := (LineSpec.inv name ws1 ws2).

Lemma seps_sep : forallb sep (ws1 ++ list_ascii_of_string ":" ++ ws2) = true.
Proof.
  rewrite !forallb_app. simpl.
  assert (H : ∀ ws, forallb is_space ws = true → forallb sep ws = true).
  { intros ws Hws. apply forallb_forall. intros c Hc.
    eapply forallb_forall in Hws; [|exact Hc]. by apply space_is_sep. }
  by rewrite !H.
Qed.

Lemma seps_start (v p : text) :
  starts sep (ws1 ++ list_ascii_of_string ":" ++ ws2 ++ v ++ p) = true.
Proof.
  destruct ws1 as [|c ws]; [reflexivity|]. simpl in *.
  apply andb_true_iff in Hws1 as [Hc _]. by apply space_is_sep.
Qed.

(** A pass whose key does not end the name leaves the name and the
    separators alone. *)
Lemma pass_miss (p0 : ascii) (w0 : text) (K : text → option groups) (ph : string)
    (v p : text) :
  forallb nonsep (p0 :: w0) = true → needs_sep K →
  is_suffix_ci (p0 :: w0) name = false →
  replace_all (lit_ci (p0 :: w0) K) ph (shape v p)
  = name ++ ws1 ++ list_ascii_of_string ":" ++ ws2
      ++ replace_all (lit_ci (p0 :: w0) K) ph (v ++ p).
Proof.
  intros Hw HK Hmiss. unfold LineSpec.shape.
  rewrite (scan_word p0 w0 K ph Hw HK name _ (length name)); try done.
  - rewrite take_ge, drop_ge by lia. f_equal. rewrite app_nil_l.
    replace (ws1 ++ list_ascii_of_string ":" ++ ws2 ++ v ++ p)
      with ((ws1 ++ list_ascii_of_string ":" ++ ws2) ++ v ++ p)
      by (by rewrite <- !app_assoc).
    rewrite (scan_seps p0 w0 K ph Hw); [|apply seps_sep].
    by rewrite <- !app_assoc.
  - apply seps_start.
  - intros i Hi. by apply is_suffix_ci_miss.
Qed.

(** The header pattern at the key that ends the name. *)
Lemma header_re_hit (key : string) (t v p : text) :
  forallb nonsep (list_ascii_of_string key) = true → forallb nonsep t = true →
  ci_eqb (list_ascii_of_string key) t = true → good v → at_line_end p = true →
  header_re key (t ++ ws1 ++ list_ascii_of_string ":" ++ ws2 ++ v ++ p)
  = Some (v ++ p, p).
Proof.
  intros Hkey Ht Heq (Hv & Hstart & Hdot) Hp. rewrite header_re_lit.
  rewrite lit_ci_word, Heq; try done;
    [|apply header_needs_sep|apply seps_start].
  unfold header_tail.
  apply star_greedy_run; [done|reflexivity|]. simpl.
  apply star_greedy_run; [done| |].
  - destruct v; [done|]. exact Hstart.
  - by apply plus_lazy_line.
Qed.

(** A pass whose key ends the name replaces the whole value. *)
Lemma pass_hit (key ph : string) (v p : text) :
  list_ascii_of_string key ≠ [] →
  forallb nonsep (list_ascii_of_string key) = true →
  is_suffix_ci (list_ascii_of_string key) name = true →
  good v → at_line_end p = true →
  replace_all (header_re key) ph (shape v p)
  = shape (list_ascii_of_string ph) (replace_all (header_re key) ph p).
Proof.
  intros Hne Hkey Hhit Hv Hp.
  destruct (is_suffix_ci_hit _ _ Hhit) as (Hlen & Heq & Hmiss).
  set (n := length name - length (list_ascii_of_string key)) in *.
  unfold LineSpec.shape.
  assert (Hscan : replace_all (header_re key) ph
      (name ++ ws1 ++ list_ascii_of_string ":" ++ ws2 ++ v ++ p)
      = take n name ++ replace_all (header_re key) ph
          (drop n name ++ ws1 ++ list_ascii_of_string ":" ++ ws2 ++ v ++ p)).
  { rewrite header_re_lit.
    destruct (list_ascii_of_string key) as [|p0 w0] eqn:Hw; [done|].
    apply (scan_word p0 w0 _ ph Hkey header_needs_sep name _ n);
      try done; [apply seps_start|lia]. }
  rewrite Hscan.
  assert (Hdrop : forallb nonsep (drop n name) = true).
  { pose proof Hname as Hn. rewrite <- (take_drop n name), forallb_app in Hn.
    by apply andb_true_iff in Hn as [_ Hn]. }
  assert (Hm : header_re key
      (drop n name ++ ws1 ++ list_ascii_of_string ":" ++ ws2 ++ v ++ p)
      = Some (v ++ p, p)).
  { by apply header_re_hit. }
  rewrite (replace_all_hit _ _ _ _ _
             (drop n name ++ ws1 ++ list_ascii_of_string ":" ++ ws2) v Hm).
  - rewrite <- !app_assoc. rewrite (app_assoc (take n name)), take_drop. done.
  - by rewrite <- !app_assoc.
  - done.
  - destruct ws1; simpl; by destruct (drop n name).
Qed.

Lemma at_line_end_hd (a b : text) :
  hd_error a = hd_error b → at_line_end a = at_line_end b.
Proof. destruct a, b; simpl; congruence. Qed.

Lemma header_pass_step (p : text) (key ph : string) (st : option string) (s : text) :
  at_line_end p = true → pass_check (key, ph) = true → inv p st s →
  inv p (if is_suffix_ci (list_ascii_of_string key) name then Some ph else st)
      (replace_all (header_re key) ph s).
Proof.
  intros Hp Hcheck (v & p' & -> & Hv & Hhd & Hst).
  unfold pass_check in Hcheck. cbn [fst snd] in Hcheck.
  repeat (apply andb_true_iff in Hcheck as [Hcheck ?]).
  rename H into Hstable, H0 into Hin, H1 into Hphdot, H2 into Hphstart,
    H3 into Hphne, H4 into Hkey.
  apply negb_true_iff, Nat.eqb_neq in Hcheck, Hphne.
  apply bool_decide_eq_true in Hin.
  assert (Hp' : at_line_end p' = true) by (by rewrite (at_line_end_hd _ _ Hhd)).
  assert (Hgoodph : good (list_ascii_of_string ph)).
  { split; [|done]. intros E. by rewrite E in Hphne. }
  destruct (is_suffix_ci (list_ascii_of_string key) name) eqn:Hsuf.
  - rewrite pass_hit; try done; [|intros E; by rewrite E in Hcheck].
    eexists _, _. split; [reflexivity|]. split; [done|].
    split; [|done]. rewrite <- Hhd. apply replace_all_head, header_re_sound.
  - pose proof (header_re_lit key) as Hre.
    destruct (list_ascii_of_string key) as [|p0 w0] eqn:Hw; [done|].
    assert (Hmiss := pass_miss p0 w0 _ ph v p' Hkey header_needs_sep Hsuf).
    rewrite <- Hre in Hmiss. rewrite Hmiss.
    destruct st as [ph0|].
    + destruct Hst as [Hin0 ->].
      assert (Hst0 : stable_under (p0 :: w0) (list_ascii_of_string ph0) = true).
      { eapply forallb_forall in Hstable; [exact Hstable|].
        by apply list_elem_of_In. }
      assert (Hb := scan_blocked p0 w0 _ ph header_needs_sep
                      (list_ascii_of_string ph0) p' Hst0).
      rewrite <- Hre in Hb. rewrite Hb.
      eexists _, _. split; [reflexivity|]. split; [done|].
      split; [|done]. rewrite <- Hhd. apply replace_all_head, header_re_sound.
    + destruct Hv as (Hvne & Hvstart & Hvdot).
      destruct (replace_all_line (header_re key) ph v p' (header_re_sound key)
                  Hphdot Hvdot Hp') as (v' & p'' & -> & Hv' & Hhdv & Hhdp).
      exists v', p''. split; [reflexivity|]. split; [|by rewrite Hhdp].
      destruct v as [|c v]; [done|]. destruct v' as [|c' v']; [done|].
      injection Hhdv as ->. by split.
Qed.

Lemma header_passes_fold (p : text) (passes : list (string * string))
    (st : option string) (s : text) :
  at_line_end p = true → forallb pass_check passes = true → inv p st s →
  inv p (last_hit name passes st)
      (fold_left (λ out '(key, ph), replace_all (header_re key) ph out) passes s).
Proof.
  intros Hp. revert st s. induction passes as [|[key ph] passes IH];
    intros st s Hchecks Hinv; [exact Hinv|].
  simpl in Hchecks. apply andb_true_iff in Hchecks as [Hcheck Hchecks].
  simpl. apply IH; [done|]. by apply header_pass_step.
Qed.

(** [redactString] on a header line followed by [p]: when the last pass
    whose key ends the name has placeholder [ph], the value is replaced
    by [ph] and the name, the colon and the white space stay. *)
Lemma redact_text_line (v p : text) (ph : string) :
  good v → at_line_end p = true →
  is_suffix_ci (list_ascii_of_string "--oauth2Bearer") name = false →
  last_hit name header_passes None = Some ph →
  ∃ p', redact_text (shape v p) = shape (list_ascii_of_string ph) p' ∧
        hd_error p' = hd_error p.
Proof.
  intros Hv Hp Hbearer Hlast. rewrite redact_text_passes.
  assert (Hinv : inv p None (replace_all bearer_re "<redacted:bearer>" (shape v p))).
  { rewrite bearer_re_lit.
    change (list_ascii_of_string "--oauth2Bearer") with
      ("-"%char :: list_ascii_of_string "-oauth2Bearer") in *.
    rewrite pass_miss; [|reflexivity|apply bearer_needs_sep|exact Hbearer].
    destruct Hv as (Hvne & Hvstart & Hvdot).
    destruct (replace_all_line bearer_re "<redacted:bearer>" v p bearer_re_sound
                eq_refl Hvdot Hp) as (v' & p' & Heq & Hv' & Hhdv & Hhdp).
    rewrite bearer_re_lit in Heq.
    change (list_ascii_of_string "--oauth2Bearer") with
      ("-"%char :: list_ascii_of_string "-oauth2Bearer") in Heq.
    rewrite Heq. exists v', p'. split; [reflexivity|]. split; [|done].
    destruct v as [|c v]; [done|]. destruct v' as [|c' v']; [done|].
    injection Hhdv as ->. by split. }
  pose proof (header_passes_fold p header_passes None _ Hp eq_refl Hinv) as Hfin.
  rewrite Hlast in Hfin. destruct Hfin as (v' & p' & -> & _ & Hhd & _ & ->).
  by exists p'.
Qed.

End line.

End HeaderLine.

Module ProxyFacts.
Import Chars Regex Proxy LineSpec StringFacts CharFacts RegexFacts ReplaceFacts ScanFacts HeaderLine.

Lemma string_of_list_ascii_app (a b : list ascii) :
  string_of_list_ascii (a ++ b)%list = string_of_list_ascii a ++ string_of_list_ascii b.
Proof. induction a as [|c a IH]; simpl; [reflexivity|by f_equal]. Qed.

Lemma chars_toLowerCase (s : string) :
  list_ascii_of_string (toLowerCase s) = to_lower <$> list_ascii_of_string s.
Proof. induction s as [|c s IH]; simpl; [reflexivity|by f_equal]. Qed.

Lemma nonsep_to_lower (c : ascii) : nonsep (to_lower c) = nonsep c.
Proof.
  apply Bool.eqb_prop.
  apply (ascii_forall (λ c, Bool.eqb (nonsep (to_lower c)) (nonsep c))).
  vm_compute. reflexivity.
Qed.

Lemma last_hit_upper (t t' : text) passes st :
  to_upper <$> t = to_upper <$> t' → last_hit t passes st = last_hit t' passes st.
Proof.
  intros H. revert st. induction passes as [|[key ph] passes IH]; intros st;
    [reflexivity|]. simpl. rewrite (is_suffix_ci_upper _ t t' H). apply IH.
Qed.

(** The element after a flag that the scan reaches is replaced. *)
Lemma redactForLogs_argv_flag (pre : list string) (flag token : string)
    (post : list string) :
  forallb (λ x, negb (is_bearer_flag x)) pre = true → is_bearer_flag flag = true →
  redactForLogs_argv (pre ++ flag :: token :: post)%list
  = (map redactString pre ++
     flag :: "<redacted:bearer>" :: redactForLogs_argv post)%list.
Proof.
  intros Hpre Hflag. induction pre as [|x pre IH]; simpl.
  - by rewrite Hflag.
  - simpl in Hpre. apply andb_true_iff in Hpre as [Hx Hpre].
    apply negb_true_iff in Hx. rewrite Hx. f_equal. by apply IH.
Qed.

Lemma header_passes_inert (pre x : text) (passes : list (string * string)) :
  forallb (λ pass, negb (length (list_ascii_of_string pass.1) =? 0)
                   && stable_under (list_ascii_of_string pass.1) pre) passes = true →
  fold_left (λ out '(key, ph), replace_all (header_re key) ph out) passes
    (pre ++ x)%list
  = (pre ++ fold_left (λ out '(key, ph), replace_all (header_re key) ph out)
             passes x)%list.
Proof.
  revert x. induction passes as [|[key ph] passes IH]; intros x H; [reflexivity|].
  simpl in H. apply andb_true_iff in H as [Hpass H].
  apply andb_true_iff in Hpass as [Hne Hstable].
  simpl. rewrite <- IH by exact H. f_equal.
  rewrite header_re_lit.
  destruct (list_ascii_of_string key) as [|p0 w0]; [discriminate Hne|].
  exact (scan_blocked p0 w0 header_tail ph header_needs_sep pre x Hstable).
Qed.

(** An inert text in front is passed over. *)
Lemma redact_text_inert (pre x : text) :
  inert pre = true → redact_text (pre ++ x)%list = (pre ++ redact_text x)%list.
Proof.
  unfold inert, literals. intros H. cbn [forallb] in H.
  apply andb_true_iff in H as [Hbearer H].
  rewrite !redact_text_passes.
  rewrite <- header_passes_inert.
  - f_equal. rewrite bearer_re_lit.
    exact (scan_blocked "-"%char (list_ascii_of_string "-oauth2Bearer") bearer_tail
             "<redacted:bearer>" bearer_needs_sep pre x Hbearer).
  - apply forallb_forall. intros pass Hin.
    eapply forallb_forall in H;
      [|apply (in_map (λ pass, list_ascii_of_string pass.1)); exact Hin].
    simpl in H. rewrite H, andb_true_r.
    pose proof (eq_refl : forallb pass_check header_passes = true) as Hchecks.
    eapply forallb_forall in Hchecks; [|exact Hin].
    unfold pass_check in Hchecks.
    by repeat (apply andb_true_iff in Hchecks as [Hchecks _]).
Qed.

Lemma redactString_inert (pre x : string) :
  inert (list_ascii_of_string pre) = true →
  redactString (pre ++ x) = pre ++ redactString x.
Proof.
  intros H. unfold redactString.
  rewrite chars_app, redact_text_inert, string_of_list_ascii_app by exact H.
  by rewrite string_of_list_ascii_of_string.
Qed.

(** What the proofs use of a sensitive header name: it is ASCII, holds no
    separator, does not end in the bearer flag, and the last pass that
    applies to it is its own. *)
Lemma sensitive_key_checks (k : string) :
  In k SENSITIVE_HEADER_KEYS →
  forallb (λ c, code c <? 128) (list_ascii_of_string k) = true ∧
  forallb nonsep (list_ascii_of_string k) = true ∧
  is_suffix_ci (list_ascii_of_string "--oauth2Bearer") (list_ascii_of_string k) = false ∧
  last_hit (list_ascii_of_string k) header_passes None = Some ("<redacted:" ++ k ++ ">") ∧
  k ≠ "".
Proof.
  intros Hk.
  repeat (destruct Hk as [<-|Hk];
          [repeat split; try discriminate; vm_compute; reflexivity|]).
  destruct Hk.
Qed.

(** A header line whose name is the key [k] in any case. *)
Lemma redactString_line (k ph name ws1 ws2 value rest : string) :
  toLowerCase name = k →
  forallb (λ c, code c <? 128) (list_ascii_of_string k) = true →
  forallb nonsep (list_ascii_of_string k) = true →
  is_suffix_ci (list_ascii_of_string "--oauth2Bearer") (list_ascii_of_string k) = false →
  last_hit (list_ascii_of_string k) header_passes None = Some ph →
  all_chars is_space ws1 = true → all_chars is_space ws2 = true →
  value ≠ "" → all_chars dot value = true →
  starts (λ c, negb (is_space c)) (list_ascii_of_string value) = true →
  line_break_or_end rest = true →
  ∃ rest',
    redactString (name ++ ws1 ++ ":" ++ ws2 ++ value ++ rest)
    = name ++ ws1 ++ ":" ++ ws2 ++ ph ++ rest' ∧
    first_char rest' = first_char rest.
Proof.
  intros Hk Hascii Hnonsep Hbearer Hlast Hws1 Hws2 Hne Hdot Hstart Hrest.
  assert (Hup : to_upper <$> list_ascii_of_string name
                = to_upper <$> list_ascii_of_string k).
  { rewrite <- Hk, chars_toLowerCase in Hascii |- *. rewrite <- list_fmap_compose.
    apply Forall_fmap_ext_1. apply Forall_forall. intros c Hc. simpl.
    symmetry. apply to_lower_upper.
    eapply forallb_forall in Hascii; [exact Hascii|].
    apply in_map. by apply list_elem_of_In. }
  assert (Hname : forallb nonsep (list_ascii_of_string name) = true).
  { rewrite <- Hk, chars_toLowerCase in Hnonsep.
    apply forallb_forall. intros c Hc.
    rewrite <- nonsep_to_lower.
    eapply forallb_forall in Hnonsep; [exact Hnonsep|]. by apply in_map. }
  destruct (redact_text_line (list_ascii_of_string name) (list_ascii_of_string ws1)
              (list_ascii_of_string ws2) Hname Hws1 Hws2
              (list_ascii_of_string value) (list_ascii_of_string rest) ph)
    as (p' & Heq & Hhd).
  - split; [|split; [exact Hstart|exact Hdot]].
    intros E. apply Hne. destruct value; [done|discriminate E].
  - by destruct rest.
  - by rewrite (is_suffix_ci_upper _ _ _ Hup).
  - by rewrite (last_hit_upper _ _ _ _ Hup).
  - exists (string_of_list_ascii p'). split.
    + unfold redactString. rewrite !chars_app.
      unfold LineSpec.shape in Heq. rewrite Heq.
      rewrite !string_of_list_ascii_app, !string_of_list_ascii_of_string.
      reflexivity.
    + destruct rest as [|c rest], p' as [|c' p']; simpl in *; congruence.
Qed.

End ProxyFacts.

(** ** [redactString] over several lines *)

Module DocumentFacts.
Import Chars Regex Proxy LineSpec Document.
Import StringFacts CharFacts RegexFacts ReplaceFacts ScanFacts HeaderLine ProxyFacts.
#[local] Open Scope list_scope.

Lemma lit_closed_None {R} (w a q : text) (K : text → option R) :
  needs_sep K → forallb nonsep w = true → lit_closed w a = true →
  starts sep q = true → lit_ci w K (a ++ q) = None.
Proof.
  intros HK Hw Ha Hq. revert a Hw Ha.
  induction w as [|p w IH]; intros [|c a] Hw Ha; simpl in *; try done.
  - apply HK. by apply negb_true_iff.
  - destruct q as [|c q]; [reflexivity|]. simpl in Hq.
    apply andb_true_iff in Hw as [Hp _].
    destruct (eq_ci p c) eqn:E; [|reflexivity].
    apply eq_ci_sep in E. apply negb_true_iff in Hp. congruence.
  - apply andb_true_iff in Hw as [_ Hw].
    destruct (eq_ci p c); [by apply IH|reflexivity].
Qed.

Section scan.
Context (p0 : ascii) (w0 : text) (K : text → option groups) (ph : string).
Let w := p0 :: w0.
Let re := lit_ci w K.
Context (Hw : forallb nonsep w = true) (HK : needs_sep K).

(** A text in which the literal cannot match, before a separator. *)
Lemma scan_closed (v q : text) :
  closed_under w v = true → starts sep q = true →
  replace_all re ph (v ++ q) = v ++ replace_all re ph q.
Proof.
  unfold closed_under. intros H Hq. induction v as [|c v IH]; [reflexivity|].
  assert (H' : lit_closed w (c :: v) = true ∧
               forallb (λ i, lit_closed w (drop i v)) (seq 0 (length v)) = true).
  { cbn [length seq forallb] in H. apply andb_true_iff in H as [H0 H].
    split; [exact H0|]. rewrite <- seq_shift in H.
    apply forallb_forall. intros i Hi.
    eapply forallb_forall in H; [|apply in_map; exact Hi]. exact H. }
  destruct H' as [H0 H'].
  rewrite <- app_comm_cons, replace_all_miss.
  - rewrite <- app_comm_cons. f_equal. by apply IH.
  - unfold re. rewrite app_comm_cons. by apply lit_closed_None.
Qed.

End scan.

Lemma line_end_sep (r : text) : at_line_end r = true → starts sep r = true.
Proof.
  destruct r as [|c r]; [done|]. simpl. intros H.
  by apply space_is_sep, newline_is_space.
Qed.

Lemma starts_hd (cls : ascii → bool) (a b : text) :
  hd_error a = hd_error b → starts cls a = starts cls b.
Proof. destruct a, b; simpl; congruence. Qed.

Lemma literal_of_list (w : text) (v : text) (P : text → text → bool) :
  In w literals → forallb (λ w, P w v) literals = true → P w v = true.
Proof. intros Hin H. eapply forallb_forall in H; [exact H|exact Hin]. Qed.

(** One pass over the pieces, for a pattern that starts with a literal
    word and goes on with something that needs a separator. *)
Section pass.
Context (p0 : ascii) (w0 : text) (K : text → option groups) (ph : string).
Let w := p0 :: w0.
Let re := lit_ci w K.
Context (Hw : forallb nonsep w = true) (HK : needs_sep K) (Hsound : sound re).
Context (Hlit : In w literals).
Context (Hstable : ∀ ph', ph' ∈ placeholders → stable_under w (chars ph') = true).
Context (Hph : good (chars ph)) (Hin : ph ∈ placeholders).
(** The word does not occur in a bearer flag, nor in its placeholder. *)
Context (Hflagw : ∀ flag : string,
  to_upper <$> chars flag = to_upper <$> chars "--oauth2Bearer" →
  closed_under w (chars flag) = true).
Context (Hphb : stable_under w (chars "<redacted:bearer>") = true).
(** Where the word ends the name of a header line, the pass replaces
    the value. *)
Context (Hhit : ∀ name ws1 ws2 value r,
  line_inv name ws1 ws2 value → at_line_end r = true →
  is_suffix_ci w (chars name) = true →
  replace_all re ph (shape (chars name) (chars ws1) (chars ws2) (chars value) r)
  = shape (chars name) (chars ws1) (chars ws2) (chars ph) (replace_all re ph r)).

Lemma pass_doc (d : list piece) :
  doc_inv true d →
  replace_all re ph (doc_text d) = doc_text (map (pass_piece w ph) d) ∧
  doc_inv true (map (pass_piece w ph) d).
Proof.
  induction d as [|[t|name ws1 ws2 value|flag ws token] d IH]; [done| | |].
  - intros [Ht Hd]. destruct (IH Hd) as [Heq Hinv]. cbn [map pass_piece doc_text doc_inv].
    assert (Hhd : hd_error (doc_text (map (pass_piece w ph) d)) = hd_error (doc_text d)).
    { rewrite <- Heq. by apply replace_all_head. }
    split.
    + rewrite <- Heq. destruct Ht as [Ht|[Ht Hs]].
      * apply (scan_blocked p0 w0 K ph HK).
        exact (literal_of_list w (chars t) stable_under Hlit Ht).
      * apply (scan_closed p0 w0 K ph Hw HK); [|exact Hs].
        exact (literal_of_list w (chars t) closed_under Hlit Ht).
    + split; [|exact Hinv].
      destruct Ht as [Ht|[Ht Hs]]; [by left|right]. split; [exact Ht|].
      by rewrite (starts_hd sep _ _ Hhd).
  - intros (Hline & Hend & Hd). destruct (IH Hd) as [Heq Hinv].
    cbn [map pass_piece doc_text doc_inv].
    assert (Hhd : hd_error (doc_text (map (pass_piece w ph) d)) = hd_error (doc_text d)).
    { rewrite <- Heq. by apply replace_all_head. }
    assert (Hend' : at_line_end (doc_text (map (pass_piece w ph) d)) = true).
    { by rewrite (at_line_end_hd _ _ Hhd). }
    destruct Hline as (Hname & Hbearer & Hws1 & Hws2 & Hgood & Hvalue).
    destruct (is_suffix_ci w (chars name)) eqn:Hsuf.
    + split.
      * rewrite Hhit; try done. by rewrite Heq.
      * split; [|done]. do 4 (split; [done|]). split; [exact Hph|by right].
    + split.
      * unfold re, w. rewrite pass_miss; try done. fold w. fold re.
        assert (Hv : replace_all re ph (chars value ++ doc_text d)
                     = chars value ++ replace_all re ph (doc_text d)).
        { destruct Hvalue as [Hq|Hp].
          - apply (scan_closed p0 w0 K ph Hw HK); [|by apply line_end_sep].
            exact (literal_of_list w (chars value) closed_under Hlit Hq).
          - apply (scan_blocked p0 w0 K ph HK). by apply Hstable. }
        rewrite Hv, Heq. reflexivity.
      * split; [|done]. by do 5 (split; [done|]).
  - intros (Hflag & -> & Hd). destruct (IH Hd) as [Heq Hinv].
    cbn [map pass_piece doc_text doc_inv]. split; [|done].
    destruct Hflag as (Hup & Hne & Hws). rewrite <- Heq.
    rewrite (scan_closed p0 w0 K ph Hw HK); [|by apply Hflagw|].
    + f_equal. rewrite (scan_seps p0 w0 K ph Hw).
      * f_equal. by apply (scan_blocked p0 w0 K ph HK).
      * apply forallb_forall. intros c Hc.
        eapply forallb_forall in Hws; [|exact Hc]. by apply space_is_sep.
    + destruct (chars ws) as [|c ws']; [done|]. simpl in *.
      apply andb_true_iff in Hws as [Hc _]. by apply space_is_sep.
Qed.

End pass.

Lemma placeholders_good (ph : string) : ph ∈ placeholders → good (chars ph).
Proof.
  intros Hin. apply list_elem_of_In in Hin.
  assert (H : forallb (λ ph, negb (length (chars ph) =? 0)
                             && starts (λ c, negb (is_space c)) (chars ph)
                             && forallb dot (chars ph)) placeholders = true)
    by (vm_compute; reflexivity).
  eapply forallb_forall in H; [|exact Hin].
  apply andb_true_iff in H as [H Hdot]. apply andb_true_iff in H as [Hne Hstart].
  split; [|done]. intros E. by rewrite E in Hne.
Qed.

(** Case does not matter to the literals. *)
Lemma lit_closed_upper (w t t' : text) :
  to_upper <$> t = to_upper <$> t' → lit_closed w t = lit_closed w t'.
Proof.
  revert t t'. induction w as [|p w IH]; intros [|c t] [|c' t'] H; try done.
  - simpl in *. injection H as Hc _. unfold nonsep.
    by rewrite <- (sep_to_upper c), Hc, sep_to_upper.
  - simpl in *. injection H as Hc Ht. unfold eq_ci. rewrite Hc.
    destruct (Ascii.eqb (to_upper p) (to_upper c')); [by apply IH|done].
Qed.

Lemma closed_under_upper (w t t' : text) :
  to_upper <$> t = to_upper <$> t' → closed_under w t = closed_under w t'.
Proof.
  intros H. unfold closed_under.
  assert (Hl : length t = length t').
  { by rewrite <- (length_fmap to_upper t), H, length_fmap. }
  rewrite Hl. induction (seq 0 (length t')) as [|i l IH]; [done|].
  cbn [forallb]. rewrite IH. f_equal.
  apply lit_closed_upper. by rewrite !fmap_drop, H.
Qed.

Lemma nonsep_upper (t t' : text) :
  to_upper <$> t = to_upper <$> t' → forallb nonsep t = forallb nonsep t'.
Proof.
  revert t'. induction t as [|c t IH]; intros [|c' t'] H; try done.
  simpl in *. injection H as Hc Ht. rewrite (IH _ Ht). f_equal.
  unfold nonsep. by rewrite <- (sep_to_upper c), Hc, sep_to_upper.
Qed.

(** The bearer pattern at a flag with its token. *)
Lemma bearer_re_hit (flag ws token r : text) :
  to_upper <$> flag = to_upper <$> chars "--oauth2Bearer" →
  ws ≠ [] → forallb is_space ws = true →
  token ≠ [] → forallb token_char token = true →
  starts (λ c, negb (token_char c)) r = true →
  bearer_re (flag ++ ws ++ token ++ r) = Some (token ++ r, r).
Proof.
  intros Hup Hne Hws Htne Htok Hr. rewrite bearer_re_lit.
  rewrite lit_ci_word; [| | |apply bearer_needs_sep|].
  - rewrite (ci_eqb_upper _ _ _ Hup).
    replace (ci_eqb (chars "--oauth2Bearer") (chars "--oauth2Bearer")) with true
      by (vm_compute; reflexivity).
    unfold bearer_tail.
    destruct ws as [|c ws]; [done|]. destruct token as [|t0 token]; [done|].
    simpl in Hws, Htok.
    apply andb_true_iff in Hws as [Hc Hws]. apply andb_true_iff in Htok as [Ht0 Htok].
    cbn [app plus_greedy]. rewrite Hc.
    apply star_greedy_run; [done| |].
    + simpl. unfold token_char in Ht0.
      apply andb_true_iff in Ht0 as [Ht0 _]. by apply andb_true_iff in Ht0 as [Ht0 _].
    + cbn [app plus_greedy]. rewrite Ht0. by apply star_greedy_run.
  - reflexivity.
  - rewrite (nonsep_upper _ _ Hup). reflexivity.
  - destruct ws as [|c ws]; [done|]. simpl in *.
    apply andb_true_iff in Hws as [Hc _]. by apply space_is_sep.
Qed.

(** The bearer pass replaces the token of every bearer flag and leaves
    the other pieces as they are. *)
Lemma bearer_doc (d : list piece) :
  doc_inv false d →
  replace_all bearer_re "<redacted:bearer>" (doc_text d)
  = doc_text (map bearer_piece d) ∧
  doc_inv true (map bearer_piece d).
Proof.
  induction d as [|[t|name ws1 ws2 value|flag ws token] d IH]; [done| | |].
  - intros [Ht Hd]. destruct (IH Hd) as [Heq Hinv].
    cbn [map bearer_piece doc_text doc_inv].
    assert (Hhd : hd_error (doc_text (map bearer_piece d)) = hd_error (doc_text d)).
    { rewrite <- Heq. apply replace_all_head, bearer_re_sound. }
    split.
    + rewrite <- Heq. rewrite bearer_re_lit.
      change (list_ascii_of_string "--oauth2Bearer") with
        ("-"%char :: list_ascii_of_string "-oauth2Bearer").
      destruct Ht as [Ht|[Ht Hs]].
      * apply scan_blocked; [apply bearer_needs_sep|].
        exact (literal_of_list _ (chars t) stable_under (or_introl eq_refl) Ht).
      * apply scan_closed; [reflexivity|apply bearer_needs_sep| |exact Hs].
        exact (literal_of_list _ (chars t) closed_under (or_introl eq_refl) Ht).
    + split; [|exact Hinv].
      destruct Ht as [Ht|[Ht Hs]]; [by left|right]. split; [exact Ht|].
      by rewrite (starts_hd sep _ _ Hhd).
  - intros (Hline & Hend & Hd). destruct (IH Hd) as [Heq Hinv].
    cbn [map bearer_piece doc_text doc_inv].
    assert (Hhd : hd_error (doc_text (map bearer_piece d)) = hd_error (doc_text d)).
    { rewrite <- Heq. apply replace_all_head, bearer_re_sound. }
    split; [|split; [done|split; [by rewrite (at_line_end_hd _ _ Hhd)|done]]].
    destruct Hline as (Hname & Hbearer & Hws1 & Hws2 & Hgood & Hvalue).
    rewrite <- Heq. rewrite bearer_re_lit.
    change (list_ascii_of_string "--oauth2Bearer") with
      ("-"%char :: list_ascii_of_string "-oauth2Bearer") in *.
    rewrite pass_miss; try done; [|apply bearer_needs_sep].
    unfold shape. do 4 f_equal.
    destruct Hvalue as [Hq|Hp].
    + apply scan_closed; [reflexivity|apply bearer_needs_sep| |by apply line_end_sep].
      exact (literal_of_list _ (chars value) closed_under (or_introl eq_refl) Hq).
    + apply scan_blocked; [apply bearer_needs_sep|].
      apply list_elem_of_In in Hp.
      assert (H : forallb (λ ph', stable_under
                             ("-"%char :: list_ascii_of_string "-oauth2Bearer")
                             (chars ph')) placeholders = true)
        by (vm_compute; reflexivity).
      eapply forallb_forall in H; [exact H|exact Hp].
  - intros ((Hup & Hne & Hws) & (Htne & Htok & Hr) & Hd). destruct (IH Hd) as [Heq Hinv].
    cbn [map bearer_piece doc_text doc_inv]. split; [|done].
    pose proof (bearer_re_hit _ _ _ _ Hup Hne Hws Htne Htok Hr) as Hhit.
    rewrite (replace_all_hit _ _ _ _ _ (chars flag ++ chars ws) (chars token) Hhit).
    + by rewrite Heq, <- !app_assoc.
    + by rewrite <- !app_assoc.
    + done.
    + destruct (chars flag); [|done]. by destruct (chars ws).
Qed.

(** One header pass over the pieces. *)
Lemma header_pass_doc (key ph : string) (d : list piece) :
  In (key, ph) header_passes → doc_inv true d →
  replace_all (header_re key) ph (doc_text d)
  = doc_text (map (pass_piece (chars key) ph) d) ∧
  doc_inv true (map (pass_piece (chars key) ph) d).
Proof.
  intros Hpass Hd.
  pose proof (eq_refl : forallb pass_check header_passes = true) as Hcheck.
  eapply forallb_forall in Hcheck; [|exact Hpass].
  unfold pass_check in Hcheck. cbn [fst snd] in Hcheck.
  repeat (apply andb_true_iff in Hcheck as [Hcheck ?]).
  rename H into Hstable, H0 into Hin, H1 into Hphdot, H2 into Hphstart,
    H3 into Hphne, H4 into Hkey.
  apply negb_true_iff, Nat.eqb_neq in Hcheck, Hphne.
  apply bool_decide_eq_true in Hin.
  assert (Hlit : In (chars key) literals).
  { right. apply (in_map (λ pass : string * string, chars pass.1) _ _ Hpass). }
  rewrite header_re_lit.
  pose proof (header_re_sound key) as Hsound. rewrite header_re_lit in Hsound.
  pose proof (pass_hit) as Hhit.
  pose proof (eq_refl : forallb
    (λ pass : string * string,
       closed_under (chars pass.1) (chars "--oauth2Bearer")
       && stable_under (chars pass.1) (chars "<redacted:bearer>"))
    header_passes = true) as Hflags.
  eapply forallb_forall in Hflags; [|exact Hpass]. cbn [fst] in Hflags.
  apply andb_true_iff in Hflags as [Hflag Hphb].
  destruct (chars key) as [|p0 w0] eqn:Ekey; [done|].
  refine (pass_doc p0 w0 header_tail ph Hkey header_needs_sep Hsound Hlit _ _ Hin
            _ Hphb _ d Hd).
  - intros ph' Hph'. eapply forallb_forall in Hstable; [exact Hstable|].
    by apply list_elem_of_In.
  - split; [|done]. intros E. by rewrite E in Hphne.
  - intros flag Hup. by rewrite (closed_under_upper _ _ _ Hup).
  - intros name ws1 ws2 value r (Hname & _ & Hws1 & Hws2 & Hgood & _) Hend Hsuf.
    rewrite <- Ekey, <- header_re_lit.
    apply Hhit; try done; rewrite Ekey; done.
Qed.

(** All header passes over the pieces. *)
Lemma header_passes_doc (passes : list (string * string)) (d : list piece) :
  incl passes header_passes → doc_inv true d →
  fold_left (λ out '(key, ph), replace_all (header_re key) ph out) passes (doc_text d)
  = doc_text (fold_left (λ d '(key, ph), map (pass_piece (chars key) ph) d) passes d).
Proof.
  revert d. induction passes as [|[key ph] passes IH]; intros d Hincl Hd; [done|].
  cbn [fold_left].
  destruct (header_pass_doc key ph d (Hincl _ (or_introl eq_refl)) Hd) as [Heq Hinv].
  rewrite Heq. apply IH; [|exact Hinv].
  intros pass Hpass. apply Hincl. by right.
Qed.

Lemma passes_piece (passes : list (string * string)) (d : list piece) :
  fold_left (λ d '(key, ph), map (pass_piece (chars key) ph) d) passes d
  = map (λ p, fold_left (λ p '(key, ph), pass_piece (chars key) ph p) passes p) d.
Proof.
  revert d. induction passes as [|[key ph] passes IH]; intros d; cbn [fold_left].
  - by rewrite map_id.
  - by rewrite IH, map_map.
Qed.

Lemma passes_plain (passes : list (string * string)) (t : string) :
  fold_left (λ p '(key, ph), pass_piece (chars key) ph p) passes (Plain t) = Plain t.
Proof. induction passes as [|[key ph] passes IH]; [done|exact IH]. Qed.

Lemma passes_flag (passes : list (string * string)) (flag ws token : string) :
  fold_left (λ p '(key, ph), pass_piece (chars key) ph p) passes
    (BearerFlag flag ws token)
  = BearerFlag flag ws token.
Proof. induction passes as [|[key ph] passes IH]; [done|exact IH]. Qed.

Lemma passes_line (passes : list (string * string)) (name ws1 ws2 value : string)
    (st : option string) :
  fold_left (λ p '(key, ph), pass_piece (chars key) ph p) passes
    (HeaderLine name ws1 ws2 (value_of st value))
  = HeaderLine name ws1 ws2 (value_of (last_hit (chars name) passes st) value).
Proof.
  revert st. induction passes as [|[key ph] passes IH]; intros st; [done|].
  cbn [fold_left pass_piece].
  change (last_hit (chars name) ((key, ph) :: passes) st)
    with (last_hit (chars name) passes
            (if is_suffix_ci (chars key) (chars name) then Some ph else st)).
  rewrite <- (IH (if is_suffix_ci (chars key) (chars name) then Some ph else st)).
  by destruct (is_suffix_ci (chars key) (chars name)).
Qed.

(** A name that is the key [k] in some case. *)
Lemma name_of_key (k name : string) :
  In k SENSITIVE_HEADER_KEYS → toLowerCase name = k →
  to_upper <$> chars name = to_upper <$> chars k ∧
  forallb nonsep (chars name) = true.
Proof.
  intros Hin Hk.
  destruct (sensitive_key_checks k Hin) as (Hascii & Hnonsep & _).
  rewrite <- Hk, chars_toLowerCase in Hascii, Hnonsep |- *. split.
  - rewrite <- list_fmap_compose.
    apply Forall_fmap_ext_1. apply Forall_forall. intros c Hc. simpl.
    symmetry. apply to_lower_upper.
    eapply forallb_forall in Hascii; [exact Hascii|].
    apply in_map. by apply list_elem_of_In.
  - apply forallb_forall. intros c Hc. rewrite <- nonsep_to_lower.
    eapply forallb_forall in Hnonsep; [exact Hnonsep|]. by apply in_map.
Qed.

Lemma doc_text_string (d : list piece) : chars (doc_string d) = doc_text d.
Proof.
  induction d as [|[t|name ws1 ws2 value|flag ws token] d IH]; [done| | |];
    cbn [doc_string doc_text piece_string]; rewrite !chars_app, IH; [done| |].
  - unfold shape. by rewrite <- !app_assoc.
  - by rewrite <- !app_assoc.
Qed.

(** A flag in some case. *)
Lemma flag_upper (flag : string) :
  is_bearer_flag flag = true →
  to_upper <$> chars flag = to_upper <$> chars "--oauth2Bearer".
Proof.
  unfold is_bearer_flag. intros H%String.eqb_eq.
  assert (Hascii : forallb (λ c, code c <? 128) (chars (toLowerCase flag)) = true)
    by (by rewrite H).
  change (to_upper <$> chars "--oauth2Bearer")
    with (to_upper <$> chars "--oauth2bearer").
  rewrite chars_toLowerCase in Hascii. rewrite <- H, chars_toLowerCase.
  rewrite <- list_fmap_compose.
  apply Forall_fmap_ext_1. apply Forall_forall. intros c Hc. simpl.
  symmetry. apply to_lower_upper.
  eapply forallb_forall in Hascii; [exact Hascii|].
  apply in_map. by apply list_elem_of_In.
Qed.

Lemma header_ok_key (name ws1 ws2 value : string) :
  header_ok name ws1 ws2 value = true → In (toLowerCase name) SENSITIVE_HEADER_KEYS.
Proof.
  unfold header_ok. intros H. repeat (apply andb_true_iff in H as [H _]).
  apply existsb_exists in H as (k & Hin & Hk). apply String.eqb_eq in Hk. by subst k.
Qed.

Lemma well_formed_inv (d : list piece) : well_formed d = true → doc_inv false d.
Proof.
  induction d as [|[t|name ws1 ws2 value|flag ws token] d IH]; [done| | |];
    cbn [well_formed doc_inv].
  - intros [Ht Hd]%andb_true_iff. split; [|by apply IH].
    apply orb_true_iff in Ht as [Ht|[Ht Hs]%andb_true_iff]; [by left|right].
    by rewrite <- doc_text_string.
  - intros [[Hh Hend]%andb_true_iff Hd]%andb_true_iff. split; [|split; [|by apply IH]].
    + pose proof (header_ok_key _ _ _ _ Hh) as Hkey.
      destruct (name_of_key _ name Hkey eq_refl) as [Hup Hname].
      destruct (sensitive_key_checks _ Hkey) as (_ & _ & Hbearer & _).
      unfold header_ok in Hh. repeat (apply andb_true_iff in Hh as [Hh ?]).
      repeat split; try done.
      * by rewrite (is_suffix_ci_upper _ _ _ Hup).
      * intros E. apply negb_true_iff, String.eqb_neq in H2. apply H2.
        destruct value; [done|discriminate E].
      * by left.
    + rewrite <- doc_text_string. by destruct (doc_string d).
  - intros [[Hf Hr]%andb_true_iff Hd]%andb_true_iff.
    unfold flag_ok in Hf. repeat (apply andb_true_iff in Hf as [Hf ?]).
    assert (Hne : ∀ s : string, negb (String.eqb s "") = true → chars s ≠ []).
    { intros s Hs%negb_true_iff%String.eqb_neq E. apply Hs.
      destruct s; [done|discriminate E]. }
    split; [|split; [|by apply IH]].
    + split; [by apply flag_upper|]. split; [by apply Hne|done].
    + split; [by apply Hne|]. split; [done|]. by rewrite <- doc_text_string.
Qed.

(** [redactString] on the pieces: every header line has its value
    replaced by the placeholder of its name, and nothing else changes. *)
Lemma redact_text_doc (d : list piece) :
  well_formed d = true → redact_text (doc_text d) = doc_text (map redacted_piece d).
Proof.
  intros Hwf. pose proof (well_formed_inv d Hwf) as Hinv.
  destruct (bearer_doc d Hinv) as [Hbearer Hinv'].
  rewrite redact_text_passes, Hbearer.
  rewrite (header_passes_doc header_passes _ (incl_refl _) Hinv'), passes_piece.
  f_equal. rewrite map_map. clear Hinv Hbearer Hinv'.
  induction d as [|[t|name ws1 ws2 value|flag ws token] d IH]; [done| | |];
    cbn [map bearer_piece redacted_piece].
  - cbn [well_formed] in Hwf. apply andb_true_iff in Hwf as [_ Hwf].
    by rewrite passes_plain, (IH Hwf).
  - cbn [well_formed] in Hwf. apply andb_true_iff in Hwf as [[Hh _]%andb_true_iff Hwf].
    rewrite (IH Hwf). f_equal.
    pose proof (header_ok_key _ _ _ _ Hh) as Hkey.
    destruct (name_of_key _ name Hkey eq_refl) as [Hup _].
    destruct (sensitive_key_checks _ Hkey) as (_ & _ & _ & Hlast & _).
    pose proof (passes_line header_passes name ws1 ws2 value None) as Hp.
    cbn [value_of] in Hp. rewrite Hp.
    by rewrite (last_hit_upper _ _ _ _ Hup), Hlast.
  - cbn [well_formed] in Hwf. apply andb_true_iff in Hwf as [_ Hwf].
    by rewrite passes_flag, (IH Hwf).
Qed.

Lemma redactString_doc (d : list piece) :
  well_formed d = true → redactString (doc_string d) = doc_string (map redacted_piece d).
Proof.
  intros Hwf. unfold redactString.
  rewrite doc_text_string, (redact_text_doc d Hwf), <- doc_text_string.
  apply string_of_list_ascii_of_string.
Qed.

End DocumentFacts.

Module ProxyClaims.
Import Chars Regex Proxy LineSpec Document StringFacts ProxyFacts DocumentFacts.

(** The patterns at work: the bearer token, a header whose name ends in
    another sensitive name, and a header with a blank value, where the
    white space after the colon is given back to the lazy group. *)
Example redactString_bearer :
  redactString "curl --oauth2Bearer tok123 -v"
  = "curl --oauth2Bearer <redacted:bearer> -v".
Proof. vm_compute. reflexivity. Qed.

Example redactString_proxy_authorization :
  redactString "Proxy-Authorization : Basic xyz"
  = "Proxy-Authorization : <redacted:proxy-authorization>".
Proof. vm_compute. reflexivity. Qed.

Example redactString_blank_value :
  redactString "Authorization: " = "Authorization:<redacted:authorization>".
Proof. vm_compute. reflexivity. Qed.

Example redactString_plain : redactString "--header Accept: */*" = "--header Accept: */*".
Proof. vm_compute. reflexivity. Qed.

(** C5 fails on the code for argv arrays: a flag in last position is
    pushed twice, once by the flag branch and once by the final
    [out.push], so a one-element array comes back with two elements. *)
Theorem redactForLogs_argv_trailing_flag :
  redactForLogs_argv ["--oauth2Bearer"] = ["--oauth2Bearer"; "--oauth2Bearer"] ∧
  length (redactForLogs_argv ["--oauth2Bearer"]) ≠ length ["--oauth2Bearer"].
Proof.
  assert (H : redactForLogs_argv ["--oauth2Bearer"]
              = ["--oauth2Bearer"; "--oauth2Bearer"]) by (vm_compute; reflexivity).
  split; [exact H|]. rewrite H. simpl. lia.
Qed.

(** C9, as written, fails in both parts: the element after a flag that is
    itself the token of the flag before it is not replaced; a header line
    that follows a sensitive header with an empty value is swallowed
    whole, name included; and a header line that follows a bearer flag
    at the end of the line before loses its name and keeps its value. *)
Lemma redactForLogs_counterexample :
  redactForLogs_argv ["--oauth2Bearer"; "--oauth2Bearer"; "tok"]
    = ["--oauth2Bearer"; "<redacted:bearer>"; "tok"] ∧
  redactForLogs_string ("Authorization:" ++ LF ++ "X-Api-Key: abc")
    = "Authorization:" ++ LF ++ "<redacted:authorization>" ∧
  redactForLogs_string ("--oauth2Bearer" ++ LF ++ "Authorization: tok")
    = "--oauth2Bearer" ++ LF ++ "<redacted:bearer> tok".
Proof. repeat split; vm_compute; reflexivity. Qed.

(** C9, amended. Scanning an argv array from the left, [redactForLogs]
    keeps the first [--oauth2Bearer] flag (any case), replaces the element
    after it by [<redacted:bearer>] and resumes after that element, so
    every flag the scan reaches has its following element replaced. In a
    string, a header line (a name that is one of the sensitive header
    names in any case, optional white space, a colon, optional white
    space, a non-empty value) that is followed by the end of the string
    or a line break, and preceded by nothing or by text the patterns
    cannot match in, has its value replaced by [<redacted:NAME>] with
    the lower-case name; the text before, the header name, the colon and
    the white space stay as they are. And the replacement is global: in
    a string made of any number of such header lines, each followed by
    the end of the string or a line break, of bearer flags, each with
    white space and a token after it, and of stretches of text that the
    patterns cannot match in, the values of the header lines included,
    every header line has its value replaced so, every token is
    replaced by [<redacted:bearer>], and nothing else changes. *)
Theorem redactForLogs_flag_and_header :
  (∀ (pre : list string) (flag token : string) (post : list string),
     forallb (λ x, negb (is_bearer_flag x)) pre = true →
     is_bearer_flag flag = true →
     redactForLogs_argv (pre ++ flag :: token :: post)%list
     = (map redactString pre ++
        flag :: "<redacted:bearer>" :: redactForLogs_argv post)%list) ∧
  (∀ k before name ws1 ws2 value rest : string,
     In k SENSITIVE_HEADER_KEYS → toLowerCase name = k →
     inert (list_ascii_of_string before) = true →
     all_chars is_space ws1 = true → all_chars is_space ws2 = true →
     value ≠ "" → all_chars dot value = true →
     starts (λ c, negb (is_space c)) (list_ascii_of_string value) = true →
     line_break_or_end rest = true →
     ∃ rest',
       redactForLogs_string (before ++ name ++ ws1 ++ ":" ++ ws2 ++ value ++ rest)
       = before ++ name ++ ws1 ++ ":" ++ ws2 ++ ("<redacted:" ++ k ++ ">") ++ rest' ∧
       first_char rest' = first_char rest) ∧
  (∀ d : list piece,
     well_formed d = true →
     redactForLogs_string (doc_string d) = doc_string (map redacted_piece d)).
Proof.
  split; [exact redactForLogs_argv_flag|]. split; [|exact redactString_doc].
  intros k before name ws1 ws2 value rest Hk Hname Hbefore Hws1 Hws2 Hvalue Hdot
    Hstart Hrest.
  unfold redactForLogs_string.
  destruct (sensitive_key_checks k Hk) as (Hascii & Hnonsep & Hbearer & Hlast & _).
  rewrite redactString_inert by exact Hbefore.
  destruct (redactString_line k ("<redacted:" ++ k ++ ">") name ws1 ws2 value rest)
    as (rest' & Heq & Hfirst); try done.
  exists rest'. by rewrite Heq.
Qed.

(** The amended C9 at an argv with one flag, at a header line between
    two other lines, at a log with three sensitive headers, and at a
    command line with two bearer flags and a header. *)
Lemma redactForLogs_flag_and_header_witness :
  redactForLogs_argv ["--sse"; "http://x"; "--OAuth2Bearer"; "tok123"; "-v"]
    = ["--sse"; "http://x"; "--OAuth2Bearer"; "<redacted:bearer>"; "-v"] ∧
  (∃ rest',
     redactForLogs_string
       ("Host: example.com" ++ LF ++ "X-Api-Key: abc123" ++ LF ++ "Accept: text/plain")
     = "Host: example.com" ++ LF ++ "X-Api-Key: <redacted:x-api-key>" ++ rest' ∧
     first_char rest' = Some (ascii_of_nat 10)) ∧
  well_formed demo_log = true ∧
  redactForLogs_string
    ("Authorization: Bearer tok" ++ LF ++ "Accept: text/plain" ++ LF
     ++ "X-Api-Key : abc123" ++ LF ++ "authorization:Basic xyz")
  = "Authorization: <redacted:authorization>" ++ LF ++ "Accept: text/plain" ++ LF
    ++ "X-Api-Key : <redacted:x-api-key>" ++ LF
    ++ "authorization:<redacted:authorization>" ∧
  well_formed demo_command_line = true ∧
  redactForLogs_string
    ("npx -y supergateway --sse https://example.com/mcp --oauth2Bearer tok123"
     ++ " --retry 3 --OAUTH2BEARER  Authorization:other"
     ++ " --header Authorization: Bearer tok123")
  = "npx -y supergateway --sse https://example.com/mcp --oauth2Bearer <redacted:bearer>"
    ++ " --retry 3 --OAUTH2BEARER  <redacted:bearer>"
    ++ " --header Authorization: <redacted:authorization>".
Proof.
  destruct redactForLogs_flag_and_header as (Hargv & Hline & Hdoc). split; [|split].
  - exact (Hargv ["--sse"; "http://x"] "--OAuth2Bearer" "tok123" ["-v"]
             eq_refl eq_refl).
  - exact (Hline "x-api-key" ("Host: example.com" ++ LF) "X-Api-Key" "" " " "abc123"
             (LF ++ "Accept: text/plain")
             (or_intror (or_introl eq_refl)) eq_refl eq_refl eq_refl eq_refl
             ltac:(discriminate) eq_refl eq_refl eq_refl).
  - split; [reflexivity|]. split; [exact (Hdoc demo_log eq_refl)|].
    split; [reflexivity|]. exact (Hdoc demo_command_line eq_refl).
Defined.

End ProxyClaims.

(** ** Who sees the assignments of a redactor *)

Module HeapFacts.
Import Chars Regex Proxy Status Heap.
#[local] Open Scope list_scope.

Lemma keeps_refl n0 h : keeps n0 h h.
Proof. by repeat split. Qed.

Lemma keeps_trans n0 h1 h2 h3 : keeps n0 h1 h2 → keeps n0 h2 h3 → keeps n0 h1 h3.
Proof.
  intros (Hn1 & Hc1 & Hw1) (Hn2 & Hc2 & Hw2). repeat split.
  - lia.
  - intros l Hl. by rewrite Hc2, Hc1.
  - auto.
Qed.

Lemma values_set_field n0 k v fields :
  fresh_val n0 v → Forall (fresh_val n0) fields.*2 →
  Forall (fresh_val n0) (set_field k v fields).*2.
Proof.
  intros Hv. induction fields as [|[k' v'] fields IH]; simpl; intros Hf.
  - by repeat constructor.
  - inversion Hf as [|? ? Hv' Hf']; subst.
    destruct (String.eqb k' k); simpl; constructor; auto.
Qed.

Lemma assign_keeps n0 obj k v h :
  n0 ≤ obj → fresh_val n0 v → keeps n0 h (assign obj k v h).
Proof.
  intros Hobj Hv. unfold assign.
  destruct k as [s|i]; destruct (cells h !! obj) as [[fields|items]|] eqn:Hcell;
    try apply keeps_refl; (split; [simpl; lia|split]); simpl.
  - intros l Hl. rewrite lookup_insert_ne by lia. done.
  - intros Hnew l o Hl. simpl. destruct (decide (obj = l)) as [->|Hne].
    + rewrite lookup_insert_eq. intros [= <-]. simpl.
      apply values_set_field; [done|]. by apply (Hnew _ _ Hl Hcell).
    + rewrite lookup_insert_ne by done. by apply Hnew.
  - intros l Hl. rewrite lookup_insert_ne by lia. done.
  - intros Hnew l o Hl. simpl. destruct (decide (obj = l)) as [->|Hne].
    + rewrite lookup_insert_eq. intros [= <-]. simpl.
      apply Forall_insert; [|done]. by apply (Hnew _ _ Hl Hcell).
    + rewrite lookup_insert_ne by done. by apply Hnew.
Qed.

Lemma maskLast4_fresh n0 v : fresh_val n0 v → fresh_val n0 (Heap.maskLast4 v).
Proof. destruct v; simpl; try done. by destruct (String.length s =? 0). Qed.

Lemma entries_values n0 o :
  Forall (fresh_val n0) (values o) → Forall (λ kv, fresh_val n0 kv.2) (entries o).
Proof.
  destruct o as [fields|items]; simpl; intros H.
  - induction fields as [|[k v] fields IH]; simpl in *; [constructor|].
    inversion H; subst. constructor; auto.
  - apply Forall_lookup. intros i [k v] Hi.
    rewrite list_lookup_imap in Hi.
    destruct (items !! i) as [x|] eqn:Hx; [|discriminate]. simpl in Hi.
    injection Hi as <- <-. simpl. eapply Forall_lookup_1 in H; eauto.
Qed.

Lemma mask_cell_keeps n0 test l h :
  n0 ≤ l → cells_new n0 h → keeps n0 h (mask_cell test l h).
Proof.
  intros Hl Hnew. unfold mask_cell.
  destruct (cells h !! l) as [o|] eqn:Hcell; [|apply keeps_refl].
  pose proof (entries_values n0 o (Hnew _ _ Hl Hcell)) as Hent.
  revert Hent. generalize (entries o) as es. clear Hcell.
  intros es. revert h Hnew. induction es as [|[k v] es IH]; intros h Hnew Hent;
    simpl; [apply keeps_refl|].
  inversion Hent as [|? ? Hv Hes]; subst. simpl in Hv.
  destruct (test (key_string k)).
  - pose proof (assign_keeps n0 l k (Heap.maskLast4 v) h Hl (maskLast4_fresh _ _ Hv))
      as Hk.
    eapply keeps_trans; [exact Hk|]. apply IH; [|done]. by apply Hk.
  - by apply IH.
Qed.

Lemma clone_list_ok n0 clone_val (vs : list hval) :
  (∀ v, clone_ok n0 (fresh_val n0) (clone_val v)) →
  clone_ok n0 (Forall (fresh_val n0)) (clone_list clone_val vs).
Proof.
  intros Hval. induction vs as [|v vs IH]; intros memo h r memo' h' Hc Hn Hm Hnew;
    simpl in Hc.
  - injection Hc as <- <- <-. by repeat split.
  - destruct (clone_val v memo h) as [[[v1 memo1] h1]|] eqn:Hv; [|discriminate].
    destruct (clone_list clone_val vs memo1 h1) as [[[vs2 memo2] h2]|] eqn:Hvs;
      [|discriminate].
    injection Hc as <- <- <-.
    destruct (Hval v _ _ _ _ _ Hv Hn Hm Hnew) as (Hn1 & Hc1 & Hnew1 & Hm1 & Hf1).
    destruct (IH _ _ _ _ _ Hvs ltac:(lia) Hm1 Hnew1) as (Hn2 & Hc2 & Hnew2 & Hm2 & Hf2).
    repeat split; try done; [lia| |by constructor].
    intros l Hl. by rewrite Hc2, Hc1.
Qed.

Lemma alloc_new n0 o h :
  n0 ≤ next h → Forall (fresh_val n0) (values o) → cells_new n0 h →
  cells_new n0 (alloc o h).2.
Proof.
  intros Hn Ho Hnew l o' Hl. simpl.
  destruct (decide (next h = l)) as [<-|Hne].
  - rewrite lookup_insert_eq. by intros [= <-].
  - rewrite lookup_insert_ne by done. by apply Hnew.
Qed.

Lemma fill_new n0 l o h :
  n0 ≤ l → Forall (fresh_val n0) (values o) → cells_new n0 h →
  cells_new n0 (fill l o h).
Proof.
  intros Hn Ho Hnew l' o' Hl. simpl.
  destruct (decide (l = l')) as [<-|Hne].
  - rewrite lookup_insert_eq. by intros [= <-].
  - rewrite lookup_insert_ne by done. by apply Hnew.
Qed.

Lemma zip_values n0 (ks : list string) (vs : list hval) :
  Forall (fresh_val n0) vs → Forall (fresh_val n0) (zip ks vs).*2.
Proof.
  intros H. revert ks. induction H as [|v vs Hv Hvs IH]; intros [|k ks]; simpl;
    try constructor; auto.
Qed.

Lemma structuredClone_ok n0 fuel v :
  clone_ok n0 (fresh_val n0) (structuredClone fuel v).
Proof.
  revert v. induction fuel as [|fuel IH]; intros v memo h r memo' h' Hc Hn Hm Hnew;
    (destruct v as [| | | | |l];
     try (simpl in Hc; injection Hc as <- <- <-; by repeat split)); simpl in Hc;
    (destruct (memo !! l) as [l'|] eqn:Hl;
     [injection Hc as <- <- <-; repeat split; try done; simpl; by eapply Hm|]);
    [discriminate|].
  assert (Hm1 : memo_new n0 (<[l := next h]> memo)).
  { intros a b. destruct (decide (l = a)) as [->|Hne].
    - rewrite lookup_insert_eq. intros [= <-]. done.
    - rewrite lookup_insert_ne by done. apply Hm. }
  destruct (cells h !! l) as [[fields|items]|] eqn:Hcell; [| |discriminate].
  - destruct (clone_list (structuredClone fuel) fields.*2 (<[l := next h]> memo)
                (alloc (HObject []) h).2) as [[[vs memo2] h2]|] eqn:Hvs;
      simpl in Hvs; rewrite Hvs in Hc; [|discriminate].
    injection Hc as <- <- <-.
    destruct (clone_list_ok n0 _ _ IH _ _ _ _ _ Hvs) as (Hn2 & Hc2 & Hnew2 & Hm2 & Hf2);
      [simpl; lia|done|apply alloc_new; try done; constructor|].
    simpl in Hn2. split; [simpl; lia|]. split; [|split; [|split; [done|simpl; lia]]].
    + intros a Ha. simpl. rewrite lookup_insert_ne by lia. rewrite Hc2 by done.
      simpl. rewrite lookup_insert_ne by lia. done.
    + apply fill_new; [done| |done]. simpl. by apply zip_values.
  - destruct (clone_list (structuredClone fuel) items (<[l := next h]> memo)
                (alloc (HArray []) h).2) as [[[vs memo2] h2]|] eqn:Hvs;
      simpl in Hvs; rewrite Hvs in Hc; [|discriminate].
    injection Hc as <- <- <-.
    destruct (clone_list_ok n0 _ _ IH _ _ _ _ _ Hvs) as (Hn2 & Hc2 & Hnew2 & Hm2 & Hf2);
      [simpl; lia|done|apply alloc_new; try done; constructor|].
    simpl in Hn2. split; [simpl; lia|]. split; [|split; [|split; [done|simpl; lia]]].
    + intros a Ha. simpl. rewrite lookup_insert_ne by lia. rewrite Hc2 by done.
      simpl. rewrite lookup_insert_ne by lia. done.
    + by apply fill_new.
Qed.

Lemma get_field_fresh n0 l k h :
  n0 ≤ l → cells_new n0 h → fresh_val n0 (get_field l k h).
Proof.
  intros Hl Hnew. unfold get_field.
  destruct (cells h !! l) as [[fields|items]|] eqn:Hcell; try done.
  destruct (list_find _ fields) as [[i [k' v]]|] eqn:Hfind; [|done].
  apply list_find_Some in Hfind as (Hi & _ & _).
  pose proof (Hnew _ _ Hl Hcell) as Hall. simpl in Hall.
  eapply Forall_lookup_1 in Hall; [exact Hall|].
  rewrite list_lookup_fmap, Hi. reflexivity.
Qed.

Lemma mask_field_keeps n0 test clone f h :
  n0 ≤ clone → cells_new n0 h → keeps n0 h (mask_field test clone f h).
Proof.
  intros Hc Hnew. unfold mask_field.
  pose proof (get_field_fresh n0 clone f h Hc Hnew) as Hf.
  destruct (get_field clone f h); try apply keeps_refl.
  by apply mask_cell_keeps.
Qed.

(** [redactSensitive] is non-mutating: whatever it returns, every object
    that existed before the call is as it was. *)
Lemma redactSensitive_unchanged fuel obj h clone h' :
  wf h → Heap.redactSensitive fuel obj h = Some (clone, h') → unchanged h h'.
Proof.
  intros Hwf Hr. unfold Heap.redactSensitive in Hr.
  destruct (structuredClone fuel (HRef obj) ∅ h) as [[[v memo] h1]|] eqn:Hc;
    [|discriminate].
  destruct v as [| | | | |c]; try discriminate. injection Hr as <- <-.
  destruct (structuredClone_ok (next h) fuel _ _ _ _ _ _ Hc)
    as (Hn1 & Hc1 & Hnew1 & _ & Hfresh); [done|done| |].
  { intros l o Hl Hcell. by rewrite Hwf in Hcell. }
  simpl in Hfresh.
  pose proof (mask_field_keeps (next h) SENSITIVE_KEYS c "headers" h1 Hfresh Hnew1)
    as (Hn2 & Hc2 & Hnew2).
  pose proof (mask_field_keeps (next h) ENV_SENSITIVE c "env" _ Hfresh (Hnew2 Hnew1))
    as (Hn3 & Hc3 & Hnew3).
  pose proof (mask_cell_keeps (next h) SENSITIVE_KEYS c _ Hfresh (Hnew3 (Hnew2 Hnew1)))
    as (Hn4 & Hc4 & _).
  intros l Hl. by rewrite Hc4, Hc3, Hc2, Hc1.
Qed.

End HeapFacts.

Module HeapClaims.
Import Heap HeapFacts.

Lemma nested_secret_wf : wf nested_secret.
Proof.
  intros l Hl. simpl in *. rewrite !lookup_insert_ne by lia. apply lookup_empty.
Qed.

(** The status redactor returns a redacted copy of the nested example and
    leaves both of its objects as they were. *)
Lemma redactSensitive_nested_unchanged :
  ∃ clone h',
    Heap.redactSensitive 3 0 nested_secret = Some (clone, h') ∧
    unchanged nested_secret h' ∧
    ∃ headers, get_field clone "headers" h' = HRef headers ∧
               get_field headers "Authorization" h' = HStr "****c123".
Proof.
  destruct (Heap.redactSensitive 3 0 nested_secret) as [[clone h']|] eqn:Hr;
    [|vm_compute in Hr; discriminate Hr].
  exists clone, h'. split; [reflexivity|]. split.
  - eapply redactSensitive_unchanged; [apply nested_secret_wf|exact Hr].
  - vm_compute in Hr. injection Hr as <- <-. exists 3. split; vm_compute; reflexivity.
Qed.

(** C6 fails on the code for the object branch of [redactForLogs]: the
    copy is one level deep, so the walk over the copy assigns into the
    caller's nested objects. For [{ headers: { Authorization: 'Bearer
    abc123' } }] the caller's [headers] object holds the placeholder
    after the call. *)
Theorem redactForLogs_object_mutates_input :
  ∃ clone h',
    redactForLogs_object 3 0 nested_secret = Some (clone, h') ∧
    cells nested_secret !! 1
      = Some (HObject [("Authorization", HStr "Bearer abc123")]) ∧
    cells h' !! 1
      = Some (HObject [("Authorization", HStr "Bearer <redacted:authorization>")]) ∧
    ¬ unchanged nested_secret h'.
Proof.
  destruct (redactForLogs_object 3 0 nested_secret) as [[clone h']|] eqn:Hr;
    [|vm_compute in Hr; discriminate Hr].
  exists clone, h'. split; [reflexivity|].
  vm_compute in Hr. injection Hr as <- <-.
  assert (H0 : cells nested_secret !! 1
               = Some (HObject [("Authorization", HStr "Bearer abc123")]))
    by (vm_compute; reflexivity).
  split; [exact H0|]. split; [vm_compute; reflexivity|].
  intros Hun. specialize (Hun 1 ltac:(simpl; lia)).
  rewrite H0 in Hun. vm_compute in Hun. discriminate Hun.
Qed.

End HeapClaims.

(** ** Option validation *)

Module ConfigureClaims.
Import Chars Render Configure.

(** C7, as written, fails for two of the cases it lists: a stdio spec
    without a command passes validation, and so does an http spec without
    an endpoint in a dry run; [execute] then goes on to the rest of the
    command. *)
Lemma validateOptions_counterexample :
  missing_command stdio_no_command = true ∧
  interactive stdio_no_command = false ∧
  validateOptions demo_env stdio_no_command = ([], inr tt) ∧
  (∀ W (rest : W → W * (string + unit)) (w : W),
     execute demo_env stdio_no_command rest w = ([], (rest w).1, (rest w).2)) ∧
  missing_url http_dry_run_no_url = true ∧
  interactive http_dry_run_no_url = false ∧
  validateOptions demo_env http_dry_run_no_url = ([], inr tt).
Proof.
  repeat split; try reflexivity.
  intros W rest w. unfold execute. simpl. by destruct (rest w).
Qed.

(** C7, amended. In non-interactive mode a missing endpoint URL for http
    or sse, outside a dry run, and in any mode a malformed endpoint URL
    for http or sse, make [execute] throw a validation error at once:
    nothing after validation runs, the world of configuration files is
    as it was, and not even the directory probes of validation have been
    made. A missing command for stdio is not validated. *)
Theorem execute_rejects_invalid_url {W} (env : Env) (o : ConfigureCommandOptions)
    (rest : W → W * (string + unit)) (w : W) :
  (interactive o = false ∧ missing_url o = true ∧ dryRun o = false)
  ∨ malformed_url env o = true →
  ∃ e, execute env o rest w = ([], w, inl e) ∧ validateOptions env o = ([], inl e).
Proof.
  unfold execute, validateOptions, missing_url, malformed_url.
  intros [(Hi & Hm & Hd)|Hm].
  - apply andb_true_iff in Hm as [Ht He]. rewrite Hi, Ht, He, Hd. simpl.
    eexists. split; reflexivity.
  - apply andb_true_iff in Hm as [Hm Hp]. apply andb_true_iff in Hm as [Ht He].
    rewrite Ht, He, Hp. simpl. rewrite !andb_false_r. simpl.
    eexists. split; reflexivity.
Qed.

(** The amended C7 at an http endpoint that does not parse. *)
Lemma execute_rejects_invalid_url_witness :
  malformed_url demo_env http_bad_url = true ∧
  ∀ (rest : nat → nat * (string + unit)),
    execute demo_env http_bad_url rest 0
    = ([], 0, inl "Invalid MCP server endpoint URL: not a url").
Proof.
  split; [reflexivity|]. intros rest.
  destruct (execute_rejects_invalid_url demo_env http_bad_url rest 0
              (or_intror eq_refl)) as (e & He & Hv).
  rewrite He. f_equal. f_equal. injection Hv as <-. reflexivity.
Defined.

End ConfigureClaims.

(** ** The status survey *)

Module StatusCommandClaims.
Import Chars Status StatusCommand.

(** A file that [readJsonFile] cannot read or parse gives a status with
    the error attached, and the status of one detection does not depend
    on the others. *)
Lemma json_parse_error_attached (rd : Reader) (det : ProviderDetectionResult)
    (path e : string) :
  detected det = true → configPath det = Some path → path ≠ "" →
  provider_name det ≠ "Codex CLI" → readJsonFile rd path = inl e →
  providerStatus rd det
  = {| name := provider_name det; status_detected := true;
       status_configPath := Some path; error := Some e; servers := None |}.
Proof.
  intros Hd Hp Hne Hn Hr. unfold providerStatus. rewrite Hd, Hp. simpl.
  apply String.eqb_neq in Hne, Hn. by rewrite Hne, Hn, Hr.
Qed.

Lemma buildProviderStatuses_independent (rd : Reader)
    (before after : list ProviderDetectionResult) (det : ProviderDetectionResult) :
  buildProviderStatuses rd (before ++ det :: after)%list
  = (buildProviderStatuses rd before ++
     providerStatus rd det :: buildProviderStatuses rd after)%list.
Proof. unfold buildProviderStatuses. by rewrite map_app. Qed.

(** C8 fails on the code for the Codex CLI provider: when its file is
    read but [TOML.parse] throws, the inner [catch] swallows the error
    (its comment announces a generic error below that never comes) and
    the status is returned with an empty server list and no error. *)
Theorem codex_parse_error_lost (rd : Reader) (det : ProviderDetectionResult)
    (path raw : string) :
  detected det = true → configPath det = Some path → path ≠ "" →
  provider_name det = "Codex CLI" →
  readFile rd path = inr raw → is_blank raw = false → TOML_parse rd raw = None →
  providerStatus rd det
  = {| name := "Codex CLI"; status_detected := true;
       status_configPath := Some path; error := None; servers := Some [] |}.
Proof.
  intros Hd Hp Hne Hn Hr Hb Ht. unfold providerStatus, codex_servers.
  rewrite Hd, Hp, Hn. simpl. apply String.eqb_neq in Hne.
  by rewrite Hne, Hr, Hb, Ht.
Qed.

(** The loss at a survey of three agents: the Codex file is not TOML and
    its status has no error, the Gemini file is not JSON and its status
    has one, the Cursor file is read. *)
Lemma codex_parse_error_lost_witness :
  buildProviderStatuses demo_reader [codex_detection; gemini_detection; cursor_detection]
  = [ {| name := "Codex CLI"; status_detected := true;
         status_configPath := Some "/home/u/.codex/config.toml";
         error := None; servers := Some [] |};
      {| name := "Gemini CLI"; status_detected := true;
         status_configPath := Some "/home/u/.gemini/settings.json";
         error := Some "Unexpected token"; servers := None |};
      {| name := "Cursor"; status_detected := true;
         status_configPath := Some "/home/u/.cursor/mcp.json";
         error := None; servers := Some [] |} ].
Proof.
  unfold buildProviderStatuses. simpl map.
  rewrite (codex_parse_error_lost demo_reader codex_detection
             "/home/u/.codex/config.toml" "[[[ not toml"
             eq_refl eq_refl ltac:(discriminate) eq_refl eq_refl eq_refl eq_refl).
  reflexivity.
Defined.

End StatusCommandClaims.

(** ** The configuration transaction *)

Module TransactionSpec.
Import Render Transaction.

Section store.
Context (cd : Codec) (fails : Faults).

Lemma backup_files (enabled : bool) (path : string) (fs fs1 : FileSystem) bp :
  backup fails enabled path fs = inr (bp, fs1) → files fs1 = files fs.
Proof.
  unfold backup. destruct enabled; [|by intros [= _ <-]].
  destruct (files fs !! path); [|by intros [= _ <-]].
  destruct (fails _ _ _); [discriminate|]. by intros [= _ <-].
Qed.

Lemma merge_error (path : string) (document : ConfigDocument)
    (serverMapKey serverId : string) (renderedEntry : value) e :
  merge path document serverMapKey serverId renderedEntry = inl e → e = ShapeError path.
Proof.
  unfold merge. destruct (document !! serverMapKey) as [v|]; [|discriminate].
  destruct v; try discriminate; by intros [= <-].
Qed.

(** One apply step: a failed step leaves the files alone; a successful
    one has replaced the agent's file and has captured what was there. *)
Lemma applyOne_spec (backupOn : bool) (spec : RenderInput) (a : AgentDescriptor)
    (fs : FileSystem) :
  let '(fs', r) := applyOne cd fails backupOn spec a fs in
  agent r = a ∧ apply_error (error r) ∧
  (if applied r then
     (∃ bytes, files fs' = <[configPath a := bytes]> (files fs)) ∧
     captured cd r (files fs !! configPath a)
   else files fs' = files fs).
Proof.
  unfold applyOne.
  destruct (backup fails backupOn (configPath a) fs) as [e|[bp fs1]] eqn:Hb.
  { cbn [applied agent error]. repeat split.
    unfold backup in Hb. destruct backupOn, (files fs !! configPath a);
      try discriminate Hb.
    destruct (fails _ _ _); [|discriminate Hb]. injection Hb as <-. by intros path. }
  pose proof (backup_files _ _ _ _ _ Hb) as Hf.
  unfold load, capture. rewrite Hf.
  destruct (files fs !! configPath a) as [bytes|] eqn:Hfile.
  - destruct (fails (ticks fs1) Read (configPath a)).
    { cbn [applied agent error]. repeat split; try done. }
    destruct (parse cd (format a) bytes) as [[| | | | | |document]|] eqn:Hparse;
      try (cbn [applied agent error]; repeat split; done).
    destruct (merge _ _ _ _ _) as [e|document'] eqn:Hmerge.
    { cbn [applied agent error]. rewrite (merge_error _ _ _ _ _ _ Hmerge).
      by repeat split. }
    unfold save. destruct (serialize cd (format a) document') as [bytes'|].
    + destruct (fails (ticks fs1) Write (configPath a)).
      { cbn [applied agent error]. repeat split; done. }
      cbn [applied agent error]. split; [done|]. split; [done|]. split.
      * exists bytes'. simpl. by rewrite Hf.
      * unfold captured. cbn [previousDocument agent]. by exists document.
    + cbn [applied agent error]. repeat split; done.
  - destruct (merge _ _ _ _ _) as [e|document'] eqn:Hmerge.
    { cbn [applied agent error]. rewrite (merge_error _ _ _ _ _ _ Hmerge).
      by repeat split. }
    unfold save. destruct (serialize cd (format a) document') as [bytes'|].
    + destruct (fails (ticks fs1) Write (configPath a)).
      { cbn [applied agent error]. repeat split; done. }
      cbn [applied agent error]. split; [done|]. split; [done|]. split.
      * exists bytes'. simpl. by rewrite Hf.
      * reflexivity.
    + cbn [applied agent error]. repeat split; done.
Qed.

(** What restoring one record does to the files. *)
Lemma restore_files (r : TransactionRecord) (fs fs' : FileSystem) :
  restore cd fails r fs = inr fs' →
  ∀ path, files fs' !! path
          = if String.eqb (configPath (agent r)) path then restore_value cd r
            else files fs !! path.
Proof.
  unfold restore, restore_value, save, remove. intros H path.
  destruct (previousDocument r) as [document|].
  - destruct (serialize cd (format (agent r)) document) as [bytes|]; [|discriminate H].
    destruct (fails _ _ _); [discriminate H|]. injection H as <-. simpl.
    destruct (String.eqb_spec (configPath (agent r)) path) as [->|Hne].
    + by rewrite lookup_insert_eq.
    + by rewrite lookup_insert_ne.
  - destruct (fails _ _ _); [discriminate H|]. injection H as <-. simpl.
    destruct (String.eqb_spec (configPath (agent r)) path) as [->|Hne].
    + by rewrite lookup_delete_eq.
    + by rewrite lookup_delete_ne.
Qed.

(** A record that is restored has a document that serializes, if it has
    one. *)
Lemma restore_serializes (r : TransactionRecord) (fs fs' : FileSystem) document :
  restore cd fails r fs = inr fs' → previousDocument r = Some document →
  ∃ bytes, serialize cd (format (agent r)) document = Some bytes.
Proof.
  unfold restore, save. intros H Hprev. rewrite Hprev in H.
  destruct (serialize cd (format (agent r)) document) as [bytes|]; [|discriminate H].
  by exists bytes.
Qed.

(** A rollback that completes: what it leaves at each path, and its
    records. *)
Lemma rollback_files (done : list TransactionRecord) (fs fsr : FileSystem) reverted :
  rollback cd fails done fs = (fsr, reverted, None) →
  (∀ path, files fsr !! path
           = match oldest path done with
             | Some r => restore_value cd r
             | None => files fs !! path
             end) ∧
  (∀ r document, r ∈ done → previousDocument r = Some document →
     ∃ bytes, serialize cd (format (agent r)) document = Some bytes) ∧
  reverted = map revert done.
Proof.
  revert fs fsr reverted. induction done as [|r older IH]; intros fs fsr reverted.
  { intros [= <- <-]. split; [done|]. split; [|done]. intros r document Hin.
    by apply elem_of_nil in Hin. }
  cbn [rollback]. destruct (restore cd fails r fs) as [e|fs'] eqn:Hrestore;
    [discriminate|].
  destruct (rollback cd fails older fs') as [[fs'' reverted'] e] eqn:Hroll.
  intros [= <- <- ->]. destruct (IH _ _ _ Hroll) as (Hfiles & Hser & ->).
  split; [|split; [|done]].
  - intros path. rewrite Hfiles. cbn [oldest].
    destruct (oldest path older); [done|].
    rewrite (restore_files _ _ _ Hrestore).
    by destruct (String.eqb (configPath (agent r)) path).
  - intros r' document [->|Hin]%elem_of_cons Hprev.
    + by eapply restore_serializes.
    + by eapply Hser.
Qed.

(** A path with a record has an oldest record. *)
Lemma oldest_Some (done : list TransactionRecord) (r : TransactionRecord) :
  r ∈ done → ∃ r', oldest (configPath (agent r)) done = Some r'.
Proof.
  induction done as [|r0 older IH]; [by intros ?%elem_of_nil|].
  intros [->|Hin]%elem_of_cons; cbn [oldest].
  - destruct (oldest _ older); [by eexists|]. rewrite String.eqb_refl. by eexists.
  - destruct (IH Hin) as [r' ->]. by eexists.
Qed.

(** A rollback that stops stops with a [RollbackError]. *)
Lemma rollback_error (done : list TransactionRecord) (fs fsr : FileSystem) reverted e :
  rollback cd fails done fs = (fsr, reverted, Some e) → ∃ path, e = RollbackError path.
Proof.
  revert fs fsr reverted. induction done as [|r older IH]; intros fs fsr reverted;
    [discriminate|].
  cbn [rollback]. destruct (restore cd fails r fs) as [e'|fs'] eqn:Hrestore.
  - intros [= _ _ <-]. unfold restore in Hrestore.
    destruct (previousDocument r);
      [destruct (save _ _ _ _ _ _)|destruct (remove _ _ _)];
      try discriminate Hrestore; injection Hrestore as <-; by eexists.
  - destruct (rollback cd fails older fs') as [[fs'' reverted'] e'] eqn:Hroll'.
    intros [= _ _ ->]. by eapply IH.
Qed.

(** The apply phase keeps its records able to undo it. *)
Lemma applyAll_revertible (backupOn : bool) (spec : RenderInput)
    (agents : list AgentDescriptor) (done : list TransactionRecord)
    (fs : FileSystem) (m0 : gmap string string) :
  revertible cd done m0 (files fs) →
  Forall (λ r, apply_error (error r)) done →
  let '(fs', done', failed) := applyAll cd fails backupOn spec agents done fs in
  revertible cd done' m0 (files fs') ∧
  Forall (λ r, apply_error (error r)) done' ∧
  match failed with
  | Some r => applied r = false ∧ apply_error (error r)
  | None => True
  end.
Proof.
  revert done fs. induction agents as [|a agents IH]; intros done fs Hrev Herrs; simpl.
  { done. }
  pose proof (applyOne_spec backupOn spec a fs) as Hone.
  destruct (applyOne cd fails backupOn spec a fs) as [fs' r].
  destruct Hone as (Hagent & Herr & Hstep).
  destruct (applied r) eqn:Happ.
  - destruct Hstep as ((bytes & Hfiles) & Hrestored). apply IH; [|by constructor].
    intros path. specialize (Hrev path). cbn [oldest].
    destruct (oldest path done) as [r'|].
    + destruct Hrev as (Hin & Hpath & Hcap).
      split; [by apply list_elem_of_further|done].
    + rewrite Hagent.
      destruct (String.eqb_spec (configPath a) path) as [<-|Hne].
      * split; [by apply list_elem_of_here|]. rewrite Hagent.
        split; [done|]. by rewrite <- Hrev.
      * by rewrite Hfiles, lookup_insert_ne.
  - split; [by rewrite Hstep|done].
Qed.

End store.

End TransactionSpec.

Module TransactionClaims.
Import Render Transaction TransactionSpec.




End TransactionClaims.

(** ** Splitting and joining *)

Module JsFacts.
Import Chars Js StringFacts.

Lemma nonempty_true (s : string) : Configure.nonempty s = true ↔ s ≠ "".
Proof.
  unfold Configure.nonempty. rewrite negb_true_iff.
  destruct (String.eqb_spec s ""); split; congruence.
Qed.

Lemma split_cons (c : ascii) (s : string) : ∃ p ps, split c s = p :: ps.
Proof.
  induction s as [|d s IH]; simpl; [by eexists _, _|].
  destruct (Ascii.eqb d c); [by eexists _, _|].
  destruct IH as (p & ps & ->). by eexists _, _.
Qed.

Lemma split_no_sep (c : ascii) (s : string) :
  Forall (λ p, has_char c p = false) (split c s).
Proof.
  induction s as [|d s IH]; simpl; [by repeat constructor|].
  destruct (Ascii.eqb d c) eqn:E; [by constructor|].
  destruct (split c s) as [|p ps]; [by repeat constructor; simpl; rewrite Ascii.eqb_sym, E|].
  inversion IH; subst. constructor; [|done].
  simpl. by rewrite Ascii.eqb_sym, E.
Qed.

Lemma join_cons (sep x y : string) (l : list string) :
  join sep (x :: y :: l) = x ++ sep ++ join sep (y :: l).
Proof. reflexivity. Qed.

(** Joining the pieces with the separator gives the string back. *)
Lemma join_split (c : ascii) (s : string) : join (String c "") (split c s) = s.
Proof.
  induction s as [|d s IH]; [reflexivity|]. cbn [split].
  destruct (split_cons c s) as (p & ps & E). rewrite E in *.
  destruct (Ascii.eqb_spec d c) as [->|_].
  - rewrite join_cons, IH. reflexivity.
  - destruct ps as [|q ps].
    + cbn [String.concat] in *. by rewrite IH.
    + rewrite join_cons in *. rewrite <- IH. reflexivity.
Qed.

Lemma split_clean (c : ascii) (a : string) : has_char c a = false → split c a = [a].
Proof.
  induction a as [|d a IH]; [reflexivity|]. simpl. intros H.
  apply orb_false_iff in H as [H1 H2]. rewrite Ascii.eqb_sym, H1.
  by rewrite IH.
Qed.

Lemma split_app (c : ascii) (a b : string) :
  has_char c a = false → split c (a ++ String c b) = a :: split c b.
Proof.
  induction a as [|d a IH]; simpl; intros H.
  - by rewrite Ascii.eqb_refl.
  - apply orb_false_iff in H as [H1 H2]. rewrite Ascii.eqb_sym, H1.
    by rewrite IH.
Qed.

(** Splitting a join of pieces that are free of the separator gives the
    pieces back. *)
Lemma split_join (c : ascii) (l : list string) :
  l ≠ [] → Forall (λ p, has_char c p = false) l →
  split c (join (String c "") l) = l.
Proof.
  induction l as [|p l IH]; [done|]. intros _ H.
  inversion H as [|? ? Hp Hl]; subst.
  destruct l as [|q l]; [by apply split_clean|].
  change (join (String c "") (p :: q :: l))
    with (p ++ String c (join (String c "") (q :: l))).
  rewrite split_app by exact Hp. f_equal. by apply IH.
Qed.

Lemma filter_Boolean_id (l : list string) :
  Forall (λ p, p ≠ "") l → filter_Boolean l = l.
Proof.
  induction 1 as [|p l Hp _ IH]; [reflexivity|].
  unfold filter_Boolean in *. simpl.
  apply nonempty_true in Hp. by rewrite Hp, IH.
Qed.

Lemma filter_Boolean_In (p : string) (l : list string) :
  In p (filter_Boolean l) ↔ In p l ∧ p ≠ "".
Proof. unfold filter_Boolean. by rewrite filter_In, nonempty_true. Qed.

Lemma all_sep_split (c : ascii) (s : string) :
  filter_Boolean (split c s) = [] ↔ forallb (Ascii.eqb c) (chars s) = true.
Proof.
  induction s as [|d s IH]; [done|]. simpl.
  rewrite (Ascii.eqb_sym c d).
  destruct (Ascii.eqb d c); simpl.
  - exact IH.
  - destruct (split_cons c s) as (p & ps & ->). simpl. done.
Qed.

End JsFacts.

(** ** Local tools *)

Module ToolsFacts.
Import Chars Js Tools StringFacts JsFacts.
#[local] Arguments splitCommand : simpl never.

Lemma splitCommand_parts (cmd : string) :
  splitCommand cmd
  = (List.hd "" (filter_Boolean (split " " cmd)),
     List.tl (filter_Boolean (split " " cmd))).
Proof.
  unfold splitCommand. destruct (filter_Boolean (split " " cmd)) as [|p [|q l]]; done.
Qed.

Lemma parts_clean (cmd : string) :
  Forall (λ a, a ≠ "" ∧ has_char " " a = false) (filter_Boolean (split " " cmd)).
Proof.
  apply List.Forall_forall. intros a Ha.
  apply filter_Boolean_In in Ha as [Ha Hne]. split; [exact Hne|].
  pose proof (split_no_sep " " cmd) as H.
  by apply (proj1 (List.Forall_forall _ _) H).
Qed.

Lemma detectTool_commands_spec (which : string → bool) (cmds : list string) :
  match detectTool_commands which cmds with
  | {| installed := true; command := Some c |} =>
      which c = true ∧ ∃ cmd, In cmd cmds ∧ c = (splitCommand cmd).1
  | {| installed := false; command := None |} =>
      ∀ cmd, In cmd cmds → which (splitCommand cmd).1 = false
  | _ => False
  end.
Proof.
  induction cmds as [|c cmds IH]; cbn [detectTool_commands]; [by intros ? []|].
  destruct (which (splitCommand c).1) eqn:E.
  - split; [done|]. exists c. by split; [left|].
  - destruct (detectTool_commands which cmds) as [[] [c'|]]; try done.
    + destruct IH as (Hw & cmd & Hin & ->). split; [done|]. exists cmd. by split; [right|].
    + intros cmd [<-|Hin]; [done|by apply IH].
Qed.

Lemma detectTool_installed (which : string → bool) (tool : ToolEntry) :
  installed (detectTool which tool) = true ↔
  (bin tool ≠ "" ∧ which (bin tool) = true) ∨
  ∃ cmd, In cmd (default [] (discovery_commands tool)) ∧
         which (splitCommand cmd).1 = true.
Proof.
  unfold detectTool.
  pose proof (detectTool_commands_spec which (default [] (discovery_commands tool))) as H.
  destruct (Configure.nonempty (bin tool) && which (bin tool)) eqn:E.
  - apply andb_true_iff in E as [E1 E2]. apply nonempty_true in E1.
    cbn [installed]. split; [by left|done].
  - cbv zeta.
    destruct (detectTool_commands which (default [] (discovery_commands tool)))
      as [[] [c|]]; try done; cbn [installed].
    + destruct H as (Hw & cmd & Hin & ->). split; [|done]. intros _. right. by exists cmd.
    + split; [done|]. intros [[H1 H2]|(cmd & Hin & Hw)].
      * apply nonempty_true in H1. by rewrite H1, H2 in E.
      * rewrite (H cmd Hin) in Hw. done.
Qed.

Lemma detectTool_command (which : string → bool) (tool : ToolEntry) :
  installed (detectTool which tool) = true →
  ∃ c, command (detectTool which tool) = Some c ∧ which c = true.
Proof.
  unfold detectTool.
  pose proof (detectTool_commands_spec which (default [] (discovery_commands tool))) as H.
  destruct (Configure.nonempty (bin tool) && which (bin tool)) eqn:E.
  - apply andb_true_iff in E as [E1 E2]. cbn [installed command].
    intros _. by exists (bin tool).
  - cbv zeta.
    destruct (detectTool_commands which (default [] (discovery_commands tool)))
      as [[] [c|]]; try done; cbn [installed command].
    intros _. exists c. by destruct H.
Qed.

Lemma detectTool_not_installed (which : string → bool) (tool : ToolEntry) :
  installed (detectTool which tool) = false → command (detectTool which tool) = None.
Proof.
  unfold detectTool.
  pose proof (detectTool_commands_spec which (default [] (discovery_commands tool))) as H.
  destruct (Configure.nonempty (bin tool) && which (bin tool)); [done|].
  cbv zeta.
  by destruct (detectTool_commands which (default [] (discovery_commands tool)))
    as [[] [c|]].
Qed.

Lemma toLowerCase_idem (s : string) : toLowerCase (toLowerCase s) = toLowerCase s.
Proof.
  unfold toLowerCase. induction s as [|c s IH]; [reflexivity|].
  cbn [string_map]. by rewrite CharFacts.to_lower_idem, IH.
Qed.

(** The installer chosen is one of the platform; none is chosen only
    when the platform has none. *)
Lemma chosen_installer_In (platform mgr : string) (tool : ToolEntry) :
  match chosen_installer platform mgr tool with
  | Some i => In i (platform_installers platform tool)
  | None => platform_installers platform tool = []
  end.
Proof.
  unfold chosen_installer. cbv zeta.
  set (l := platform_installers platform tool).
  assert (Hhead : match head l with Some i => In i l | None => l = [] end).
  { destruct l; [done|]. by left. }
  destruct (negb (String.eqb mgr "auto")); [|exact Hhead].
  destruct (List.find _ l) as [cand|] eqn:Hfind; [|exact Hhead].
  by apply find_some in Hfind as [? _].
Qed.

End ToolsFacts.

Module ToolsClaims.
Import Chars Js Tools StringFacts JsFacts ToolsFacts.
#[local] Arguments splitCommand : simpl never.

(** [splitCommand]: no token holds a space and no argument is empty; the
    command is empty exactly when the line is made of spaces only, and
    then there are no arguments. *)
Theorem splitCommand_tokens (cmd : string) :
  has_char " " (splitCommand cmd).1 = false ∧
  Forall (λ a, a ≠ "" ∧ has_char " " a = false) (splitCommand cmd).2 ∧
  ((splitCommand cmd).1 = "" ↔ forallb (Ascii.eqb " ") (chars cmd) = true) ∧
  ((splitCommand cmd).1 = "" → (splitCommand cmd).2 = []).
Proof.
  rewrite splitCommand_parts. simpl.
  pose proof (parts_clean cmd) as H.
  pose proof (all_sep_split " " cmd) as Hall.
  destruct (filter_Boolean (split " " cmd)) as [|p l]; simpl.
  - repeat split; try done. intros _. by apply Hall.
  - inversion H as [|? ? [Hne Hp] Hl]; subst. repeat split; try done.
    intros Hs. apply Hall in Hs. discriminate Hs.
Qed.

(** [splitCommand] after [join(' ')]: a command and arguments that are
    non-empty and free of spaces come back as they were. *)
Theorem splitCommand_join (command : string) (args : list string) :
  Forall (λ a, a ≠ "" ∧ has_char " " a = false) (command :: args) →
  splitCommand (join " " (command :: args)) = (command, args).
Proof.
  intros H. rewrite splitCommand_parts.
  rewrite split_join; [|done|].
  - rewrite filter_Boolean_id; [done|].
    eapply List.Forall_impl; [|exact H]. by intros a [? _].
  - eapply List.Forall_impl; [|exact H]. by intros a [_ ?].
Qed.

Lemma splitCommand_join_witness :
  splitCommand (join " " ["npx"; "-y"; "@modelcontextprotocol/server-github"])
  = ("npx", ["-y"; "@modelcontextprotocol/server-github"]).
Proof.
  apply (splitCommand_join "npx" ["-y"; "@modelcontextprotocol/server-github"]).
  repeat constructor; discriminate.
Defined.

(** [detectTool] reports a tool as installed exactly when its [bin] is
    on the path or the first token of one of its discovery commands is;
    the command it reports for an installed tool is on the path, and it
    reports no command for a tool that is not installed. *)
Theorem detectTool_on_path (which : string → bool) (tool : ToolEntry) :
  (installed (detectTool which tool) = true ↔
   (bin tool ≠ "" ∧ which (bin tool) = true) ∨
   ∃ cmd, In cmd (default [] (discovery_commands tool)) ∧
          which (splitCommand cmd).1 = true) ∧
  match command (detectTool which tool) with
  | Some c => installed (detectTool which tool) = true ∧ which c = true
  | None => installed (detectTool which tool) = false
  end.
Proof.
  split; [apply detectTool_installed|].
  pose proof (detectTool_command which tool) as H.
  destruct (installed (detectTool which tool)) eqn:E.
  - destruct (H eq_refl) as (c & -> & Hc). done.
  - pose proof (detectTool_not_installed which tool E) as ->. done.
Qed.

(** The invocation chosen for what [detectTool] found. When the [bin]
    of the tool is on the path it is the [bin] with no arguments.
    Otherwise [chooseDefaultInvocation] goes by the first discovery
    command, whichever command [detectTool] found: when neither the
    [bin] nor the first discovery command is on the path and a later
    one is, the tool is reported as installed and the invocation chosen
    for it is the first discovery command, which is not on the path. *)
Theorem chooseDefaultInvocation_detected (which : string → bool) (tool : ToolEntry) :
  (bin tool ≠ "" → which (bin tool) = true →
   chooseDefaultInvocation tool (Some (detectTool which tool)) = (bin tool, [])) ∧
  (∀ c1 cmds,
     discovery_commands tool = Some (c1 :: cmds) → c1 ≠ "" →
     which (bin tool) = false → which (splitCommand c1).1 = false →
     installed (detectTool which tool) = true →
     chooseDefaultInvocation tool (Some (detectTool which tool)) = splitCommand c1 ∧
     which (chooseDefaultInvocation tool (Some (detectTool which tool))).1 = false).
Proof.
  split.
  - intros Hne Hw. unfold detectTool, chooseDefaultInvocation.
    apply nonempty_true in Hne. rewrite Hne, Hw. cbn [andb installed command].
    by rewrite bool_decide_eq_true_2.
  - intros c1 cmds Hd Hne Hbin Hc1 Hinst.
    assert (E : chooseDefaultInvocation tool (Some (detectTool which tool))
                = splitCommand c1).
    { revert Hinst. unfold detectTool, chooseDefaultInvocation.
      rewrite Hbin, andb_false_r, Hd. cbv zeta. cbn [default from_option Datatypes.id].
      pose proof (detectTool_commands_spec which (c1 :: cmds)) as H.
      destruct (detectTool_commands which (c1 :: cmds)) as [[] [c|]];
        try done; cbn [installed command].
      intros _. destruct H as [Hw _].
      rewrite bool_decide_eq_false_2.
      - cbn [andb]. apply nonempty_true in Hne. by rewrite Hne.
      - intros [= ->]. congruence. }
    rewrite E. split; [reflexivity|exact Hc1].
Qed.

Lemma chooseDefaultInvocation_detected_witness :
  chooseDefaultInvocation demo_tool (Some (detectTool (λ _, true) demo_tool))
  = ("github-mcp", []) ∧
  detectTool demo_which demo_tool = {| installed := true; command := Some "npx" |} ∧
  chooseDefaultInvocation demo_tool (Some (detectTool demo_which demo_tool))
  = ("github-mcp", ["--stdio"]) ∧
  demo_which "github-mcp" = false.
Proof.
  destruct (chooseDefaultInvocation_detected (λ _, true) demo_tool) as [H1 _].
  destruct (chooseDefaultInvocation_detected demo_which demo_tool) as [_ H2].
  split; [exact (H1 ltac:(discriminate) eq_refl)|].
  split; [reflexivity|].
  destruct (H2 "github-mcp --stdio" ["npx -y @modelcontextprotocol/server-github"]
              eq_refl ltac:(discriminate) eq_refl eq_refl eq_refl) as [H3 _].
  split; [exact H3|reflexivity].
Defined.

(** The installer that [installTool] runs. It throws its own error
    exactly when the platform has no installer; otherwise it runs the
    command of one installer of the platform, once, and throws what
    that command throws. A manager other than ['auto'] picks the first
    installer of the platform whose type, in lower case, is the
    manager's name; with no such installer the first installer of the
    platform is taken, as for ['auto'], and there is no such installer
    for a name that is not in lower case itself, since only the type is
    lower-cased. *)
Theorem installTool_installer (platform : string) (env_manager : option string)
    (exec : string → option string) (tool : ToolEntry) (preferred : option string) :
  ((platform_installers platform tool = [] ∧
    installTool platform env_manager exec tool preferred
    = ([], inl "No installer defined for this platform")) ∨
   (∃ i, In i (platform_installers platform tool) ∧
         chosen_installer platform (install_manager preferred env_manager) tool = Some i ∧
         installTool platform env_manager exec tool preferred
         = ([installer_command i],
            match exec (installer_command i) with
            | Some e => inl e
            | None => inr tt
            end))) ∧
  (∀ mgr, mgr ≠ "auto" →
     (∀ i, List.find (λ i, String.eqb (toLowerCase (type i)) mgr)
             (platform_installers platform tool) = Some i →
           chosen_installer platform mgr tool = Some i ∧ toLowerCase (type i) = mgr) ∧
     (List.find (λ i, String.eqb (toLowerCase (type i)) mgr)
        (platform_installers platform tool) = None →
      chosen_installer platform mgr tool = head (platform_installers platform tool)) ∧
     (toLowerCase mgr ≠ mgr →
      List.find (λ i, String.eqb (toLowerCase (type i)) mgr)
        (platform_installers platform tool) = None)) ∧
  chosen_installer platform "auto" tool = head (platform_installers platform tool).
Proof.
  split; [|split; [|reflexivity]].
  - unfold installTool.
    set (mgr := install_manager preferred env_manager).
    pose proof (chosen_installer_In platform mgr tool) as H.
    destruct (chosen_installer platform mgr tool) as [i|] eqn:E.
    + right. exists i. split; [by apply H|]. split; [reflexivity|].
      by destruct (exec (installer_command i)).
    + left. split; [exact H|reflexivity].
  - intros mgr Hne. unfold chosen_installer. cbv zeta.
    apply String.eqb_neq in Hne. rewrite Hne. cbn [negb]. split; [|split].
    + intros i Hi. rewrite Hi. split; [done|].
      apply find_some in Hi as [_ Hi]. by apply String.eqb_eq in Hi.
    + by intros ->.
    + intros Hlow.
      destruct (List.find _ _) as [i|] eqn:Hi; [|done].
      apply find_some in Hi as [_ Hi]. apply String.eqb_eq in Hi.
      exfalso. apply Hlow. rewrite <- Hi. apply toLowerCase_idem.
Qed.

Lemma installTool_installer_witness :
  installTool "linux" (Some "NPM") (λ _, None) demo_tool (Some "cargo")
  = (["cargo install github-mcp"], inr tt) ∧
  chosen_installer "linux" "NPM" demo_tool
  = Some {| type := "npm"; installer_command := "npm i -g github-mcp" |} ∧
  installTool "win32" None (λ _, None) demo_tool None
  = ([], inl "No installer defined for this platform").
Proof.
  destruct (installTool_installer "linux" (Some "NPM") (λ _, None) demo_tool (Some "cargo"))
    as (_ & H & _).
  split; [reflexivity|]. split; [|reflexivity].
  destruct (H "NPM" ltac:(discriminate)) as (_ & Hnone & Hlow).
  apply Hnone, Hlow. discriminate.
Defined.

(** [runHealthCheck] succeeds exactly when every command it has to run
    succeeds; the commands run are a prefix of those, the version
    command first, and after a failure nothing more is run and the
    message is that of the failed command. *)
Theorem runHealthCheck_spec (exec : string → option string) (tool : ToolEntry) :
  let '(ran, r) := runHealthCheck exec tool in
  (ok r = true ↔ Forall (λ c, exec c = None) (health_commands tool)) ∧
  (∃ rest, health_commands tool = (ran ++ rest)%list) ∧
  (ok r = true → ran = health_commands tool ∧ message r = None) ∧
  (ok r = false → ∃ c, last ran = Some c ∧ exec c = message r ∧ message r ≠ None ∧
                       Forall (λ c, exec c = None) (removelast ran)).
Proof.
  unfold runHealthCheck, health_commands, run_if_set.
  destruct (truthy_str (health_version_command tool));
    destruct (truthy_str (health_probe_command tool)); cbn [fst app];
    repeat match goal with
    | |- context [exec ?c] =>
        let E := fresh "E" in destruct (exec c) eqn:E
    end; cbn [ok message app];
    (split; [split; [try done; intros _; repeat constructor; done
                    |try done; intros H; exfalso;
                     repeat match goal with
                     | H : Forall _ (_ :: _) |- _ => inversion H; clear H; subst
                     end; congruence]|]);
    (split; [first [by exists [] | by eexists [_] | by eexists [_; _]
                   | by eexists; rewrite app_nil_r]|]);
    (split; [try done|]); try done;
    intros _; eexists; (split; [reflexivity|]); cbn [removelast];
    repeat split; try done; repeat constructor; done.
Qed.

End ToolsClaims.

(** ** The proxy arguments *)

Module SupergatewayFacts.
Import Chars Js Regex Proxy Supergateway StringFacts CharFacts JsFacts ProxyFacts.
#[local] Open Scope list_scope.

Lemma has_colon_toLowerCase (s : string) :
  has_char ":" (toLowerCase s) = has_char ":" s.
Proof.
  unfold toLowerCase. induction s as [|c s IH]; [reflexivity|].
  cbn [string_map has_char]. rewrite IH. f_equal.
  apply Bool.eqb_prop. revert c.
  apply (ascii_forall (λ c, Bool.eqb (Ascii.eqb ":" (to_lower c)) (Ascii.eqb ":" c))).
  vm_compute. reflexivity.
Qed.

(** A string with a colon is not the bearer flag. *)
Lemma is_bearer_flag_colon (s : string) :
  has_char ":" s = true → is_bearer_flag s = false.
Proof.
  intros H. unfold is_bearer_flag.
  destruct (String.eqb_spec (toLowerCase s) "--oauth2bearer") as [E|]; [|done].
  rewrite <- has_colon_toLowerCase, E in H. discriminate H.
Qed.

Lemma redactForLogs_argv_plain (x : string) (rest : list string) :
  is_bearer_flag x = false →
  redactForLogs_argv (x :: rest) = redactString x :: redactForLogs_argv rest.
Proof. intros H. cbn [redactForLogs_argv]. by rewrite H. Qed.

Lemma header_payload_colon (k v : string) : has_char ":" (k ++ ": " ++ v)%string = true.
Proof. rewrite has_char_app. simpl. by rewrite orb_true_r. Qed.

Lemma redactForLogs_header_args (headers : list ProxyHeader) :
  redactForLogs_argv (header_args headers) = redacted_header_args headers.
Proof.
  induction headers as [|h headers IH]; [reflexivity|].
  unfold header_args, redacted_header_args in *. cbn [flat_map].
  destruct (String.eqb (Configure.trim (key h)) ""); [exact IH|].
  cbv zeta. cbn [app].
  rewrite redactForLogs_argv_plain by reflexivity.
  rewrite redactForLogs_argv_plain by (apply is_bearer_flag_colon, header_payload_colon).
  rewrite IH. f_equal; vm_compute; reflexivity.
Qed.

End SupergatewayFacts.

Module SupergatewayClaims.
Import Chars Js Regex Proxy LineSpec Supergateway.
Import StringFacts CharFacts JsFacts ProxyFacts SupergatewayFacts.
#[local] Open Scope list_scope.

(** [buildSupergatewayArgs] returns an argv exactly when the transport
    is [http] or [sse] and the URL parses with a protocol that starts
    with [http]; a wrong transport is reported before a wrong URL. *)
Theorem buildSupergatewayArgs_returns (new_URL : string → option URL) (opts : ProxyOpts) :
  ((∃ argv, buildSupergatewayArgs new_URL (Some opts) = inr argv) ↔
   (transport opts = "http" ∨ transport opts = "sse") ∧
   ∃ u, new_URL (remoteUrl opts) = Some u ∧ startsWith "http" (protocol u) = true) ∧
  (transport opts ≠ "http" → transport opts ≠ "sse" →
   buildSupergatewayArgs new_URL (Some opts)
   = inl ("Unsupported transport: " ++ transport opts)%string).
Proof.
  unfold buildSupergatewayArgs.
  destruct (String.eqb_spec (transport opts) "http") as [Hh|Hh];
    destruct (String.eqb_spec (transport opts) "sse") as [Hs|Hs]; cbn [negb andb].
  all: try (destruct (new_URL (remoteUrl opts)) as [u|];
            [destruct (startsWith "http" (protocol u)) eqn:Hp|]; cbn [negb]).
  all: split; [split|]; try done.
  all: try (intros _; split; [tauto|]; by eexists).
  all: try by intros [? ?].
  all: try (by intros (_ & u' & [= <-] & Hp'); congruence).
  all: try (by intros (_ & u' & ? & _)).
  all: try (intros ([|] & _); done).
  all: try (intros; by eexists).
Qed.

(** [redactForLogs] on the argv that [buildSupergatewayArgs] returns,
    for a URL that is not itself the bearer flag: the bearer token is
    replaced by the placeholder, the other elements go through
    [redactString] one by one, the flags stay, and nothing is added or
    dropped. *)
Theorem redactForLogs_buildSupergatewayArgs (new_URL : string → option URL)
    (opts : ProxyOpts) (argv : list string) :
  buildSupergatewayArgs new_URL (Some opts) = inr argv →
  is_bearer_flag (remoteUrl opts) = false →
  redactForLogs_argv argv
  = [if String.eqb (transport opts) "http" then "--streamableHttp" else "--sse";
     redactString (remoteUrl opts)]
    ++ (if truthy_str (bearer opts) then ["--oauth2Bearer"; "<redacted:bearer>"] else [])
    ++ redacted_header_args (default [] (headers opts)).
Proof.
  unfold buildSupergatewayArgs. intros H Hurl.
  destruct (negb (String.eqb (transport opts) "http")
            && negb (String.eqb (transport opts) "sse")); [discriminate H|].
  destruct (match new_URL (remoteUrl opts) with
            | Some u => negb (startsWith "http" (protocol u))
            | None => true
            end); [discriminate H|].
  injection H as <-.
  assert (Hrest :
    redactForLogs_argv
      ((if truthy_str (bearer opts)
        then ["--oauth2Bearer"; default ""%string (bearer opts)] else [])
       ++ header_args (default [] (headers opts)))
    = (if truthy_str (bearer opts) then ["--oauth2Bearer"; "<redacted:bearer>"] else [])
      ++ redacted_header_args (default [] (headers opts))).
  { destruct (truthy_str (bearer opts)); cbn [app].
    - cbn [redactForLogs_argv].
      replace (is_bearer_flag "--oauth2Bearer") with true by (vm_compute; reflexivity).
      by rewrite redactForLogs_header_args.
    - apply redactForLogs_header_args. }
  destruct (String.eqb (transport opts) "http"); cbn [app].
  - rewrite redactForLogs_argv_plain by (vm_compute; reflexivity).
    rewrite redactForLogs_argv_plain by exact Hurl.
    rewrite Hrest. f_equal; vm_compute; reflexivity.
  - rewrite redactForLogs_argv_plain by (vm_compute; reflexivity).
    rewrite redactForLogs_argv_plain by exact Hurl.
    rewrite Hrest. f_equal; vm_compute; reflexivity.
Qed.

Lemma redactForLogs_buildSupergatewayArgs_witness :
  buildSupergatewayArgs demo_URL (Some demo_opts) = inr demo_argv ∧
  redactForLogs_argv demo_argv
  = ["--sse"; "https://example.com/mcp"; "--oauth2Bearer"; "<redacted:bearer>";
     "--header"; "X-Api-Key: <redacted:x-api-key>"; "--header"; "Accept: "].
Proof.
  split; [vm_compute; reflexivity|].
  rewrite (redactForLogs_buildSupergatewayArgs demo_URL demo_opts demo_argv)
    by (vm_compute; reflexivity).
  vm_compute. reflexivity.
Defined.

(** A sensitive header given to [buildSupergatewayArgs] does not show
    its value after [redactForLogs]: for a header whose trimmed name is
    one of the sensitive names in any case and whose value is not
    empty, stays on one line and does not start with white space, the
    redacted argv holds the name with the placeholder of the name. *)
Theorem redactForLogs_header_hidden (new_URL : string → option URL)
    (opts : ProxyOpts) (argv : list string) (hs : list ProxyHeader)
    (h : ProxyHeader) (k v : string) :
  buildSupergatewayArgs new_URL (Some opts) = inr argv →
  is_bearer_flag (remoteUrl opts) = false →
  headers opts = Some hs → In h hs →
  In k SENSITIVE_HEADER_KEYS → toLowerCase (Configure.trim (key h)) = k →
  value h = Some v → v ≠ ""%string → all_chars dot v = true →
  starts (λ c, negb (is_space c)) (list_ascii_of_string v) = true →
  In (Configure.trim (key h) ++ ": <redacted:" ++ k ++ ">")%string
     (redactForLogs_argv argv).
Proof.
  intros Hb Hurl Hhs Hin Hk Hname Hv Hne Hdot Hstart.
  rewrite (redactForLogs_buildSupergatewayArgs new_URL opts argv Hb Hurl).
  rewrite Hhs. cbn [default from_option Datatypes.id].
  apply in_or_app. right. apply in_or_app. right.
  unfold redacted_header_args. apply in_flat_map. exists h. split; [exact Hin|].
  destruct (sensitive_key_checks k Hk) as (Hascii & Hnonsep & Hbearer & Hlast & Hkne).
  destruct (String.eqb_spec (Configure.trim (key h)) "") as [E|_].
  { rewrite E in Hname. by subst k. }
  right. left. rewrite Hv. cbn [default from_option Datatypes.id].
  destruct (redactString_line k ("<redacted:" ++ k ++ ">") (Configure.trim (key h))
              "" " " v "" Hname Hascii Hnonsep Hbearer Hlast eq_refl eq_refl Hne Hdot
              Hstart eq_refl) as (rest' & Heq & Hfirst).
  destruct rest' as [|c rest']; [|discriminate Hfirst].
  rewrite !string_app_nil_r in Heq. exact Heq.
Qed.

Lemma redactForLogs_header_hidden_witness :
  In "X-Api-Key: <redacted:x-api-key>" (redactForLogs_argv demo_argv).
Proof.
  apply (redactForLogs_header_hidden demo_URL demo_opts demo_argv
           [ {| key := " X-Api-Key "; value := Some "abc123" |};
             {| key := "  "; value := Some "dropped" |};
             {| key := "Accept"; value := None |} ]
           {| key := " X-Api-Key "; value := Some "abc123" |} "x-api-key" "abc123");
    try reflexivity; try discriminate.
  - by left.
  - right. by left.
Defined.

End SupergatewayClaims.

(** ** The configure command *)

Module CommandFacts.
Import Chars Render Js Command StringFacts JsFacts.

Lemma prefix_app (a b : string) : String.prefix a (a ++ b) = true.
Proof.
  induction a as [|c a IH]; simpl; [by destruct b|].
  destruct (ascii_dec c c); [exact IH|done].
Qed.

Lemma array_indexOf_None (x : string) (a : list string) :
  ¬ In x a → array_indexOf x a = None.
Proof.
  induction a as [|y a IH]; [done|]. simpl. intros H.
  destruct (String.eqb_spec y x) as [->|_]; [exfalso; apply H; by left|].
  rewrite IH; [done|]. intros Hin. apply H. by right.
Qed.

Lemma find_app_miss {A} (f : A → bool) (pre : list A) (x : A) (post : list A) :
  Forall (λ a, f a = false) pre → f x = true →
  List.find f (pre ++ x :: post)%list = Some x.
Proof.
  induction 1 as [|a pre Ha _ IH]; simpl; intros Hx.
  - by rewrite Hx.
  - rewrite Ha. by apply IH.
Qed.

Lemma last_In {A} (l : list A) (x : A) : last l = Some x → In x l.
Proof.
  induction l as [|a [|b l] IH]; simpl; [done| |].
  - intros [= ->]. by left.
  - intros H. right. by apply IH.
Qed.

Lemma name_or_nonempty (name otherwise : string) :
  otherwise ≠ "" → name_or name otherwise ≠ "".
Proof.
  intros H. unfold name_or.
  destruct (Configure.nonempty (if Configure.nonempty name then _ else _)) eqn:E;
    [|exact H].
  by apply nonempty_true in E.
Qed.

Lemma extractServerId_clean (new_URL : string → option URL) (endpoint : string) :
  extractServerId new_URL endpoint ≠ "" ∧
  has_char "/" (extractServerId new_URL endpoint) = false.
Proof.
  unfold extractServerId. destruct (new_URL endpoint) as [url|]; [|done].
  cbv zeta.
  destruct (last (filter_Boolean (split "/" (pathname url)))) as [s|] eqn:E; [|done].
  apply last_In in E. apply filter_Boolean_In in E as [Hin Hne].
  apply nonempty_true in Hne. rewrite Hne. split; [by apply nonempty_true|].
  pose proof (split_no_sep "/" (pathname url)) as H.
  by apply (proj1 (List.Forall_forall _ _) H).
Qed.

Lemma indexOf_app (c : ascii) (a b : string) :
  has_char c a = false → indexOf c (a ++ String c b) = Some (String.length a).
Proof.
  induction a as [|d a IH]; simpl; intros H.
  - by rewrite Ascii.eqb_refl.
  - apply orb_false_iff in H as [H1 H2]. rewrite Ascii.eqb_sym, H1.
    by rewrite IH.
Qed.

Lemma substring_app (a b : string) : String.substring 0 (String.length a) (a ++ b) = a.
Proof.
  induction a as [|c a IH]; simpl; [by destruct b|by rewrite IH].
Qed.

Lemma string_drop_S_app (c : ascii) (a b : string) :
  string_drop (String.length a + 1) (a ++ String c b) = b.
Proof. induction a as [|d a IH]; simpl; [reflexivity|exact IH]. Qed.

(** The token of a header [Bearer TOKEN]. *)
Lemma bearer_of_header_token (tok : string) :
  tok ≠ "" → Proxy.all_chars Regex.dot tok = true →
  LineSpec.starts (λ c, negb (is_space c)) (list_ascii_of_string tok) = true →
  bearer_of_header ("Bearer " ++ tok) = Some tok.
Proof.
  intros Hne Hdot Hstart. unfold bearer_of_header, Proxy.all_chars in *.
  rewrite chars_app.
  destruct (list_ascii_of_string tok) as [|c t] eqn:E.
  { destruct tok; [done|discriminate E]. }
  cbn [LineSpec.starts] in Hstart. cbn [forallb] in Hdot.
  apply andb_true_iff in Hdot as [Hc Ht]. apply negb_true_iff in Hstart.
  set (K3 := λ s1 s2 : Regex.text, Some (s1, s2)).
  assert (Hrun : Regex.star_greedy Regex.dot (K3 (c :: t)) t = Some (c :: t, [])).
  { rewrite <- (app_nil_r t) at 2.
    by apply (RegexFacts.star_greedy_run Regex.dot (K3 (c :: t)) t []). }
  assert (Hm :
    Regex.lit_ci (list_ascii_of_string "Bearer")
      (Regex.plus_greedy is_space
         (λ s1, Regex.plus_greedy Regex.dot (λ s2, Some (s1, s2)) s1))
      (list_ascii_of_string "Bearer " ++ c :: t)%list
    = Some (c :: t, [])).
  { change (Regex.plus_greedy is_space
              (λ s1, Regex.plus_greedy Regex.dot (K3 s1) s1)
              (" "%char :: c :: t) = Some (c :: t, [])).
    cbn [Regex.plus_greedy Regex.star_greedy].
    replace (is_space " ") with true by (vm_compute; reflexivity).
    rewrite Hstart. cbn [Regex.plus_greedy]. by rewrite Hc. }
  destruct (list_ascii_of_string "Bearer " ++ c :: t)%list eqn:E'; [discriminate E'|].
  cbn [first_match]. rewrite Hm.
  change (length (@nil ascii)) with 0. rewrite Nat.sub_0_r, firstn_all.
  rewrite <- E. by rewrite string_of_list_ascii_of_string.
Qed.

End CommandFacts.

Module CommandClaims.
Import Chars Render Js Command StringFacts JsFacts CommandFacts.

(** [getArgValue] for [--name=value]: when the name is not an element
    of the argv and the first element that starts with [name=] is
    [name=value], the value comes back whole, equals signs included. *)
Theorem getArgValue_assignment (name value : string) (pre post : list string) :
  has_char "=" name = false →
  ¬ In name (pre ++ (name ++ "=" ++ value)%string :: post)%list →
  Forall (λ a, startsWith (name ++ "=") a = false) pre →
  getArgValue true (pre ++ (name ++ "=" ++ value)%string :: post)%list name = Some value.
Proof.
  intros Hname Hnot Hpre. unfold getArgValue. cbn [negb]. cbv zeta.
  rewrite (array_indexOf_None _ _ Hnot).
  rewrite (find_app_miss _ pre (name ++ "=" ++ value) post Hpre).
  - assert (Hne : Configure.nonempty (name ++ "=" ++ value) = true).
    { apply nonempty_true. by destruct name. }
    rewrite Hne. f_equal.
    change (name ++ "=" ++ value) with (name ++ String "=" value).
    rewrite split_app by exact Hname. cbn [List.tl].
    apply join_split.
  - unfold startsWith.
    replace (name ++ "=" ++ value) with ((name ++ "=") ++ value)
      by (by rewrite string_app_assoc).
    apply prefix_app.
Qed.

Lemma getArgValue_assignment_witness :
  getArgValue true ["--yes"; "--bearer=abc=="; "--bearer=other"] "--bearer" = Some "abc==".
Proof.
  apply (getArgValue_assignment "--bearer" "abc==" ["--yes"] ["--bearer=other"]).
  - reflexivity.
  - intros [H|[H|[H|[]]]]; discriminate H.
  - repeat constructor.
Defined.

(** Server ids are never empty. [extractServerId] never returns the
    empty string and never a string with a slash, whatever the endpoint
    and whatever the URL parser makes of it; the server id of the
    [agentConfig] and the name of the server configuration are the
    [name] option trimmed, if that leaves something, and such a segment
    or [default-server] otherwise. *)
Theorem server_id_nonempty (new_URL : string → option URL) (o : Options)
    (mcpConfig : Mcp.t) (endpoint prompted : string) :
  extractServerId new_URL endpoint ≠ "" ∧
  has_char "/" (extractServerId new_URL endpoint) = false ∧
  Agent.mcpServerId (agentConfig new_URL o mcpConfig) ≠ "" ∧
  Mcp.name (getMCPConfig new_URL o prompted) ≠ "".
Proof.
  split; [apply extractServerId_clean|]. split; [apply extractServerId_clean|]. split.
  - unfold agentConfig. cbn [Agent.mcpServerId].
    apply name_or_nonempty, extractServerId_clean.
  - unfold getMCPConfig.
    repeat match goal with
    | |- context [if ?b then _ else _] => destruct b
    end; cbn [Mcp.name]; apply name_or_nonempty;
      first [apply extractServerId_clean | discriminate].
Qed.

(** The headers of the [agentConfig]: with a bearer token and the
    transport [http] or [sse], the [Authorization] header is the one
    given in the options if that is not empty, and [Bearer TOKEN]
    otherwise, so it is never missing or empty; every other header is
    as given. *)
Theorem agentConfig_authorization (new_URL : string → option URL) (o : Options)
    (mcpConfig : Mcp.t) :
  let c := agentConfig new_URL o mcpConfig in
  let given :=
    spread (spread ∅ (headers o))
      (if truthy_str (proxyRemoteUrl o) then extraHeaders (default [] (proxyHeader o))
       else ∅) in
  (∀ k, k ≠ "Authorization" → Agent.headers c !! k = given !! k) ∧
  (Agent.mcpAccessKey c ≠ "" → Agent.transport c ≠ stdio →
   ∃ a, Agent.headers c !! "Authorization" = Some a ∧ a ≠ "" ∧
        (given !! "Authorization" = Some a ∨
         (truthy_str (given !! "Authorization") = false ∧
          a = "Bearer " ++ Agent.mcpAccessKey c))) ∧
  (Agent.transport c = stdio → Agent.headers c = given).
Proof.
  cbv zeta. unfold agentConfig. cbv zeta.
  cbn [Agent.headers Agent.mcpAccessKey Agent.transport].
  set (given := spread (spread ∅ (headers o)) _).
  set (bearer := if truthy_str (proxyRemoteUrl o) && truthy_str (proxyBearer o)
                 then _ else _).
  set (transport := if truthy_str (proxyRemoteUrl o) then _ else _).
  split; [|split].
  - intros k Hk.
    destruct (_ && _ && negb (truthy_str (given !! "Authorization"))); [|done].
    by rewrite lookup_insert_ne.
  - intros Hb Ht. apply nonempty_true in Hb. rewrite Hb.
    assert (Hr : match transport with http | sse => true | stdio => false end = true)
      by (by destruct transport).
    rewrite Hr. cbn [andb].
    destruct (truthy_str (given !! "Authorization")) eqn:E; cbn [negb].
    + destruct (given !! "Authorization") as [a|] eqn:Ha; [|discriminate E].
      exists a. split; [done|]. split; [|by left].
      simpl in E. apply negb_true_iff in E. by apply String.eqb_neq in E.
    + exists ("Bearer " ++ bearer). rewrite lookup_insert_eq.
      split; [done|]. split; [done|]. by right.
  - intros ->. by rewrite andb_false_r.
Qed.

(** The headers read from [--proxy-header]: the last [K:V] whose name,
    trimmed, is [K] gives the header [K] with the value trimmed; the
    name is everything before the first colon. A header named
    [__proto__] is dropped. *)
Theorem extraHeaders_last (hs : list string) (k v : string) :
  has_char ":" k = false → Configure.trim k ≠ "" →
  (Configure.trim k ≠ "__proto__" →
   extraHeaders (hs ++ [(k ++ ":" ++ v)%string])%list !! Configure.trim k
   = Some (Configure.trim v)) ∧
  (Configure.trim k = "__proto__" →
   extraHeaders (hs ++ [(k ++ ":" ++ v)%string])%list = extraHeaders hs).
Proof.
  intros Hcolon Hne. unfold extraHeaders. rewrite fold_left_app. cbn [fold_left].
  change (k ++ ":" ++ v) with (k ++ String ":" v).
  rewrite indexOf_app by exact Hcolon.
  assert (Hlen : (0 <? String.length k) = true).
  { apply Nat.ltb_lt. destruct k; [by exfalso; apply Hne|simpl; lia]. }
  rewrite Hlen. cbv zeta. unfold slice_to.
  rewrite substring_app, string_drop_S_app.
  apply nonempty_true in Hne. rewrite Hne. unfold set_property.
  split; intros H.
  - apply String.eqb_neq in H. rewrite H. by rewrite lookup_insert_eq.
  - apply String.eqb_eq in H. by rewrite H.
Qed.

Lemma extraHeaders_last_witness :
  extraHeaders ["X-Org: a"; " X-Org :  b:c "] !! "X-Org" = Some "b:c".
Proof.
  apply (extraHeaders_last ["X-Org: a"] " X-Org " "  b:c "); try reflexivity;
    discriminate.
Defined.

(** Without [--interactive], [execute] does not reach the wizard for a
    command with no flags unless the transport is [stdio]: for [http]
    and [sse] validation throws first, for want of an endpoint. *)
Theorem execute_no_flags (env : Configure.Env) (o : Options) :
  interactive o = false → noFlags o = true →
  Configure.requiresUrl (transport o) = true →
  execute env o
  = ([], inl "--mcp-server-endpoint is required for http/sse in non-interactive mode").
Proof.
  intros Hi Hn Ht. unfold execute, Configure.validateOptions, validated.
  cbn [Configure.interactive Configure.transport Configure.mcpServerEndpoint
       Configure.dryRun].
  unfold noFlags in Hn.
  repeat (apply andb_true_iff in Hn as [Hn ?]).
  by rewrite Hi, Ht, Hn, H0.
Qed.

(** [new ConfigureCommand({}).execute()] with the argv fallback off. *)
Lemma execute_no_flags_witness :
  execute lenient_env (constructor demo_process Raw.empty)
  = ([], inl "--mcp-server-endpoint is required for http/sse in non-interactive mode").
Proof.
  apply (execute_no_flags lenient_env (constructor demo_process Raw.empty));
    reflexivity.
Defined.

(** [__mapConfigForPreview] leaves the configuration as it is for
    every provider but Codex CLI and for the [stdio] transport. For
    Codex CLI and a remote transport, with no access key and an
    [Authorization] header of the form [Bearer TOKEN], a preview that is
    returned shows the local proxy: transport [stdio], command [npx],
    and arguments that start with the proxy, the flag of the transport,
    the URL, and [--oauth2Bearer TOKEN]. *)
Theorem mapConfigForPreview_bearer (new_URL : string → option URL) (providerName : string)
    (config : Agent.t) :
  (providerName ≠ "Codex CLI" ∨ Agent.transport config = stdio →
   __mapConfigForPreview new_URL providerName config = inr config) ∧
  (∀ tok c,
     providerName = "Codex CLI" → Agent.transport config ≠ stdio →
     Agent.mcpAccessKey config = "" →
     Agent.headers config !! "Authorization" = Some ("Bearer " ++ tok) →
     tok ≠ "" → Proxy.all_chars Regex.dot tok = true →
     LineSpec.starts (λ c, negb (is_space c)) (list_ascii_of_string tok) = true →
     __mapConfigForPreview new_URL providerName config = inr c →
     Agent.transport c = stdio ∧ Agent.command c = "npx" ∧
     ∃ flag rest,
       (flag = "--streamableHttp" ∨ flag = "--sse") ∧
       Agent.args c
       = (["-y"; "supergateway"; flag; Agent.mcpServerUrl config; "--oauth2Bearer"; tok]
          ++ rest)%list).
Proof.
  unfold __mapConfigForPreview. split.
  - intros [H|H].
    + apply String.eqb_neq in H. by rewrite H.
    + rewrite H. by rewrite andb_false_r.
  - intros tok c -> Ht Hkey Hauth Hne Hdot Hstart.
    assert (Hr : match Agent.transport config with
                 | http | sse => true | stdio => false end = true)
      by (by destruct (Agent.transport config)).
    rewrite Hr. cbn [String.eqb andb]. cbv zeta.
    replace ("Codex CLI" =? "Codex CLI")%string with true by reflexivity.
    cbn [andb]. rewrite Hkey. cbn [Configure.nonempty String.eqb negb].
    unfold authHeader. rewrite Hauth.
    replace (truthy_str (Some ("Bearer " ++ tok))) with true by reflexivity.
    rewrite (bearer_of_header_token tok Hne Hdot Hstart).
    cbn [default from_option Datatypes.id].
    unfold Supergateway.buildSupergatewayArgs.
    cbn [Supergateway.transport Supergateway.remoteUrl Supergateway.bearer
         Supergateway.headers].
    assert (Htok : truthy_str (Some tok) = true).
    { simpl. apply negb_true_iff. by apply String.eqb_neq. }
    rewrite Htok.
    destruct (Agent.transport config); try done;
      cbn [String.eqb Ascii.eqb Bool.eqb negb andb];
      (destruct (match new_URL (Agent.mcpServerUrl config) with
                 | Some u => negb (startsWith "http" (protocol u))
                 | None => true
                 end); [discriminate|]);
      intros [= <-]; cbn [Agent.transport Agent.command Agent.args];
      (split; [reflexivity|]); (split; [reflexivity|]);
      eexists _, _; (split; [|reflexivity]); tauto.
Qed.

Lemma mapConfigForPreview_bearer_witness :
  ∃ c flag rest,
    __mapConfigForPreview demo_URL "Codex CLI" demo_agentConfig = inr c ∧
    Agent.transport c = stdio ∧ Agent.command c = "npx" ∧
    Agent.args c
    = (["-y"; "supergateway"; flag; "https://example.com/mcp"; "--oauth2Bearer"; "tok123"]
       ++ rest)%list.
Proof.
  destruct (__mapConfigForPreview demo_URL "Codex CLI" demo_agentConfig)
    as [e|c] eqn:E; [vm_compute in E; discriminate E|].
  destruct (proj2 (mapConfigForPreview_bearer demo_URL "Codex CLI" demo_agentConfig)
              "tok123" c eq_refl ltac:(discriminate) eq_refl eq_refl
              ltac:(discriminate) eq_refl eq_refl E)
    as (Ht & Hc & flag & rest & _ & Hargs).
  by exists c, flag, rest.
Defined.

End CommandClaims.

(** ** The status listing *)

Module StatusListFacts.
Import Chars Status StatusCommand Js StatusList StatusSpec JsFacts.

Lemma or_else_falsy (a b : value) : truthy a = false → or_else a b = b.
Proof. unfold or_else. by intros ->. Qed.

Lemma or_else_truthy (a b : value) : truthy a = true → or_else a b = a.
Proof. unfold or_else. by intros ->. Qed.

Lemma is_string_eq (s : string) (v : value) : is_string s v = true ↔ v = VStr s.
Proof.
  destruct v; simpl; try (split; [discriminate|intros [=]]).
  rewrite String.eqb_eq. split; [by intros ->|by intros [= ->]].
Qed.

(** Redaction leaves a field alone that is neither [headers] nor [env]
    nor named by a sensitive key. *)
Lemma get_redact_object (c : value) (k : string) :
  k ≠ "headers" → k ≠ "env" → SENSITIVE_KEYS k = false →
  get (redact_object c) k = get c k.
Proof.
  intros Hh He Hs. destruct c as [| | | | | |m]; try reflexivity.
  simpl. rewrite redactSensitive_lookup. destruct (m !! k) as [v|]; [|done].
  simpl. unfold redact_at, mask_if.
  by rewrite !decide_False, Hs by done.
Qed.

Lemma name_providerStatus (rd : Reader) (det : ProviderDetectionResult) :
  name (providerStatus rd det) = provider_name det.
Proof.
  unfold providerStatus.
  repeat match goal with
  | |- context [match ?x with _ => _ end] => destruct x
  end; reflexivity.
Qed.

Lemma hasServerProblem_cases (entry : RedactedServerEntry) :
  let c := config entry in
  hasServerProblem entry = true ↔
  (explicit c = VStr "stdio" ∧ nonempty_string (get c "command") = false) ∨
  (explicit c = VStr "http" ∧ nonempty_string (get c "httpUrl") = false) ∨
  (explicit c = VStr "sse" ∧ nonempty_string (get c "url") = false).
Proof.
  cbv zeta. unfold hasServerProblem, rawTransport. cbv zeta.
  destruct (truthy (explicit (config entry))) eqn:Et.
  - rewrite or_else_truthy by exact Et.
    destruct (is_string "stdio" (explicit (config entry))) eqn:E1.
    { apply is_string_eq in E1. rewrite E1, negb_true_iff.
      split; [by left|]. intros [[_ H]|[[[=] _]|[[=] _]]]. exact H. }
    destruct (is_string "http" (explicit (config entry))) eqn:E2.
    { apply is_string_eq in E2. rewrite E2, negb_true_iff.
      split; [by right; left|]. intros [[[=] _]|[[_ H]|[[=] _]]]. exact H. }
    destruct (is_string "sse" (explicit (config entry))) eqn:E3.
    { apply is_string_eq in E3. rewrite E3, negb_true_iff.
      split; [by right; right|]. intros [[[=] _]|[[[=] _]|[_ H]]]. exact H. }
    split; [done|].
    intros [[H _]|[[H _]|[H _]]]; rewrite H in *; discriminate.
  - rewrite or_else_falsy by exact Et. unfold inferred. rewrite Et. cbn [negb].
    split.
    + destruct (nonempty_string (get (config entry) "command")) eqn:Ec; [by cbn|].
      destruct (nonempty_string (get (config entry) "httpUrl")) eqn:Eh; [by cbn|].
      destruct (nonempty_string (get (config entry) "url")) eqn:Eu; [by cbn|done].
    + intros [[H _]|[[H _]|[H _]]]; rewrite H in Et; discriminate Et.
Qed.

Lemma lookup_spread_eq {A} (a b : gmap string A) (k : string) :
  spread a b !! k = match b !! k with Some v => Some v | None => a !! k end.
Proof. unfold spread. rewrite lookup_union. by destruct (b !! k), (a !! k). Qed.

Lemma lookup_field_if_ne {A} (c : bool) (k k' : string) (v : A) :
  k ≠ k' → field_if c k v !! k' = None.
Proof.
  intros H. destruct c; simpl; [by apply lookup_singleton_ne|apply lookup_empty].
Qed.

Lemma lookup_field_if_eq {A} (c : bool) (k : string) (v : A) :
  field_if c k v !! k = if c then Some v else None.
Proof. destruct c; simpl; [apply lookup_singleton_eq|apply lookup_empty]. Qed.

Ltac render_lookup i :=
  unfold Render.renderServer;
  destruct (String.eqb (Render.agent i) "cursor"),
    (String.eqb (Render.agent i) "gemini"),
    (String.eqb (Render.agent i) "claude"), (Render.transport i);
  cbv beta iota zeta;
  rewrite ?lookup_spread_eq;
  rewrite ?lookup_field_if_eq;
  rewrite ?lookup_field_if_ne by discriminate;
  rewrite ?lookup_singleton_eq;
  rewrite ?lookup_singleton_ne by discriminate;
  rewrite ?lookup_empty.

(** The [transport] key of a rendered server: gemini writes it for
    [stdio] and [sse], no other branch does. *)
Lemma renderServer_transport (i : Render.RenderInput) :
  Render.renderServer i !! "transport"
  = if String.eqb (Render.agent i) "gemini" && negb (String.eqb (Render.agent i) "cursor")
    then match Render.transport i with
         | Render.stdio => Some (VStr "stdio")
         | Render.sse => Some (VStr "sse")
         | Render.http => None
         end
    else None.
Proof. render_lookup i; reflexivity. Qed.

Lemma renderServer_config (i : Render.RenderInput) :
  Render.renderServer i !! "config" = None.
Proof. render_lookup i; reflexivity. Qed.

Lemma renderServer_command (i : Render.RenderInput) :
  String.eqb (Render.agent i) "cursor" = false →
  String.eqb (Render.agent i) "gemini" = true → Render.transport i = Render.stdio →
  Render.renderServer i !! "command"
  = if truthy_str (Render.command i) then Some (of_opt_str (Render.command i)) else None.
Proof.
  intros H1 H2 H3. unfold Render.renderServer. rewrite H1, H2, H3.
  cbv beta iota zeta.
  rewrite ?lookup_spread_eq.
  rewrite ?lookup_field_if_eq.
  rewrite ?lookup_field_if_ne by discriminate.
  rewrite ?lookup_singleton_ne by discriminate.
  by destruct (truthy_str (Render.command i)).
Qed.

Lemma renderServer_url (i : Render.RenderInput) :
  String.eqb (Render.agent i) "cursor" = false →
  String.eqb (Render.agent i) "gemini" = true → Render.transport i = Render.sse →
  Render.renderServer i !! "url"
  = if truthy_str (Render.url i) then Some (of_opt_str (Render.url i)) else None.
Proof.
  intros H1 H2 H3. unfold Render.renderServer. rewrite H1, H2, H3.
  cbv beta iota zeta.
  rewrite ?lookup_spread_eq.
  rewrite ?lookup_field_if_eq.
  rewrite ?lookup_field_if_ne by discriminate.
  rewrite ?lookup_singleton_ne by discriminate.
  by destruct (truthy_str (Render.url i)).
Qed.

Lemma truthy_field (o : option string) :
  truthy_str o = true → nonempty_string (of_opt_str o) = true.
Proof. destruct o; [done|discriminate]. Qed.

Lemma extractMCPServers_rendered (i : Render.RenderInput) :
  extractMCPServers (rendered_config i)
  = [(Render.serverId i, VObj (Render.renderServer i))].
Proof.
  unfold rendered_config, Render.renderMcpServer, extractMCPServers.
  rewrite map_fmap_singleton, lookup_singleton_eq.
  unfold value_entries. rewrite map_fmap_singleton, map_to_list_singleton.
  reflexivity.
Qed.

Lemma relabel_detected (f : string → string) (s : ProviderStatus) :
  status_detected (relabel_error f s) = status_detected s.
Proof. unfold relabel_error. by destruct (status_detected s) eqn:E. Qed.

Lemma filter_map_comm {A} (p : A → bool) (g : A → A) (l : list A) :
  (∀ a, p (g a) = p a) → List.filter p (map g l) = map g (List.filter p l).
Proof.
  intros H. induction l as [|a l IH]; [reflexivity|]. simpl.
  rewrite H. destruct (p a); simpl; by rewrite IH.
Qed.

Lemma flat_map_map {A B C} (g : A → B) (h : B → list C) (l : list A) :
  flat_map h (map g l) = flat_map (λ a, h (g a)) l.
Proof. induction l as [|a l IH]; [reflexivity|]. simpl. by rewrite IH. Qed.

End StatusListFacts.

Module StatusListClaims.
Import Chars Status StatusCommand Js StatusList StatusSpec JsFacts StatusListFacts.

(** [hasServerProblem] flags an entry exactly when a transport is given,
    in the entry or in its [config], as one of the strings [stdio],
    [http], [sse], and the field that goes with it ([command],
    [httpUrl], [url]) is not a non-empty string. An entry with no
    transport given is never flagged, whatever else it lacks. *)
Theorem hasServerProblem_iff (entry : RedactedServerEntry) :
  let c := config entry in
  hasServerProblem entry = true ↔
  (explicit c = VStr "stdio" ∧ nonempty_string (get c "command") = false) ∨
  (explicit c = VStr "http" ∧ nonempty_string (get c "httpUrl") = false) ∨
  (explicit c = VStr "sse" ∧ nonempty_string (get c "url") = false).
Proof. apply hasServerProblem_cases. Qed.

(** Redaction changes nothing of what the listing shows for a server:
    the line of the entry and the verdict of [hasServerProblem] are
    those of the configuration as read. *)
Theorem listing_unchanged_by_redaction (id : string) (cfg : value) :
  serverLine {| id := id; config := redact_object cfg |}
  = serverLine {| id := id; config := cfg |} ∧
  hasServerProblem {| id := id; config := redact_object cfg |}
  = hasServerProblem {| id := id; config := cfg |}.
Proof.
  assert (G : ∀ k, In k ["transport"; "config"; "command"; "httpUrl"; "url"; "disabled"] →
              get (redact_object cfg) k = get cfg k).
  { intros k Hk. apply get_redact_object;
      repeat (destruct Hk as [<-|Hk]; [done|]); destruct Hk. }
  assert (E : explicit (redact_object cfg) = explicit cfg).
  { unfold explicit. rewrite !G by (simpl; tauto). reflexivity. }
  assert (I : inferred (redact_object cfg) = inferred cfg).
  { unfold inferred. rewrite E, !G by (simpl; tauto). reflexivity. }
  assert (R : rawTransport (redact_object cfg) = rawTransport cfg).
  { unfold rawTransport. by rewrite E, I. }
  unfold serverLine, hasServerProblem. cbn [StatusCommand.id config]. cbv zeta.
  rewrite R, !G by (simpl; tauto). done.
Qed.

(** What the renderer writes, the status survey does not flag: the
    server rendered for an input has no problem, provided that for
    gemini, the one agent whose entries name their transport, the
    command of a stdio server and the URL of an sse server are there. *)
Theorem rendered_not_flagged (i : Render.RenderInput) :
  (Render.agent i = "gemini" → Render.transport i = Render.stdio →
   truthy_str (Render.command i) = true) →
  (Render.agent i = "gemini" → Render.transport i = Render.sse →
   truthy_str (Render.url i) = true) →
  hasServerProblem {| id := Render.serverId i; config := VObj (Render.renderServer i) |}
  = false.
Proof.
  intros Hstdio Hsse.
  destruct (hasServerProblem _) eqn:E; [|reflexivity]. exfalso.
  apply hasServerProblem_cases in E. cbn [config] in E.
  unfold explicit in E. cbn [get] in E.
  rewrite renderServer_config, renderServer_transport in E.
  cbn [default from_option get_opt] in E.
  destruct (String.eqb (Render.agent i) "gemini") eqn:Hg; cbn [andb] in E;
    [|by destruct E as [[[=] _]|[[[=] _]|[[=] _]]]].
  destruct (String.eqb (Render.agent i) "cursor") eqn:Hc; cbn [negb] in E;
    [by destruct E as [[[=] _]|[[[=] _]|[[=] _]]]|].
  apply String.eqb_eq in Hg as Hgem.
  destruct (Render.transport i) eqn:Ht; cbn in E.
  - by destruct E as [[[=] _]|[[[=] _]|[[=] _]]].
  - destruct E as [[[=] _]|[[[=] _]|[_ E]]].
    rewrite renderServer_url in E by done.
    specialize (Hsse Hgem eq_refl). rewrite Hsse in E. cbn in E.
    by rewrite truthy_field in E.
  - destruct E as [[_ E]|[[[=] _]|[[=] _]]].
    rewrite renderServer_command in E by done.
    specialize (Hstdio Hgem eq_refl). rewrite Hstdio in E. cbn in E.
    by rewrite truthy_field in E.
Qed.

Lemma rendered_not_flagged_witness :
  hasServerProblem
    {| id := "demo"; config := VObj (Render.renderServer gemini_http_input) |} = false.
Proof.
  apply (rendered_not_flagged gemini_http_input); discriminate.
Defined.

(** The status of an agent whose configuration file holds what
    [renderMcpServer] returned for an input: one server, under the id of
    the input, whose configuration is the rendered server, redacted. *)
Theorem status_of_rendered (rd : Reader) (det : ProviderDetectionResult)
    (path : string) (i : Render.RenderInput) :
  detected det = true → configPath det = Some path → path ≠ "" →
  provider_name det ≠ "Codex CLI" →
  readJsonFile rd path = inr (rendered_config i) →
  providerStatus rd det
  = {| name := provider_name det; status_detected := true;
       status_configPath := Some path; error := None;
       servers := Some [ {| id := Render.serverId i;
                            config := VObj (redactSensitive (Render.renderServer i)) |} ] |}.
Proof.
  intros Hd Hp Hne Hn Hr. unfold providerStatus.
  rewrite Hd, Hp. cbn [negb]. apply String.eqb_neq in Hne, Hn.
  rewrite Hne, Hn, Hr. by rewrite extractMCPServers_rendered.
Qed.

Lemma status_of_rendered_witness :
  providerStatus (rendered_reader gemini_http_input) gemini_detection
  = {| name := "Gemini CLI"; status_detected := true;
       status_configPath := Some "/home/u/.gemini/settings.json"; error := None;
       servers :=
         Some [ {| id := "demo";
                   config := VObj (<[ "httpUrl" := VStr "https://example.com/mcp" ]>
                                     {[ "headers" :=
                                          VObj {[ "Authorization" := VStr "****efgh" ]} ]})
                |} ] |}.
Proof.
  rewrite (status_of_rendered (rendered_reader gemini_http_input) gemini_detection
             "/home/u/.gemini/settings.json" gemini_http_input
             eq_refl eq_refl ltac:(discriminate) ltac:(discriminate) eq_refl).
  vm_compute. reflexivity.
Defined.

(** The listing does not show the error of a detected agent: rewriting
    the error texts of the detected agents, empty ones staying empty
    and the others not, leaves every line as it is, with or without
    [--problems]. *)
Theorem printList_error_text (f : string → string) (statuses : list ProviderStatus)
    (problems : bool) :
  (∀ e, f e = "" ↔ e = "") →
  printList (map (relabel_error f) statuses) problems = printList statuses problems.
Proof.
  intros Hf.
  assert (Htruthy : ∀ o, truthy_str (f <$> o) = truthy_str o).
  { intros [e|]; [|done]. simpl. f_equal.
    destruct (String.eqb_spec e "") as [He|He],
      (String.eqb_spec (f e) "") as [Hfe|Hfe]; try done; exfalso.
    - apply Hfe. by apply Hf.
    - apply He. by apply Hf. }
  assert (Hdet : detectedProviders problems (map (relabel_error f) statuses)
                 = map (relabel_error f) (detectedProviders problems statuses)).
  { unfold detectedProviders. cbv zeta.
    rewrite (filter_map_comm status_detected) by apply relabel_detected.
    destruct problems; [|done].
    apply filter_map_comm. intros s. unfold relabel_error.
    destruct (status_detected s); [|done]. cbn [error servers].
    by rewrite Htruthy. }
  assert (Hnot : notDetectedProviders (map (relabel_error f) statuses)
                 = notDetectedProviders statuses).
  { unfold notDetectedProviders.
    rewrite (filter_map_comm (λ s, negb (status_detected s)))
      by (intros s; by rewrite relabel_detected).
    clear Hdet. induction statuses as [|s l IH]; [done|]. simpl.
    destruct (status_detected s) eqn:E; simpl; [exact IH|].
    rewrite IH. f_equal. unfold relabel_error. by rewrite E. }
  unfold printList. cbv zeta. rewrite Hdet, Hnot, length_map, flat_map_map.
  rewrite (flat_map_ext (λ a, providerLines (relabel_error f a)) providerLines);
    [reflexivity|].
  intros s. unfold relabel_error. by destruct (status_detected s).
Qed.

Lemma printList_error_text_witness :
  printList
    (map (relabel_error (λ e, if String.eqb e "" then "" else "(hidden)"))
       [ {| name := "Cursor"; status_detected := true;
            status_configPath := Some "/home/u/.cursor/mcp.json";
            error := Some "Unexpected token"; servers := None |} ]) false
  = [Title; ConfiguredHeading; ProviderLine "Cursor" 0;
     ConfigFile "/home/u/.cursor/mcp.json"; NoServers; Footer].
Proof.
  rewrite printList_error_text; [reflexivity|].
  intros e. destruct (String.eqb_spec e ""); split; congruence.
Defined.

(** The JSON output of [executeStatusCommand] with an agent filter
    holds one status for each detection whose name in lower case
    contains the filter in lower case, in the order of the detections;
    [toLowerCase] folds the letters [A] to [Z] and the capitals of the
    upper half of the 8-bit range. *)
Theorem executeStatusCommand_filter (rd : Reader)
    (detectionResults : list ProviderDetectionResult) (f : string) (pr : option bool)
    (providerStatuses : list ProviderStatus) :
  f ≠ "" →
  executeStatusCommand rd detectionResults
    {| format := Some "json"; agent := Some f; problems := pr |}
  = Json providerStatuses →
  map name providerStatuses
  = List.filter (λ n, includes (toLowerCase f) (toLowerCase n))
      (map provider_name detectionResults).
Proof.
  intros Hne. unfold executeStatusCommand, filtered. cbn [format agent]. cbv zeta.
  assert (Ht : truthy_str (Some f) = true).
  { simpl. apply negb_true_iff. by apply String.eqb_neq. }
  rewrite Ht. cbn [default from_option Datatypes.id].
  assert (Hlow : Configure.nonempty (toLowerCase f) = true).
  { apply nonempty_true. destruct f; [done|discriminate]. }
  rewrite Hlow. replace (truthy_str (Some "json")) with true by reflexivity.
  replace ("json" =? "json")%string with true by reflexivity.
  intros [= <-]. unfold buildProviderStatuses. rewrite map_map.
  induction detectionResults as [|d l IH]; [reflexivity|]. simpl.
  destruct (includes _ _); simpl; [|exact IH].
  by rewrite name_providerStatus, IH.
Qed.

(** The filter [é] keeps the provider [École] and nothing else. *)
Lemma executeStatusCommand_filter_witness :
  ∃ providerStatuses,
    executeStatusCommand demo_reader
      [codex_detection; ecole_detection; gemini_detection; cursor_detection]
      {| format := Some "json"; agent := Some e_acute; problems := None |}
    = Json providerStatuses ∧
    map name providerStatuses = [provider_name ecole_detection].
Proof.
  eexists. split; [reflexivity|].
  rewrite (executeStatusCommand_filter demo_reader
             [codex_detection; ecole_detection; gemini_detection; cursor_detection]
             e_acute None _ ltac:(discriminate) eq_refl).
  reflexivity.
Defined.

(** The filter [CLI] keeps the two providers with [CLI] in their names. *)
Example executeStatusCommand_filter_cli :
  map provider_name
    (filtered {| format := Some "json"; agent := Some "CLI"; problems := None |}
       [codex_detection; ecole_detection; gemini_detection; cursor_detection])
  = ["Codex CLI"; "Gemini CLI"].
Proof. vm_compute. reflexivity. Qed.

End StatusListClaims.

(** ** The wizard *)

Module WizardFacts.
Import Chars Render Js Tools Wizard StringFacts JsFacts CommandFacts.
#[local] Open Scope list_scope.

Lemma prefix_inv (a s : string) :
  String.prefix a s = true → ∃ b, s = (a ++ b)%string.
Proof.
  revert s. induction a as [|c a IH]; intros s H; [by exists s|].
  destruct s as [|d s]; [discriminate H|]. simpl in H.
  destruct (ascii_dec c d) as [->|]; [|discriminate H].
  destruct (IH s H) as [b ->]. by exists b.
Qed.

Lemma split_runs_cons (sep : ascii → bool) (b : bool) (s : list ascii) :
  ∃ p ps, split_runs sep b s = p :: ps.
Proof.
  revert b. induction s as [|c s IH]; intros b; simpl; [by eexists _, _|].
  destruct (sep c).
  - destruct b; [apply IH|by eexists _, _].
  - destruct (IH false) as (p & ps & ->). by eexists _, _.
Qed.

(** No piece holds a separator. *)
Lemma split_runs_clean (sep : ascii → bool) (b : bool) (s : list ascii) :
  Forall (λ p, forallb (λ c, negb (sep c)) p = true) (split_runs sep b s).
Proof.
  revert b. induction s as [|c s IH]; intros b; simpl; [by repeat constructor|].
  destruct (sep c) eqn:E.
  - destruct b; [apply IH|]. constructor; [done|apply IH].
  - specialize (IH false). destruct (split_runs sep false s) as [|p ps].
    + repeat constructor. simpl. by rewrite E.
    + inversion IH; subst. constructor; [|done]. simpl. by rewrite E.
Qed.

Lemma split_runs_piece (sep : ascii → bool) (b : bool) (p rest : list ascii) :
  p ≠ [] → forallb (λ c, negb (sep c)) p = true →
  split_runs sep b (p ++ rest)
  = (p ++ hd [] (split_runs sep false rest)) :: tl (split_runs sep false rest).
Proof.
  intros Hne Hp. revert b. induction p as [|c p IH]; intros b; [done|].
  simpl in Hp. apply andb_true_iff in Hp as [Hc Hp]. apply negb_true_iff in Hc.
  simpl. rewrite Hc. destruct p as [|c' p].
  - simpl. by destruct (split_runs_cons sep false rest) as (q & qs & ->).
  - rewrite (IH ltac:(done) Hp false). reflexivity.
Qed.

Lemma drop_while_clean (f : ascii → bool) (l : list ascii) :
  forallb (λ c, negb (f c)) l = true → Configure.drop_while f l = l.
Proof.
  destruct l as [|c l]; [done|]. simpl. intros H.
  apply andb_true_iff in H as [H _]. apply negb_true_iff in H. by rewrite H.
Qed.

Lemma forallb_rev {A} (f : A → bool) (l : list A) :
  forallb f (rev l) = forallb f l.
Proof.
  induction l as [|a l IH]; [done|]. simpl.
  rewrite forallb_app, IH. simpl. rewrite andb_true_r. apply andb_comm.
Qed.

(** Trimming leaves a string alone that holds no white space. *)
Lemma trim_clean (s : string) :
  forallb (λ c, negb (is_space c)) (list_ascii_of_string s) = true →
  Configure.trim s = s.
Proof.
  intros H. unfold Configure.trim.
  rewrite (drop_while_clean _ _ H).
  rewrite drop_while_clean by (by rewrite forallb_rev).
  by rewrite rev_involutive, string_of_list_ascii_of_string.
Qed.

Lemma args_separator_space (l : list ascii) :
  forallb (λ c, negb (args_separator c)) l = true →
  forallb (λ c, negb (is_space c)) l = true.
Proof.
  intros H. apply forallb_forall. intros c Hc.
  eapply forallb_forall in H; [|exact Hc].
  unfold args_separator in H. apply negb_true_iff in H.
  apply orb_false_iff in H as [H _]. by rewrite H.
Qed.

(** The pieces of a join of clean, non-empty words are the words. *)
Lemma split_runs_join (l : list string) :
  l ≠ [] →
  Forall (λ a, a ≠ ""%string ∧
               forallb (λ c, negb (args_separator c)) (list_ascii_of_string a) = true) l →
  split_runs args_separator false (list_ascii_of_string (join " " l))
  = map list_ascii_of_string l.
Proof.
  induction l as [|a l IH]; [done|]. intros _ H.
  inversion H as [|? ? [Hne Ha] Hl]; subst.
  assert (Hne' : list_ascii_of_string a ≠ []).
  { intros E. apply Hne. by destruct a. }
  destruct l as [|b l].
  - cbn [String.concat map].
    rewrite <- (app_nil_r (list_ascii_of_string a)) at 1.
    rewrite split_runs_piece by done. simpl. by rewrite app_nil_r.
  - rewrite join_cons, !chars_app.
    rewrite split_runs_piece by done.
    change (list_ascii_of_string " ") with [" "%char].
    cbn [app split_runs]. replace (args_separator " ") with true by reflexivity.
    cbn [hd tl]. rewrite app_nil_r. cbn [map]. f_equal.
    specialize (IH ltac:(done) Hl).
    inversion Hl as [|? ? [Hbne Hb] _]; subst.
    destruct (list_ascii_of_string (join " " (b :: l))) as [|c r] eqn:E.
    { exfalso. destruct l; [|rewrite join_cons in E]; destruct b; done. }
    assert (Hc : args_separator c = false).
    { destruct l as [|b' l]; [cbn [String.concat] in E|rewrite join_cons, chars_app in E];
        (destruct (list_ascii_of_string b) as [|c0 r0] eqn:Eb;
          [exfalso; apply Hbne; by destruct b|]);
        simpl in Hb; apply andb_true_iff in Hb as [Hb _];
        apply negb_true_iff in Hb; simpl in E; injection E as <- _; exact Hb. }
    cbn [split_runs] in IH |- *. rewrite Hc in IH |- *. exact IH.
Qed.

Lemma uniqueTools_from_spec (uniqueIds : gset string) (tools : list ToolEntry) :
  NoDup (id <$> uniqueTools_from uniqueIds tools) ∧
  (∀ t, t ∈ uniqueTools_from uniqueIds tools → (id t ∉ uniqueIds) ∧ (t ∈ tools)) ∧
  (∀ x, x ∉ uniqueIds →
        find_tool x (uniqueTools_from uniqueIds tools) = find_tool x tools).
Proof.
  revert uniqueIds. induction tools as [|t tools IH]; intros uniqueIds.
  { split; [constructor|]. split; [|done]. intros t Ht. by apply elem_of_nil in Ht. }
  cbn [uniqueTools_from]. case_bool_decide as Hin.
  - destruct (IH uniqueIds) as (H1 & H2 & H3). split; [done|]. split.
    + intros t' Ht'. destruct (H2 t' Ht') as [? ?]. split; [done|]. by right.
    + intros x Hx. rewrite H3 by done. unfold find_tool. simpl.
      destruct (String.eqb_spec (id t) x) as [<-|]; [done|reflexivity].
  - destruct (IH ({[id t]} ∪ uniqueIds)) as (H1 & H2 & H3). split; [|split].
    + cbn [fmap list_fmap]. constructor; [|done].
      intros Hmem. apply list_elem_of_fmap in Hmem as (t' & Hid & Ht').
      destruct (H2 t' Ht') as [Hnot _]. apply Hnot. rewrite <- Hid.
      by apply elem_of_union_l, elem_of_singleton.
    + intros t' Ht'. apply elem_of_cons in Ht' as [->|Ht']; [split; [done|by left]|].
      destruct (H2 t' Ht') as [Hnot ?]. split; [|by right].
      intros Hx. apply Hnot. by apply elem_of_union_r.
    + intros x Hx. unfold find_tool in *. simpl.
      destruct (String.eqb_spec (id t) x) as [<-|Hne]; [done|].
      apply H3. intros [E%elem_of_singleton|?]%elem_of_union; [congruence|done].
Qed.

Lemma transformer_scheme (input : string) :
  transformer (transformer input) = transformer input ∧
  (input ≠ "" →
   startsWith "http://" (transformer input) || startsWith "https://" (transformer input)
   = true).
Proof.
  unfold transformer, startsWith.
  destruct (Configure.nonempty input) eqn:Hne; cbn [andb].
  - destruct (String.prefix "http://" input) eqn:H1; cbn [negb andb].
    + rewrite Hne, H1. done.
    + destruct (String.prefix "https://" input) eqn:H2; cbn [negb andb].
      * rewrite Hne, H1, H2. done.
      * rewrite (prefix_app "https://" input).
        rewrite andb_false_r. split; [done|]. intros _. apply orb_true_r.
  - rewrite Hne. split; [done|]. intros H. apply nonempty_true in H. congruence.
Qed.

End WizardFacts.

Module WizardClaims.
Import Chars Render Js Tools Wizard StringFacts JsFacts CommandFacts WizardFacts.

(** The URL prompt and the URL stored agree: [validate] accepts an
    input exactly when it is not empty and what the wizard stores for
    it, the input with [https://] in front unless a scheme is there,
    parses as a URL. An endpoint given as an option is stored in the
    same way, without passing [validate]. What is stored is what the
    [transformer] of the prompt shows, which is idempotent and starts
    with [http://] or [https://] for every non-empty input. *)
Theorem httpUrl_validated (new_URL : string → option URL) (input : string)
    (answer : option string) :
  (validate new_URL input = inr tt ↔
   input ≠ "" ∧ httpUrl None (Some input) = Some (transformer input) ∧
   is_Some (new_URL (transformer input))) ∧
  (input ≠ "" → httpUrl (Some input) answer = Some (transformer input)) ∧
  transformer (transformer input) = transformer input ∧
  (input ≠ "" →
   startsWith "http://" (transformer input) || startsWith "https://" (transformer input)
   = true).
Proof.
  enough (Hmain :
    (validate new_URL input = inr tt ↔
     input ≠ "" ∧ httpUrl None (Some input) = Some (transformer input) ∧
     is_Some (new_URL (transformer input))) ∧
    (input ≠ "" → httpUrl (Some input) answer = Some (transformer input))).
  { destruct Hmain as [H1 H2], (transformer_scheme input) as [H3 H4].
    split; [exact H1|]. split; [exact H2|]. split; [exact H3|exact H4]. }
  assert (Hstored : ∀ e a, e ≠ "" →
            (httpUrl (Some e) a = Some (transformer e)) ∧
            (httpUrl None (Some e) = Some (transformer e))).
  { intros e a He. apply nonempty_true in He.
    unfold httpUrl, transformer. cbv zeta.
    change (truthy_str (Some e)) with (Configure.nonempty e).
    change (truthy_str None) with false.
    cbn iota. rewrite ?He. cbn [default from_option Datatypes.id].
    change (truthy_str (Some e)) with (Configure.nonempty e).
    rewrite ?He. cbn [andb].
    by destruct (negb (startsWith "http://" e)), (negb (startsWith "https://" e)). }
  split; [|intros H; by apply Hstored].
  unfold validate. cbv zeta.
  destruct (Configure.nonempty input) eqn:Hne; cbn [negb].
  - apply nonempty_true in Hne as Hne'.
    destruct (Hstored input answer Hne') as [_ ->].
    replace (if negb (startsWith "http://" input) && negb (startsWith "https://" input)
             then "https://" ++ input else input) with (transformer input)
      by (unfold transformer; by rewrite Hne).
    destruct (new_URL (transformer input)) eqn:E.
    + split; [intros _; repeat split; done|done].
    + split; [done|]. intros (_ & _ & [? [=]]).
  - split; [done|]. intros [H _]. apply nonempty_true in H. congruence.
Qed.

Lemma httpUrl_validated_witness :
  validate demo_URL "example.com/mcp" = inr tt ∧
  httpUrl None (Some "example.com/mcp") = Some "https://example.com/mcp" ∧
  httpUrl (Some "http://localhost:3000") None = Some "http://localhost:3000".
Proof.
  destruct (httpUrl_validated demo_URL "example.com/mcp" None) as [H1 _].
  destruct (httpUrl_validated demo_URL "http://localhost:3000" None) as (_ & H2 & _).
  split; [reflexivity|]. split.
  - exact (proj1 (proj2 (proj1 H1 eq_refl))).
  - exact (H2 ltac:(discriminate)).
Defined.

(** The arguments typed at the prompt: no argument is empty and none
    holds white space or a comma; and arguments that are so, joined
    with spaces as the prompt shows its default, are read back as they
    were. *)
Theorem prompt_args_join (text : string) (args : list string) :
  Forall (λ a, a ≠ "" ∧
               forallb (λ c, negb (args_separator c)) (list_ascii_of_string a) = true)
    (prompt_args text) ∧
  (Forall (λ a, a ≠ "" ∧
                forallb (λ c, negb (args_separator c)) (list_ascii_of_string a) = true)
     args →
   prompt_args (join " " args) = args).
Proof.
  split.
  - unfold prompt_args. apply List.Forall_forall. intros a Ha.
    apply filter_Boolean_In in Ha as [Ha Hne]. split; [exact Hne|].
    apply in_map_iff in Ha as (b & <- & Hb).
    apply in_map_iff in Hb as (p & <- & Hp).
    pose proof (split_runs_clean args_separator false (list_ascii_of_string text)) as H.
    apply (proj1 (List.Forall_forall _ _) H) in Hp.
    rewrite trim_clean; rewrite list_ascii_of_string_of_list_ascii;
      [exact Hp|by apply args_separator_space].
  - intros H. unfold prompt_args. destruct args as [|a args]; [reflexivity|].
    rewrite split_runs_join by done.
    rewrite !map_map.
    assert (E : map (λ x, Configure.trim (string_of_list_ascii (list_ascii_of_string x)))
                  (a :: args) = a :: args).
    { rewrite <- (map_id (a :: args)) at 2. apply map_ext_in. intros x Hx.
      rewrite string_of_list_ascii_of_string. apply trim_clean.
      apply args_separator_space.
      by apply (proj1 (List.Forall_forall _ _) H x Hx). }
    rewrite E. apply filter_Boolean_id.
    eapply List.Forall_impl; [|exact H]. by intros x [? _].
Qed.

Lemma prompt_args_join_witness :
  prompt_args "  -y,  @scope/pkg --flag=1 " = ["-y"; "@scope/pkg"; "--flag=1"] ∧
  prompt_args (join " " ["-y"; "@scope/pkg"; "--flag=1"]) = ["-y"; "@scope/pkg"; "--flag=1"].
Proof.
  split; [reflexivity|].
  apply (proj2 (prompt_args_join "" ["-y"; "@scope/pkg"; "--flag=1"])).
  repeat constructor; discriminate.
Defined.

(** The tools offered by the wizard: no id twice, every tool one of the
    catalog, and for every id the tool that the catalog is searched
    for afterwards is the one that was offered, the first of that id. *)
Theorem uniqueTools_find (tools : list ToolEntry) :
  NoDup (id <$> uniqueTools tools) ∧
  (∀ t, t ∈ uniqueTools tools → t ∈ tools) ∧
  (∀ toolId, find_tool toolId (uniqueTools tools) = find_tool toolId tools).
Proof.
  destruct (uniqueTools_from_spec ∅ tools) as (H1 & H2 & H3).
  split; [exact H1|]. split.
  - intros t Ht. by destruct (H2 t Ht).
  - intros x. apply H3, not_elem_of_empty.
Qed.

(** The fallback offered after a failed health check always gives an
    invocation: its command is [npx], [node] or [php], so the error for
    an invalid fallback is never thrown. *)
Theorem fallback_invocation_valid (tool : ToolEntry) (c : string) :
  fallback tool = Some c →
  ∃ head rest, fallback_invocation c = inr (head, rest) ∧
               (head = "npx" ∨ head = "node" ∨ head = "php") ∧
               (head, rest) = splitCommand c.
Proof.
  unfold fallback. intros H. apply find_some in H as [_ H].
  assert (Hc : ∃ head c', (head = "npx" ∨ head = "node" ∨ head = "php") ∧
                          c = head ++ String " " c').
  { unfold startsWith in H.
    apply orb_true_iff in H as [H|H]; [apply orb_true_iff in H as [H|H]|];
      apply prefix_inv in H as [c' ->].
    - exists "npx", c'. split; [tauto|reflexivity].
    - exists "node", c'. split; [tauto|reflexivity].
    - exists "php", c'. split; [tauto|reflexivity]. }
  destruct Hc as (head & c' & Hhead & ->).
  assert (Hclean : has_char " " head = false ∧ Configure.nonempty head = true).
  { destruct Hhead as [-> | [-> | ->]]; by split. }
  destruct Hclean as [Hclean Hne].
  unfold fallback_invocation, splitCommand. cbv zeta.
  rewrite split_app by exact Hclean.
  unfold filter_Boolean. cbn [List.filter]. rewrite !Hne. cbn [negb].
  eexists _, _. split; [reflexivity|]. split; [exact Hhead|reflexivity].
Qed.

Lemma fallback_invocation_valid_witness :
  ∃ head rest,
    fallback_invocation "npx -y @modelcontextprotocol/server-github" = inr (head, rest) ∧
    (head = "npx" ∨ head = "node" ∨ head = "php") ∧
    (head, rest) = splitCommand "npx -y @modelcontextprotocol/server-github".
Proof. apply (fallback_invocation_valid demo_tool). reflexivity. Defined.

(** The command that the wizard builds in [applyConfiguration] never
    goes back to the wizard: whatever was answered, [execute] throws
    or goes on in manual mode. *)
Theorem applyConfiguration_manual (env : Configure.Env) (process : Command.Process)
    (bearer : option string) (agents : list string) (mcpConfig : Command.Mcp.t)
    (mcp_command : option string) (mcp_args : option (list string))
    (configDir : option string) (backup : option bool) :
  ∃ probes r,
    Command.execute env
      (Command.constructor process
         (applyConfiguration bearer agents mcpConfig mcp_command mcp_args configDir backup))
    = (probes, r) ∧
    (r = inr Command.ManualMode ∨ ∃ e, r = inl e).
Proof.
  unfold Command.execute.
  destruct (Configure.validateOptions _ _) as [probes [e|[]]].
  - exists probes, (inl e). split; [done|]. right. by exists e.
  - exists probes, (inr Command.ManualMode). split; [|by left].
    unfold Command.noFlags, Command.constructor, applyConfiguration.
    cbn [Command.interactive Command.yes Command.Raw.interactive Command.Raw.yes
         default from_option Datatypes.id].
    by rewrite andb_false_r.
Qed.

End WizardClaims.

(** ** The banner *)

Module BannerClaims.
Import Banner.

Lemma spaces_length (n : nat) : String.length (spaces n) = n.
Proof. induction n as [|n IH]; simpl; [done|by rewrite IH]. Qed.

(** [centerText] puts spaces in front of the text and nothing else, so
    the text is never cut; when the text fits in the width, the margin
    on the left is the margin on the right or one less, and a text as
    wide as the terminal or wider comes back as it is. *)
Theorem centerText_margins (columns : option Z) (text : string) (width : option Z) :
  let w := terminalWidth columns width in
  let len := Z.of_nat (String.length text) in
  ∃ left : nat,
    centerText columns text width = spaces left ++ text ∧
    ((len ≤ w)%Z →
     (Z.of_nat left ≤ w - len - Z.of_nat left ≤ Z.of_nat left + 1)%Z) ∧
    ((w ≤ len)%Z → centerText columns text width = text).
Proof.
  cbv zeta. unfold centerText. cbv zeta.
  set (w := terminalWidth columns width).
  set (len := Z.of_nat (String.length text)).
  exists (Z.to_nat (Z.max 0 ((w - len) / 2))). split; [reflexivity|]. split.
  - intros H.
    assert (Hdiv : (0 ≤ (w - len) / 2)%Z) by (apply Z.div_pos; lia).
    rewrite Z.max_r by lia. rewrite Z2Nat.id by lia.
    pose proof (Z.div_mod (w - len) 2 ltac:(lia)) as Hdm.
    pose proof (Z.mod_pos_bound (w - len) 2 ltac:(lia)) as Hmod.
    lia.
  - intros H.
    assert (Hdiv : ((w - len) / 2 ≤ 0)%Z).
    { apply Z.div_le_upper_bound; lia. }
    rewrite Z.max_l by lia. reflexivity.
Qed.

End BannerClaims.

(** ** The renderer and the redactors, once more *)

Module FlatFacts.
Import Chars Heap Flat.
#[local] Open Scope list_scope.

Lemma set_field_fresh (k : string) (v v0 : hval) (pre rest : list (string * hval)) :
  k ∉ pre.*1 →
  set_field k v (pre ++ (k, v0) :: rest) = pre ++ (k, v) :: rest.
Proof.
  induction pre as [|[k' v'] pre IH]; simpl; intros H.
  - by rewrite String.eqb_refl.
  - apply not_elem_of_cons in H as [Hne H].
    destruct (String.eqb_spec k' k) as [->|_]; [done|]. by rewrite IH.
Qed.

(** The loop of [walk] over the fields still to visit, on the copy
    [clone]: the fields visited so far hold their redacted text. *)
Lemma walk_fields (fuel' : nat) (clone : loc) (todo done_ : list (string * hval))
    (h : heap) :
  flat todo → NoDup (done_ ++ todo).*1 →
  cells h !! clone = Some (HObject (done_ ++ todo)) →
  foldl
    (λ acc '(k, v),
       match acc with
       | None => None
       | Some h =>
           match v with
           | HRef l => walk fuel' l h
           | HStr s => Some (assign clone k (HStr (redact_field (key_string k) s)) h)
           | _ => Some h
           end
       end)
    (Some h) (map (λ kv, (KName kv.1, kv.2)) todo)
  = Some {| cells := <[clone := HObject (done_ ++ map redacted_field todo)]> (cells h);
            next := next h |}.
Proof.
  revert done_ h. induction todo as [|[k v] todo IH]; intros done_ h Hflat Hnd Hcell.
  { simpl. f_equal. destruct h as [c n]. simpl in *. f_equal.
    by rewrite insert_id. }
  inversion Hflat as [|? ? Hv Hflat']; subst. simpl in Hv.
  cbn [map foldl fst snd].
  assert (Hk : k ∉ done_.*1).
  { rewrite fmap_app in Hnd. apply NoDup_app in Hnd as (_ & Hnd & _).
    intros Hin. apply (Hnd k Hin). simpl. by left. }
  assert (Hstep : ∀ v', 
    cells h !! clone = Some (HObject (done_ ++ (k, v) :: todo)) →
    assign clone (KName k) v' h
    = {| cells := <[clone := HObject ((done_ ++ [(k, v')]) ++ todo)]> (cells h);
         next := next h |}).
  { intros v' Hc. unfold assign. rewrite Hc. rewrite set_field_fresh by done.
    by rewrite <- app_assoc. }
  assert (Hnd' : ∀ v', NoDup ((done_ ++ [(k, v')]) ++ todo).*1).
  { intros v'. rewrite <- app_assoc. simpl.
    rewrite !fmap_app in *. simpl in *. exact Hnd. }
  destruct v as [| | | |s|l]; try done; cbn [key_string].
  5: {
    rewrite (Hstep _ Hcell).
    rewrite (IH (done_ ++ [(k, HStr (redact_field k s))]) _ Hflat' (Hnd' _)).
    - cbn [cells next]. rewrite insert_insert_eq. f_equal. f_equal. f_equal.
      by rewrite <- app_assoc.
    - cbn [cells]. by rewrite lookup_insert_eq. }
  all: rewrite (IH (done_ ++ [_]) h Hflat' (Hnd' _))
         by (by rewrite <- app_assoc);
       by rewrite <- app_assoc.
Qed.

End FlatFacts.

Module MoreClaims.
Import Chars Render RenderSpec Regex Proxy Heap Flat FlatFacts.
#[local] Open Scope list_scope.

(** The keys of a rendered server go with its transport: a [stdio]
    server has no [url], [httpUrl], [headers] or [type], a remote one no
    [command], [args] or [cwd], for every agent. *)
Theorem renderServer_transport_keys (i : RenderInput) (k : string) (v : value) :
  renderServer i !! k = Some v →
  match transport i with
  | stdio => k ≠ "url" ∧ k ≠ "httpUrl" ∧ k ≠ "headers" ∧ k ≠ "type"
  | _ => k ≠ "command" ∧ k ≠ "args" ∧ k ≠ "cwd"
  end.
Proof.
  unfold renderServer.
  destruct (String.eqb (agent i) "cursor"), (String.eqb (agent i) "gemini"),
    (String.eqb (agent i) "claude"), (transport i); cbv beta iota zeta; intros H;
    lookup_cases H; repeat split; discriminate.
Qed.

Lemma renderServer_transport_keys_witness :
  renderServer cursor_stdio_input !! "command" = Some (VStr "npx") ∧
  "command" ≠ "url" ∧ "command" ≠ "httpUrl" ∧ "command" ≠ "headers" ∧ "command" ≠ "type".
Proof.
  assert (H : renderServer cursor_stdio_input !! "command" = Some (VStr "npx"))
    by (vm_compute; reflexivity).
  split; [exact H|].
  exact (renderServer_transport_keys cursor_stdio_input "command" (VStr "npx") H).
Defined.

(** [redactForLogs] on an argv never drops an element and adds at most
    one: the result is as long as the argv, or one longer. *)
Theorem redactForLogs_argv_length (x : list string) :
  length x ≤ length (redactForLogs_argv x) ≤ length x + 1.
Proof.
  assert (H : ∀ n x, length x ≤ n →
                length x ≤ length (redactForLogs_argv x) ≤ length x + 1).
  { clear x. induction n as [|n IH]; intros x Hn.
    - destruct x; [simpl; lia|simpl in Hn; lia].
    - destruct x as [|part rest]; [simpl; lia|]. simpl in Hn.
      cbn [redactForLogs_argv]. destruct (is_bearer_flag part).
      + destruct rest as [|y rest']; [simpl; lia|]. simpl in Hn.
        specialize (IH rest' ltac:(lia)). simpl. lia.
      + specialize (IH rest ltac:(lia)). simpl. lia. }
  by apply (H (length x)).
Qed.

(** [redactForLogs] on an object with no object or array in it: the
    call returns, with one unit of fuel, a new object whose fields are
    those of the argument, in order, each string replaced by its
    redacted text; every object that existed before is as it was. *)
Theorem redactForLogs_object_flat (fuel : nat) (x : loc) (h : heap)
    (fields : list (string * hval)) :
  cells h !! x = Some (HObject fields) → flat fields → NoDup fields.*1 →
  ∃ h', redactForLogs_object (S fuel) x h = Some (next h, h') ∧
        cells h' !! next h = Some (HObject (map redacted_field fields)) ∧
        unchanged h h'.
Proof.
  intros Hx Hflat Hnd. unfold redactForLogs_object. rewrite Hx.
  unfold alloc. cbn [walk cells]. rewrite lookup_insert_eq. cbn [entries].
  rewrite (walk_fields fuel (next h) fields []
             {| cells := <[next h := HObject fields]> (cells h); next := S (next h) |}
             Hflat Hnd) by (cbn [cells app]; by rewrite lookup_insert_eq).
  eexists. split; [reflexivity|]. split.
  - cbn [cells app]. by rewrite lookup_insert_eq.
  - unfold unchanged. intros l Hl. cbn [cells next] in *.
    rewrite !lookup_insert_ne by lia. reflexivity.
Qed.

Lemma redactForLogs_object_flat_witness :
  ∃ h', redactForLogs_object 1 0 flat_secret = Some (1, h') ∧
        cells h' !! 1
        = Some (HObject [("Authorization", HStr "Bearer <redacted:authorization>");
                         ("url", HStr "https://example.com");
                         ("retries", HNum 3)]) ∧
        cells h' !! 0 = cells flat_secret !! 0.
Proof.
  destruct (redactForLogs_object_flat 0 0 flat_secret
              [("Authorization", HStr "Bearer abc123");
               ("url", HStr "https://example.com"); ("retries", HNum 3)])
    as (h' & Hr & Hc & Hu).
  - reflexivity.
  - repeat constructor.
  - repeat constructor; rewrite ?elem_of_cons, ?elem_of_nil; intuition discriminate.
  - exists h'. split; [exact Hr|]. split.
    + etrans; [exact Hc|]. vm_compute. reflexivity.
    + apply Hu. simpl. lia.
Defined.

End MoreClaims.
